(** * Dial-up visualizer: spectrogram capture and solid-mesh export

    A shallow embedding of [script.js]: the frequency-axis mapping, the
    amplitude colour ramp, the slice normalisation, the scrolling live
    surface buffer, the OBJ builder [buildOBJFromCaptured] and the export
    click handler.

    Numbers.  JavaScript numbers are modelled as real numbers ([R]): the
    rounding of IEEE double arithmetic is not modelled.  A store into a
    [Float32Array] rounds to the nearest binary32 number ([Math_fround]);
    the model rounds the stores into [zRowPositions], the typed array whose
    entries are compared below with numbers the exporter computes in
    double precision.  Heights, slices and colours are kept as computed:
    what is proved of them is which value goes where and in what range it
    lies, which the rounding of a store does not change.
    Quantities the script only uses as array lengths, loop bounds and indices
    are natural numbers.  [Math.pow] is the real power function, completed
    at base 0 the way JavaScript does for the exponents the script uses. *)

From Stdlib Require Import Reals Lra Lia List ZArith Bool Arith.
Import ListNotations.

Open Scope R_scope.

(* ------------------------------------------------------------------ *)
(** ** JavaScript arithmetic used by the script *)

Module JS.

Definition ltb (x y : R) : bool := if Rlt_dec x y then true else false.
Definition leb (x y : R) : bool := if Rle_dec x y then true else false.
(** [x === y] on numbers *)
Definition eqb (x y : R) : bool := if Req_dec_T x y then true else false.

(** [Math.pow(x, y)] for a base [x >= 0]: [pow(0, y)] is 0 for [y > 0] and
    1 for [y = 0]; otherwise [exp (y * ln x)]. *)
Definition Math_pow (x y : R) : R :=
  if Req_dec_T x 0 then (if Req_dec_T y 0 then 1 else 0) else Rpower x y.

(** [Math.floor] *)
Definition Math_floor (x : R) : Z := Int_part x.

(** [Math.round]: the nearest integer, halves rounded up *)
Definition Math_round (x : R) : Z := Int_part (x + / 2).

Definition Math_min (x y : R) : R := Rmin x y.
Definition Math_max (x y : R) : R := Rmax x y.

(** The nearest integer, a tie going to the even one. *)
Definition roundHalfEven (y : R) : Z :=
  let n := Int_part y in
  let d := y - IZR n in
  if ltb d (/ 2) then n
  else if ltb (/ 2) d then (n + 1)%Z
  else if Z.even n then n else (n + 1)%Z.

(** The exponent [e] of the binade of [x], [2^e <= |x| < 2^(e+1)], not
    below -126, the least exponent of binary32, which the subnormal numbers
    share. *)
Definition binade (x : R) : Z := Z.max (-126) (Int_part (ln (Rabs x) / ln 2)).

(** [Math.fround(x)], which is what a store [a[i] = x] into a
    [Float32Array] keeps: the nearest multiple of the spacing
    [2^(e - 23)] of the binade of [x], ties to even.  Numbers of
    magnitude [2^128] and more, which binary32 stores as an infinity, do
    not occur in the script. *)
Definition Math_fround (x : R) : R :=
  let q := powerRZ 2 (binade x - 23) in
  IZR (roundHalfEven (x / q)) * q.

End JS.

Import JS.

(* ------------------------------------------------------------------ *)
(** ** Constants *)

(** [analyser.fftSize = 1024] gives [frequencyBinCount = 512]. *)
Definition freqBinCount : nat := 512.

Definition pointsPerSlice : nat := 128.
(** [Math.floor(freqBinCount / pointsPerSlice)], on natural numbers *)
Definition sliceStride : nat := freqBinCount / pointsPerSlice.
Definition activeFrequencyFraction : R := 0.75.
Definition frequencyExponent : R := 0.65.
Definition noiseFloor : R := 0.03.

Definition numSlices : nat := 1024.
Definition width : R := 400.
Definition depth : R := 80.
Definition heightScale : R := 0.6.

Definition baseThickness : R := 4.
Definition backThickness : R := 6.

(* ------------------------------------------------------------------ *)
(** ** Frequency axis: [zRowPositions] *)

Definition zMin : R := - depth / 2.
Definition zMax : R := depth / 2.

(** [Math.max(2, Math.floor(pointsPerSlice * activeFrequencyFraction))] *)
Definition activeRows : nat :=
  Nat.max 2 (Z.to_nat (Math_floor (INR pointsPerSlice * activeFrequencyFraction))).

(** The number the body of the loop that fills [zRowPositions] computes
    for row [z], before it is stored. *)
Definition zRowPosition (z : nat) : R :=
  if (z <? activeRows)%nat then
    let t := INR z / (INR activeRows - 1) in
    let tExp := Math_pow t frequencyExponent in
    zMin + tExp * (zMax - zMin)
  else zMax.

(** [zRowPositions], a [Float32Array(pointsPerSlice)]: the store
    [zRowPositions[z] = ...] keeps the binary32 rounding of the number. *)
Definition zRowPositions : list R :=
  map (fun z => Math_fround (zRowPosition z)) (seq 0 pointsPerSlice).

(* ------------------------------------------------------------------ *)
(** ** Colour ramp: [referenceColorRamp] *)

Record Color : Type := mkColor { cr : R; cg : R; cb : R }.

Record Stop : Type := mkStop { s : R; c : R * R * R }.

Definition ramp : list Stop :=
  [ mkStop 0.00 (0.55, 0.00, 0.00);
    mkStop 0.15 (1.00, 0.13, 0.00);
    mkStop 0.30 (1.00, 0.75, 0.00);
    mkStop 0.45 (1.00, 1.00, 0.00);
    mkStop 0.65 (0.12, 0.86, 1.00);
    mkStop 0.82 (0.00, 0.46, 1.00);
    mkStop 1.00 (0.00, 0.12, 0.70) ].

Definition c0 (st : Stop) : R := fst (fst (c st)).
Definition c1 (st : Stop) : R := snd (fst (c st)).
Definition c2 (st : Stop) : R := snd (c st).

(** The segment loop [for (i = 0; i < ramp.length - 1; i++)]: the first pair
    of neighbouring stops [a], [b] with [a.s <= v <= b.s] gives the colour. *)
Fixpoint findSegment (v : R) (stops : list Stop) : option Color :=
  match stops with
  | a :: (b :: _) as rest =>
      if leb (s a) v && leb v (s b) then
        let t01 := (v - s a) / (s b - s a) in
        Some (mkColor (c0 a + (c0 b - c0 a) * t01)
                      (c1 a + (c1 b - c1 a) * t01)
                      (c2 a + (c2 b - c2 a) * t01))
      else findSegment v rest
  | _ => None
  end.

Definition lastStop : Stop := last ramp (mkStop 0 (0, 0, 0)).

Definition referenceColorRamp (t : R) : Color :=
  let v := Math_min 1 (Math_max 0 t) in
  match findSegment v ramp with
  | Some col => col
  | None => mkColor (c0 lastStop) (c1 lastStop) (c2 lastStop)
  end.

(* ------------------------------------------------------------------ *)
(** ** Slice normalisation (first loop of [updateSurfaceFromFrequencies]) *)

(** A slice is a [Float32Array(pointsPerSlice)]. *)
Definition Slice : Type := list R.

(** [slice[j]]; every slice the script creates has [pointsPerSlice] entries
    and is only read below that length. *)
Definition sliceAt (sl : Slice) (j : nat) : R := nth j sl 0.

(** [freqData] is a [Uint8Array(freqBinCount)]: entries in 0..255. *)
Definition FreqData : Type := list Z.

Definition srcIndex (i : nat) : nat := Nat.min (freqBinCount - 1) (i * sliceStride).

(** The sampled raw magnitude for output row [i]. *)
Definition rawAt (freqData : FreqData) (i : nat) : Z := nth (srcIndex i) freqData 0%Z.

(** One iteration of the normalisation loop: the value stored in
    [newSlice[i]]. *)
Definition emphasizedBin (freqData : FreqData) (i : nat) : R :=
  let bin := IZR (rawAt freqData i) / 255 in
  let bin := if ltb bin noiseFloor && (activeRows <=? i)%nat then 0 else bin in
  Math_pow bin 1.2.

Definition normalizeSlice (freqData : FreqData) : Slice :=
  map (emphasizedBin freqData) (seq 0 pointsPerSlice).

(* ------------------------------------------------------------------ *)
(** ** Arrays *)

(** A typed-array store [a[i] = v]: an index outside the array is ignored. *)
Fixpoint upd {A : Type} (l : list A) (i : nat) (v : A) : list A :=
  match l, i with
  | [], _ => []
  | _ :: t, O => v :: t
  | h :: t, S i' => h :: upd t i' v
  end.

(** A read [a[i]] of a [Float32Array]; the script reads inside the array. *)
Definition rd (l : list R) (i : nat) : R := nth i l 0.

(** An attribute array holds three numbers per vertex; [getCh o a v] is
    component [o] of vertex [v]. *)
Definition getCh (o : nat) (a : list R) (v : nat) : R := rd a (v * 3 + o).
Definition setCh (o : nat) (a : list R) (v : nat) (x : R) : list R := upd a (v * 3 + o) x.

(* ------------------------------------------------------------------ *)
(** ** Live surface buffer (second loop of [updateSurfaceFromFrequencies]) *)

Section LiveSurface.

(** [rows] is [pointsPerSlice], [rowSize] is [numSlices]. *)
Variables rows rowSize : nat.

(** Body of the inner loop: copy vertex [x + 1] of the row to vertex [x]. *)
Definition shiftStep (rowStartVertex : nat) (pc : list R * list R) (x : nat)
  : list R * list R :=
  let '(posArray, colors) := pc in
  let fromV := (rowStartVertex + x + 1)%nat in
  let toV := (rowStartVertex + x)%nat in
  let posArray := setCh 1 posArray toV (getCh 1 posArray fromV) in
  let colors := setCh 0 colors toV (getCh 0 colors fromV) in
  let colors := setCh 1 colors toV (getCh 1 colors fromV) in
  let colors := setCh 2 colors toV (getCh 2 colors fromV) in
  (posArray, colors).

(** Body of the outer loop for frequency row [z]. *)
Definition rowStep (newSlice : Slice) (pc : list R * list R) (z : nat)
  : list R * list R :=
  let rowStartVertex := (z * rowSize)%nat in
  let '(posArray, colors) :=
    fold_left (shiftStep rowStartVertex) (seq 0 (rowSize - 1)) pc in
  let lastV := (rowStartVertex + rowSize - 1)%nat in
  let y := sliceAt newSlice z * depth * heightScale in
  let posArray := setCh 1 posArray lastV y in
  let t := sliceAt newSlice z in
  let color := referenceColorRamp t in
  let colors := setCh 0 colors lastV (cr color) in
  let colors := setCh 1 colors lastV (cg color) in
  let colors := setCh 2 colors lastV (cb color) in
  (posArray, colors).

Definition shiftAndAppend (newSlice : Slice) (pc : list R * list R)
  : list R * list R :=
  fold_left (rowStep newSlice) (seq 0 rows) pc.

End LiveSurface.

(** The geometry the scene currently shows: the initial plane, whose
    position attribute is [positionAttr] itself, or the one
    [finalizeModelGeometry] built, with a position array of its own. *)
Inductive CurrentGeometry : Type :=
| InitialGeometry
| FinalGeometry (position : list R).

(** The script's mutable globals. *)
Record State : Type := mkState {
  positionAttr : list R;
  colors : list R;
  geometry : CurrentGeometry;
  capturedSlices : list Slice;
  isCapturing : bool;
  hasEnded : bool
}.

(** [geometry.attributes.position.array] *)
Definition geometryPosition (st : State) : list R :=
  match geometry st with
  | InitialGeometry => positionAttr st
  | FinalGeometry p => p
  end.

(** [updateSurfaceFromFrequencies], with [freqData] as the analyser filled
    it. *)
Definition updateSurfaceFromFrequencies (st : State) (freqData : FreqData) : State :=
  let newSlice := normalizeSlice freqData in
  let captured :=
    if isCapturing st then capturedSlices st ++ [newSlice] else capturedSlices st in
  let '(posArray, cols) :=
    shiftAndAppend pointsPerSlice numSlices newSlice (positionAttr st, colors st) in
  mkState posArray cols (geometry st) captured (isCapturing st) (hasEnded st).

(** [resetVisualization]: heights of the displayed geometry to 0, colours to
    a neutral grey; the loop runs over the vertices of the initial plane. *)
Definition resetVisualization (st : State) : State :=
  let baseColor := mkColor 0.15 0.15 0.15 in
  let count := (length (positionAttr st) / 3)%nat in
  let posArray := geometryPosition st in
  let '(posArray, cols) :=
    fold_left (fun (pc : list R * list R) (i : nat) =>
                 let '(p, cl) := pc in
                 (setCh 1 p i 0,
                  setCh 2 (setCh 1 (setCh 0 cl i (cr baseColor)) i (cg baseColor))
                        i (cb baseColor)))
              (seq 0 count) (posArray, colors st) in
  match geometry st with
  | InitialGeometry =>
      mkState posArray cols InitialGeometry (capturedSlices st)
              (isCapturing st) (hasEnded st)
  | FinalGeometry _ =>
      mkState (positionAttr st) cols (FinalGeometry posArray) (capturedSlices st)
              (isCapturing st) (hasEnded st)
  end.

(** The reset button's click handler, as far as the globals go. *)
Definition resetClick (st : State) : State :=
  let st := mkState (positionAttr st) (colors st) (geometry st) [] false false in
  resetVisualization st.

(** [synthesizeCapturedFromSurface]: replace the history by a sampling of the
    displayed geometry. *)
Definition synthesizeCapturedFromSurface (st : State) : State :=
  let pos := geometryPosition st in
  let totalVertices := (length pos / 3)%nat in
  let slices := Nat.max 2 (totalVertices / pointsPerSlice) in
  let sliceOf (x : nat) : Slice :=
    map (fun z =>
           let idx := (z * slices + x)%nat in
           let y := getCh 1 pos idx in
           Math_max 0 (Math_min 1 (y / (depth * heightScale))))
        (seq 0 pointsPerSlice) in
  let captured := fold_left (fun acc x => acc ++ [sliceOf x]) (seq 0 slices) [] in
  mkState (positionAttr st) (colors st) (geometry st) captured
          (isCapturing st) (hasEnded st).

(* ------------------------------------------------------------------ *)
(** ** Completions: a call returns or throws *)

Inductive JsError : Type := TypeError.

Inductive Completion (A : Type) : Type :=
| Normal (a : A)
| Throw (e : JsError).

Arguments Normal {A} a.
Arguments Throw {A} e.

Definition bind {A B : Type} (m : Completion A) (k : A -> Completion B) : Completion B :=
  match m with
  | Normal a => k a
  | Throw e => Throw e
  end.

Notation "x <- m ;; k" := (bind m (fun x => k))
  (at level 61, m at next level, right associativity).

(** A [for] loop over [l] whose body may throw. *)
Fixpoint foldM {St A : Type} (body : St -> A -> Completion St) (l : list A) (st : St)
  : Completion St :=
  match l with
  | [] => Normal st
  | a :: l' => st' <- body st a ;; foldM body l' st'
  end.

(** A loop that fills a fresh array, one entry per element of [l]. *)
Fixpoint mapM {A B : Type} (body : A -> Completion B) (l : list A) : Completion (list B) :=
  match l with
  | [] => Normal []
  | a :: l' => b <- body a ;; bs <- mapM body l' ;; Normal (b :: bs)
  end.

(** A loop that threads a state and fills a fresh array. *)
Fixpoint mapAccum {St A B : Type} (body : St -> A -> St * B) (st : St) (l : list A)
  : St * list B :=
  match l with
  | [] => (st, [])
  | a :: l' =>
      let '(st1, b) := body st a in
      let '(st2, bs) := mapAccum body st1 l' in
      (st2, b :: bs)
  end.

(** Arrays of arrays.  [t[i]] of a row the table does not have is
    [undefined], and reading or writing [undefined[j]] throws a TypeError.
    An entry missing from an existing row reads as [undefined], for which
    the default [d] stands: [false] for flags, 0 for a vertex index (no
    vertex has it) and for a height. *)
Definition Table (A : Type) : Type := list (list A).

Definition row {A : Type} (t : Table A) (i : nat) : Completion (list A) :=
  match nth_error t i with
  | Some r => Normal r
  | None => Throw TypeError
  end.

Definition get2 {A : Type} (d : A) (t : Table A) (i j : nat) : Completion A :=
  r <- row t i ;; Normal (nth j r d).

(** An array store [a[j] = v]: beyond the end the array grows, the gap
    reading as [d]. *)
Definition arrSet {A : Type} (d : A) (l : list A) (j : nat) (v : A) : list A :=
  if (j <? length l)%nat then upd l j v
  else l ++ repeat d (j - length l) ++ [v].

Definition set2 {A : Type} (d : A) (t : Table A) (i j : nat) (v : A)
  : Completion (Table A) :=
  r <- row t i ;; Normal (upd t i (arrSet d r j v)).

(* ------------------------------------------------------------------ *)
(** ** The exported mesh *)

Record Vec3 : Type := mkVec3 { vX : R; vY : R; vZ : R }.

(** A material name [c_<ir>_<ig>_<ib>] is modelled by the three integers. *)
Definition MatName : Type := (Z * Z * Z)%type.

Record Material : Type := mkMaterial {
  name : MatName; mr : R; mg : R; mb : R
}.

(** The [materials] Map, in insertion order. *)
Definition Materials : Type := list (MatName * Material).

(** A [usemtl] line and the [f] line that follows it. *)
Record Face : Type := mkFace { fmat : MatName; f1 : nat; f2 : nat; f3 : nat }.

(** What [buildOBJFromCaptured] has when it serialises: the vertex arrays
    [vx], [vy], [vz] (one entry each per [pushV], kept together), the face
    lines [f] and the materials.  The text layout of [objText] and [mtlText]
    is not modelled. *)
Record Mesh : Type := mkMesh {
  vertices : list Vec3;
  faces : list Face;
  meshMaterials : Materials
}.

Definition matNameEqb (a b : MatName) : bool :=
  let '(a1, a2, a3) := a in
  let '(b1, b2, b3) := b in
  (a1 =? b1)%Z && (a2 =? b2)%Z && (a3 =? b3)%Z.

Fixpoint materialsGet (m : Materials) (key : MatName) : option Material :=
  match m with
  | [] => None
  | (k, x) :: m' => if matNameEqb k key then Some x else materialsGet m' key
  end.

Definition materialsHas (m : Materials) (key : MatName) : bool :=
  match materialsGet m key with Some _ => true | None => false end.

Definition materialNameForColor (materials : Materials) (color : Color)
  : Materials * MatName :=
  let ir := Math_round (Math_max 0 (Math_min 1 (cr color)) * 255) in
  let ig := Math_round (Math_max 0 (Math_min 1 (cg color)) * 255) in
  let ib := Math_round (Math_max 0 (Math_min 1 (cb color)) * 255) in
  let key := (ir, ig, ib) in
  let materials :=
    if negb (materialsHas materials key) then
      materials ++ [(key, mkMaterial key (IZR ir / 255) (IZR ig / 255) (IZR ib / 255))]
    else materials in
  (materials, match materialsGet materials key with
              | Some m => name m
              | None => key
              end).

(** [pushV]: append a vertex and return its 1-based index.  The colour
    arguments are not used. *)
Definition pushV (v : list Vec3) (x y z : R) (r g b : R) : list Vec3 * nat :=
  let v := v ++ [mkVec3 x y z] in
  (v, length v).

(** [vx[i - 1]], [vy[i - 1]], [vz[i - 1]] for a vertex index [i]:
    [undefined] for index 0 and beyond the last vertex. *)
Definition vertexAt (v : list Vec3) (i : nat) : option Vec3 :=
  match i with
  | O => None
  | S a => nth_error v a
  end.

(** The normal [(pb - pa) x (pc - pa)] as [emitFace] computes it. *)
Definition faceNormal (pa pb pc : Vec3) : Vec3 :=
  let abx := vX pb - vX pa in
  let aby := vY pb - vY pa in
  let abz := vZ pb - vZ pa in
  let acx := vX pc - vX pa in
  let acy := vY pc - vY pa in
  let acz := vZ pc - vZ pa in
  mkVec3 (aby * acz - abz * acy) (abz * acx - abx * acz) (abx * acy - aby * acx).

Definition dot3 (n d : Vec3) : R := vX n * vX d + vY n * vY d + vZ n * vZ d.

(** [dot] in [emitFace]; [None] is NaN, which a missing vertex gives. *)
Definition faceDot (v : list Vec3) (i1 i2 i3 : nat) (desired : Vec3) : option R :=
  match vertexAt v i1, vertexAt v i2, vertexAt v i3 with
  | Some pa, Some pb, Some pc => Some (dot3 (faceNormal pa pb pc) desired)
  | _, _, _ => None
  end.

(** [emitFace]: [dot >= 0] keeps the order, anything else (a negative
    [dot], or NaN) swaps the last two indices. *)
Definition emitFace (v : list Vec3) (f : list Face) (i1 i2 i3 : nat)
  (desired : Vec3) (matName : MatName) : list Face :=
  match faceDot v i1 i2 i3 desired with
  | Some dot =>
      if leb 0 dot then f ++ [mkFace matName i1 i2 i3]
      else f ++ [mkFace matName i1 i3 i2]
  | None => f ++ [mkFace matName i1 i3 i2]
  end.

Definition OUT_TOP : Vec3 := mkVec3 0 1 0.
Definition OUT_BOTTOM : Vec3 := mkVec3 0 (-1) 0.
Definition OUT_FRONT : Vec3 := mkVec3 0 0 1.
Definition OUT_BACK : Vec3 := mkVec3 0 0 (-1).
Definition OUT_LEFT : Vec3 := mkVec3 (-1) 0 0.
Definition OUT_RIGHT : Vec3 := mkVec3 1 0 0.

(* ------------------------------------------------------------------ *)
(** ** [buildOBJFromCaptured] *)

(** [Math.max(2, Math.floor(pointsPerSlice * activeFrequencyFraction))],
    computed again inside the builder *)
Definition activeRowsCount : nat :=
  Nat.max 2 (Z.to_nat (Math_floor (INR pointsPerSlice * activeFrequencyFraction))).

Definition bins : nat := activeRowsCount + 1.
(** [dz] and [backZ] are computed and never used. *)
Definition dx : R := width / (INR numSlices - 1).
Definition z0 : R := - depth / 2.
Definition flatEps : R := 0.02 * depth * heightScale.
Definition baseColor : Color := mkColor 0.7 0.7 0.7.

(** The z placement written out in the loop over the top vertices. *)
Definition topRowZ (j : nat) : R :=
  if (j <? activeRowsCount)%nat then
    let t := INR j / (INR activeRowsCount - 1) in
    let tExp := Math_pow t frequencyExponent in
    z0 + tExp * depth
  else z0 + depth.

(** The same placement, written out again in the loop over the bottom
    grid. *)
Definition bottomRowZ (j : nat) : R :=
  if (j <? activeRowsCount)%nat then
    let t := INR j / (INR activeRowsCount - 1) in
    let tExp := Math_pow t frequencyExponent in
    z0 + tExp * depth
  else z0 + depth.

(** What the top-vertex loop passes to [pushV] for row [j] of a slice at
    abscissa [x]: the position and the colour. *)
Definition topVertexArgs (x : R) (slice : Slice) (j : nat) : Vec3 * Color :=
  let z := topRowZ j in
  let amp := if (j <? activeRowsCount)%nat then sliceAt slice j else 0 in
  let y := amp * depth * heightScale in
  let y := if ltb y flatEps then 0 else y in
  let col := referenceColorRamp amp in
  (mkVec3 x y z, col).

(** One iteration of the inner top-vertex loop: the entries stored in
    [indexTop[i][j]] and [yTop[i][j]]. *)
Definition topCell (x : R) (slice : Slice) (v : list Vec3) (j : nat)
  : list Vec3 * (nat * R) :=
  let '(p, col) := topVertexArgs x slice j in
  let '(v, idx) := pushV v (vX p) (vY p) (vZ p) (cr col) (cg col) (cb col) in
  (v, (idx, vY p)).

Definition bottomCell (x : R) (v : list Vec3) (j : nat) : list Vec3 * nat :=
  let z := bottomRowZ j in
  pushV v x (- baseThickness) z (cr baseColor) (cg baseColor) (cb baseColor).

(** State of the loop that triangulates the top surface. *)
Record TopState : Type := mkTopState {
  visited : Table bool;
  topFaces : list Face;
  topMaterials : Materials
}.

Section Builder.

(** [capturedSlices] when the builder runs *)
Variable captured : list Slice.

Definition slices : nat := length captured.
Definition exportWidth : R := dx * (INR slices - 1).
Definition x0 : R := - exportWidth / 2.

Definition topRow (v : list Vec3) (ix : nat * Slice) : list Vec3 * list (nat * R) :=
  let '(i, slice) := ix in
  let x := x0 + dx * INR i in
  mapAccum (topCell x slice) v (seq 0 bins).

(** The top-vertex loops: the vertices pushed, with [indexTop] and [yTop]
    as one table of pairs. *)
Definition topGrid : list Vec3 * Table (nat * R) :=
  mapAccum topRow [] (combine (seq 0 slices) captured).

Definition bottomRow (v : list Vec3) (i : nat) : list Vec3 * list nat :=
  let x := x0 + dx * INR i in
  mapAccum (bottomCell x) v (seq 0 bins).

(** The bottom-grid loops, continuing from the vertices [v]. *)
Definition bottomGrid (v : list Vec3) : list Vec3 * Table nat :=
  mapAccum bottomRow v (seq 0 slices).

Section Faces.

Variable v : list Vec3.
Variables indexTop indexBottom : Table nat.
Variable yTop : Table R.
Variable baseMat : MatName.

(** The grid of flat cells *)
Definition flatCells : Completion (Table bool) :=
  mapM (fun i =>
    mapM (fun j =>
      y00 <- get2 0 yTop i j ;;
      y10 <- get2 0 yTop (i + 1) j ;;
      y01 <- get2 0 yTop i (j + 1) ;;
      y11 <- get2 0 yTop (i + 1) (j + 1) ;;
      Normal (eqb y00 0 && eqb y10 0 && eqb y01 0 && eqb y11 0))
      (seq 0 (bins - 1)))
    (seq 0 (slices - 1)).

Variable flatCell : Table bool.

(** [while (iW + 1 < slices - 1 && flatCell[iW + 1][j] &&
    !visited[iW + 1][j]) iW++]; [cands] lists the values [iW + 1] below
    [slices - 1] still ahead. *)
Fixpoint growW (vis : Table bool) (j : nat) (cands : list nat) (iW : nat)
  : Completion nat :=
  match cands with
  | [] => Normal iW
  | k :: rest =>
      fl <- get2 false flatCell k j ;;
      if fl then
        vs <- get2 false vis k j ;;
        if negb vs then growW vis j rest k else Normal iW
      else Normal iW
  end.

(** The inner [for (k = i; k <= iW; k++)] of the second growth loop:
    [true] when no cell of column [jn] stops the growth. *)
Fixpoint columnGrows (vis : Table bool) (jn : nat) (ks : list nat)
  : Completion bool :=
  match ks with
  | [] => Normal true
  | k :: rest =>
      fl <- get2 false flatCell k jn ;;
      if negb fl then Normal false
      else
        vs <- get2 false vis k jn ;;
        if vs then Normal false else columnGrows vis jn rest
  end.

(** [while (grow && jH + 1 < bins - 1) ...]; [cands] lists the values
    [jH + 1] below [bins - 1] still ahead. *)
Fixpoint growH (vis : Table bool) (i iW : nat) (cands : list nat) (jH : nat)
  : Completion nat :=
  match cands with
  | [] => Normal jH
  | jn :: rest =>
      grow <- columnGrows vis jn (seq i (iW + 1 - i)) ;;
      if grow then growH vis i iW rest jn else Normal jH
  end.

(** Mark the cells [i..iW] x [j..jH] visited. *)
Definition markVisited (vis : Table bool) (i iW j jH : nat)
  : Completion (Table bool) :=
  foldM (fun vis jj =>
           foldM (fun vis ii => set2 false vis ii jj true)
                 (seq i (iW + 1 - i)) vis)
        (seq j (jH + 1 - j)) vis.

(** Body of the loops over the top cells, for cell [(i, j)]. *)
Definition topCellFaces (st : TopState) (i j : nat) : Completion TopState :=
  vs <- get2 false (visited st) i j ;;
  if vs then Normal st
  else
    fl <- get2 false flatCell i j ;;
    if negb fl then
      a <- get2 O indexTop i j ;;
      bIdx <- get2 O indexTop (i + 1) j ;;
      cIdx <- get2 O indexTop (i + 1) (j + 1) ;;
      d <- get2 O indexTop i (j + 1) ;;
      let scale := depth * heightScale in
      y00 <- get2 0 yTop i j ;;
      y10 <- get2 0 yTop (i + 1) j ;;
      y11 <- get2 0 yTop (i + 1) (j + 1) ;;
      y01 <- get2 0 yTop i (j + 1) ;;
      let t1 := (y00 + y10 + y11) / (3 * scale) in
      let t2 := (y00 + y11 + y01) / (3 * scale) in
      let col1 := referenceColorRamp (Math_max 0 (Math_min 1 t1)) in
      let col2 := referenceColorRamp (Math_max 0 (Math_min 1 t2)) in
      let '(m, n1) := materialNameForColor (topMaterials st) col1 in
      let f := emitFace v (topFaces st) a bIdx cIdx OUT_TOP n1 in
      let '(m, n2) := materialNameForColor m col2 in
      let f := emitFace v f a cIdx d OUT_TOP n2 in
      vis <- set2 false (visited st) i j true ;;
      Normal (mkTopState vis f m)
    else
      iW <- growW (visited st) j (seq (i + 1) (slices - 1 - (i + 1))) i ;;
      jH <- growH (visited st) i iW (seq (j + 1) (bins - 1 - (j + 1))) j ;;
      a <- get2 O indexTop i j ;;
      bIdx <- get2 O indexTop (iW + 1) j ;;
      cIdx <- get2 O indexTop (iW + 1) (jH + 1) ;;
      d <- get2 O indexTop i (jH + 1) ;;
      let f := emitFace v (topFaces st) a bIdx cIdx OUT_TOP baseMat in
      let f := emitFace v f a cIdx d OUT_TOP baseMat in
      vis <- markVisited (visited st) i iW j jH ;;
      Normal (mkTopState vis f (topMaterials st)).

(** The top surface, with the merge of flat rectangles *)
Definition topSurface (st : TopState) : Completion TopState :=
  foldM (fun st j =>
           foldM (fun st i => topCellFaces st i j) (seq 0 (slices - 1)) st)
        (seq 0 (bins - 1)) st.

(** The front seam *)
Definition jBoundary : nat := Nat.max 0 (Nat.min (bins - 2) (activeRowsCount - 1)).

Definition frontSeam (f : list Face) : Completion (list Face) :=
  foldM (fun f i =>
           a0 <- get2 O indexTop i jBoundary ;;
           a1 <- get2 O indexTop (i + 1) jBoundary ;;
           b0 <- get2 O indexTop i (jBoundary + 1) ;;
           b1 <- get2 O indexTop (i + 1) (jBoundary + 1) ;;
           let f := emitFace v f a0 a1 b1 OUT_FRONT baseMat in
           Normal (emitFace v f a0 b1 b0 OUT_FRONT baseMat))
        (seq 0 (slices - 1)) f.

(** The bottom surface, cell by cell *)
Definition bottomSurface (f : list Face) : Completion (list Face) :=
  foldM (fun f i =>
           foldM (fun f j =>
                    a <- get2 O indexBottom i j ;;
                    b <- get2 O indexBottom (i + 1) j ;;
                    c <- get2 O indexBottom (i + 1) (j + 1) ;;
                    d <- get2 O indexBottom i (j + 1) ;;
                    let f := emitFace v f a b c OUT_BOTTOM baseMat in
                    Normal (emitFace v f a c d OUT_BOTTOM baseMat))
                 (seq 0 (bins - 1)) f)
        (seq 0 (slices - 1)) f.

(** A wall along the time axis at grid row [j] *)
Definition wallAlongX (j : nat) (desired : Vec3) (f : list Face)
  : Completion (list Face) :=
  foldM (fun f i =>
           aTop <- get2 O indexTop i j ;;
           bTop <- get2 O indexTop (i + 1) j ;;
           aBot <- get2 O indexBottom i j ;;
           bBot <- get2 O indexBottom (i + 1) j ;;
           let f := emitFace v f aTop aBot bBot desired baseMat in
           Normal (emitFace v f aTop bBot bTop desired baseMat))
        (seq 0 (slices - 1)) f.

Definition backWall : list Face -> Completion (list Face) := wallAlongX 0 OUT_BACK.
Definition frontWall : list Face -> Completion (list Face) :=
  wallAlongX (bins - 1) OUT_FRONT.

(** [sideBottomLeft] and [sideBottomRight]; the [z] the loop also
    computes is not used. *)
Definition sideBottoms : Completion (list nat * list nat) :=
  lr <- mapM (fun j =>
                l <- get2 O indexBottom 0 j ;;
                r <- get2 O indexBottom (slices - 1) j ;;
                Normal (l, r))
             (seq 0 bins) ;;
  Normal (map fst lr, map snd lr).

(** The loop of a side wall at slice [i] over the rows *)
Definition wallAlongZ (i : nat) (sideBottom : list nat) (desired : Vec3)
  (f : list Face) : Completion (list Face) :=
  foldM (fun f j =>
           aTop <- get2 O indexTop i j ;;
           bTop <- get2 O indexTop i (j + 1) ;;
           let aBot := nth j sideBottom O in
           let bBot := nth (j + 1) sideBottom O in
           let f := emitFace v f aTop aBot bBot desired baseMat in
           Normal (emitFace v f aTop bBot bTop desired baseMat))
        (seq 0 (bins - 1)) f.

Definition leftWall (sideBottomLeft : list nat) (f : list Face)
  : Completion (list Face) :=
  f <- wallAlongZ 0 sideBottomLeft OUT_LEFT f ;;
  t2 <- get2 O indexTop 0 (bins - 2) ;;
  t1 <- get2 O indexTop 0 (bins - 1) ;;
  let f := emitFace v f t2 t1 (nth (bins - 1) sideBottomLeft O) OUT_LEFT baseMat in
  t2' <- get2 O indexTop 0 (bins - 2) ;;
  Normal (emitFace v f t2' (nth (bins - 1) sideBottomLeft O)
                   (nth (bins - 2) sideBottomLeft O) OUT_LEFT baseMat).

Definition rightWall (sideBottomRight : list nat) (f : list Face)
  : Completion (list Face) :=
  f <- wallAlongZ (slices - 1) sideBottomRight OUT_RIGHT f ;;
  t2 <- get2 O indexTop (slices - 1) (bins - 2) ;;
  t1 <- get2 O indexTop (slices - 1) (bins - 1) ;;
  let f := emitFace v f t2 (nth (bins - 2) sideBottomRight O) t1 OUT_RIGHT baseMat in
  t1' <- get2 O indexTop (slices - 1) (bins - 1) ;;
  Normal (emitFace v f t1' (nth (bins - 2) sideBottomRight O)
                   (nth (bins - 1) sideBottomRight O) OUT_RIGHT baseMat).

End Faces.

(** The faces and the materials of the mesh: what [buildOBJFromCaptured]
    does once the vertices are pushed. *)
Definition triangulate (v : list Vec3) (indexTop : Table nat) (yTop : Table R)
  (indexBottom : Table nat) (materials : Materials) (baseMat : MatName)
  : Completion Mesh :=
  flatCell <- flatCells yTop ;;
  let visited0 := repeat (repeat false (bins - 1)) (slices - 1) in
  st <- topSurface v indexTop yTop baseMat flatCell
                   (mkTopState visited0 [] materials) ;;
  let materials := topMaterials st in
  f <- frontSeam v indexTop baseMat (topFaces st) ;;
  f <- bottomSurface v indexBottom baseMat f ;;
  f <- backWall v indexTop indexBottom baseMat f ;;
  f <- frontWall v indexTop indexBottom baseMat f ;;
  sides <- sideBottoms indexBottom ;;
  f <- leftWall v indexTop baseMat (fst sides) f ;;
  f <- rightWall v indexTop baseMat (snd sides) f ;;
  let baseKey := (Math_round (cr baseColor * 255), Math_round (cg baseColor * 255),
                  Math_round (cb baseColor * 255)) in
  let materials :=
    if negb (materialsHas materials baseKey) then
      materials ++ [(baseKey, mkMaterial baseMat (cr baseColor) (cg baseColor)
                                         (cb baseColor))]
    else materials in
  Normal (mkMesh v f materials).

Definition buildOBJFromCaptured : Completion Mesh :=
  let '(materials, baseMat) := materialNameForColor [] baseColor in
  let '(v, top) := topGrid in
  let indexTop := map (map fst) top in
  let yTop := map (map snd) top in
  let '(v, indexBottom) := bottomGrid v in
  triangulate v indexTop yTop indexBottom materials baseMat.

End Builder.

(** The export button's click handler; the two downloads it starts are
    outside the model. *)
Definition exportClick (st : State) : State * Completion Mesh :=
  let st :=
    if (length (capturedSlices st) <? 2)%nat then synthesizeCapturedFromSurface st
    else st in
  (st, buildOBJFromCaptured (capturedSlices st)).

(* ------------------------------------------------------------------ *)
(** ** Observations on the live buffer *)

(** The buffer is the pair of the position array and the colour array. *)
Definition Buffer : Type := (list R * list R)%type.

(** Height and colour of vertex [v]. *)
Definition vertexOf (pc : Buffer) (v : nat) : R * Color :=
  (getCh 1 (fst pc) v,
   mkColor (getCh 0 (snd pc) v) (getCh 1 (snd pc) v) (getCh 2 (snd pc) v)).

(** Height and colour at column [x] of row [z], rows being [rowSize] long. *)
Definition cellOf (rowSize : nat) (pc : Buffer) (z x : nat) : R * Color :=
  vertexOf pc (z * rowSize + x).

(** What a slice puts at row [z] of the column it fills. *)
Definition cellFrom (sl : Slice) (z : nat) : R * Color :=
  (sliceAt sl z * depth * heightScale, referenceColorRamp (sliceAt sl z)).

(** Both arrays hold three numbers for each of the [rows * rowSize]
    vertices. *)
Definition sized (rows rowSize : nat) (pc : Buffer) : Prop :=
  length (fst pc) = (rows * rowSize * 3)%nat /\
  length (snd pc) = (rows * rowSize * 3)%nat.

(** The buffer after the ticks that feed it the slices [ss] in order. *)
Definition ticks (rows rowSize : nat) (ss : list Slice) (pc : Buffer) : Buffer :=
  fold_left (fun pc sl => shiftAndAppend rows rowSize sl pc) ss pc.

Definition bufferOf (st : State) : Buffer := (positionAttr st, colors st).

(* ------------------------------------------------------------------ *)
(** ** Notions used to state the properties of the mesh *)

(** [indexed h s l]: the array a loop fills from [l], the entry for the
    [k]-th element [a] being [h (s + k) a]. *)
Definition indexed {A B : Type} (h : nat -> A -> B) (s : nat) (l : list A) : list B :=
  map (fun ka => h (fst ka) (snd ka)) (combine (seq s (length l)) l).

(** The position [pushV] receives for top vertex [j] of slice number
    [fst isl], the slice being [snd isl]. *)
Definition topVertex (captured : list Slice) (isl : nat * Slice) (j : nat) : Vec3 :=
  fst (topVertexArgs (x0 captured + dx * INR (fst isl)) (snd isl) j).

(** The position [pushV] receives for bottom vertex [(i, j)]. *)
Definition bottomVertex (captured : list Slice) (i j : nat) : Vec3 :=
  mkVec3 (x0 captured + dx * INR i) (- baseThickness) (bottomRowZ j).

(** The slices with their numbers, as the top-vertex loop walks them. *)
Definition numbered (captured : list Slice) : list (nat * Slice) :=
  combine (seq 0 (slices captured)) captured.

(** [indexTop], [yTop], [indexBottom] and the vertex array, as
    [buildOBJFromCaptured] has them after its two vertex loops. *)
Definition indexTopOf (captured : list Slice) : Table nat :=
  map (map fst) (snd (topGrid captured)).
Definition yTopOf (captured : list Slice) : Table R :=
  map (map snd) (snd (topGrid captured)).
Definition indexBottomOf (captured : list Slice) : Table nat :=
  snd (bottomGrid captured (fst (topGrid captured))).
Definition verticesOf (captured : list Slice) : list Vec3 :=
  fst (bottomGrid captured (fst (topGrid captured))).

(** An undirected edge: a pair of vertex indices, smaller first. *)
Definition Edge : Type := (nat * nat)%type.

Definition edgeOf (a b : nat) : Edge := (Nat.min a b, Nat.max a b).

Definition edgeEqb (e1 e2 : Edge) : bool :=
  (fst e1 =? fst e2)%nat && (snd e1 =? snd e2)%nat.

Definition faceEdges (fc : Face) : list Edge :=
  [edgeOf (f1 fc) (f2 fc); edgeOf (f2 fc) (f3 fc); edgeOf (f3 fc) (f1 fc)].

Definition faceHasEdge (e : Edge) (fc : Face) : bool :=
  existsb (edgeEqb e) (faceEdges fc).

(** The number of triangles an edge belongs to. *)
Definition incidence (e : Edge) (fs : list Face) : nat :=
  length (filter (faceHasEdge e) fs).

(** Every edge of some triangle belongs to exactly two triangles. *)
Definition watertight (fs : list Face) : Prop :=
  forall e, In e (flat_map faceEdges fs) -> incidence e fs = 2%nat.

(** [f'] is [f] with faces appended. *)
Definition extends (f f' : list Face) : Prop := exists extra, f' = f ++ extra.

(** What the loop over the top cells keeps: [visited] has its rows, and
    the faces are the faces [f0] it started from with faces appended. *)
Definition topInv (captured : list Slice) (f0 : list Face) (st : TopState) : Prop :=
  length (visited st) = (slices captured - 1)%nat /\ extends f0 (topFaces st).

(** A vertex index that names a vertex among [n], and a face on three
    such indices. *)
Definition validIdx (n k : nat) : Prop := (1 <= k <= n)%nat.

Definition validFace (n : nat) (fc : Face) : Prop :=
  validIdx n (f1 fc) /\ validIdx n (f2 fc) /\ validIdx n (f3 fc).

(* ------------------------------------------------------------------ *)
(** ** Notions used to state further properties *)

(** A colour with its three channels between 0 and 1. *)
Definition unitColor (col : Color) : Prop :=
  0 <= cr col <= 1 /\ 0 <= cg col <= 1 /\ 0 <= cb col <= 1.

(** [freqData] as the analyser fills it: a [Uint8Array(freqBinCount)],
    every entry a byte. *)
Definition byteData (freqData : FreqData) : Prop :=
  length freqData = freqBinCount /\
  Forall (fun b => (0 <= b <= 255)%Z) freqData.

(** A slice as the script makes them: [pointsPerSlice] amplitudes, each
    between 0 and 1. *)
Definition unitSlice (sl : Slice) : Prop :=
  length sl = pointsPerSlice /\ Forall (fun a => 0 <= a <= 1) sl.

(** A face on three different vertex indices. *)
Definition distinctFace (fc : Face) : Prop :=
  f1 fc <> f2 fc /\ f2 fc <> f3 fc /\ f1 fc <> f3 fc.

(** The key [materialNameForColor] computes for a colour. *)
Definition colorKey (color : Color) : MatName :=
  (Math_round (Math_max 0 (Math_min 1 (cr color)) * 255),
   Math_round (Math_max 0 (Math_min 1 (cg color)) * 255),
   Math_round (Math_max 0 (Math_min 1 (cb color)) * 255)).

(** An entry of the materials Map as [materialNameForColor] stores it:
    named after its key, three bytes, with the bytes over 255 as colour. *)
Definition keyedEntry (kx : MatName * Material) : Prop :=
  let '(ir, ig, ib) := fst kx in
  name (snd kx) = fst kx /\
  (0 <= ir <= 255)%Z /\ (0 <= ig <= 255)%Z /\ (0 <= ib <= 255)%Z /\
  mr (snd kx) = IZR ir / 255 /\ mg (snd kx) = IZR ig / 255 /\
  mb (snd kx) = IZR ib / 255.

(** The list stands for a Map: no key twice, every entry keyed. *)
Definition wellKeyed (m : Materials) : Prop :=
  NoDup (map fst m) /\ Forall keyedEntry m.

(** The Map has a material under [n], and that material is named [n]. *)
Definition definedIn (m : Materials) (n : MatName) : Prop :=
  exists x, materialsGet m n = Some x /\ name x = n.

(** What the loop over the top cells keeps of the Map: a well-keyed
    extension of the Map [m0] it started with, in which the material of
    every face is defined. *)
Definition materialsInv (m0 : Materials) (st : TopState) : Prop :=
  wellKeyed (topMaterials st) /\
  (exists extra, topMaterials st = m0 ++ extra) /\
  Forall (fun fc => definedIn (topMaterials st) (fmat fc)) (topFaces st).

(* ------------------------------------------------------------------ *)
(** ** The end of the playback *)

(** [finalizeModelGeometry].  [plane] stands for the position array of the
    [THREE.PlaneGeometry] of [slices] by [pointsPerSlice] vertices the
    function creates and rotates; the loops then set the heights.  The
    colour array of the new geometry is written and never read by the
    script, and is left out. *)
Definition finalizeModelGeometry (plane : list R) (st : State) : State :=
  let slices := length (capturedSlices st) in
  if (slices <? 2)%nat then st
  else
    let pos :=
      fold_left (fun pos z =>
                   fold_left (fun pos x =>
                                let idx := (z * slices + x)%nat in
                                let amp := sliceAt (nth x (capturedSlices st) []) z in
                                let y := amp * depth * heightScale in
                                setCh 1 pos idx y)
                             (seq 0 slices) pos)
                (seq 0 pointsPerSlice) plane in
    mkState (positionAttr st) (colors st) (FinalGeometry pos) (capturedSlices st)
            (isCapturing st) (hasEnded st).

(** The handler of the audio element's [ended] event. *)
Definition endedHandler (plane : list R) (st : State) : State :=
  let st := mkState (positionAttr st) (colors st) (geometry st) (capturedSlices st)
                    false true in
  finalizeModelGeometry plane st.

(** One frame of [animate], as far as the globals go: [paused] is
    [audioEl.paused], [freqData] what the analyser would deliver.
    [isRendering] holds until the page is unloaded. *)
Definition animate (paused : bool) (freqData : FreqData) (st : State) : State :=
  if negb paused && negb (hasEnded st) then updateSurfaceFromFrequencies st freqData
  else st.

(** A slice whose heights all fall under the flat threshold of the
    builder. *)
Definition quietSlice (sl : Slice) : Prop :=
  forall j, (j < activeRowsCount)%nat -> sliceAt sl j * depth * heightScale < flatEps.

(** [f'] is [f] with faces of the material [mat] appended. *)
Definition extendsIn (mat : MatName) (f f' : list Face) : Prop :=
  exists extra, f' = f ++ extra /\ Forall (fun fc => fmat fc = mat) extra.

(* ------------------------------------------------------------------ *)
(** ** The frequency ticks of [buildAxesAndTicks] *)

(** The row the loop over [desiredFreqHz] finds for the frequency [hz],
    [None] when it skips the frequency; [nyquistHz] is
    [audioContext.sampleRate / 2]. *)
Definition freqTickRow (nyquistHz hz : R) : option Z :=
  if leb hz 0 || ltb nyquistHz hz then None
  else
    let binIndex := hz / nyquistHz * INR freqBinCount in
    let rowIndex := Math_round (binIndex / INR sliceStride) in
    if (rowIndex <? 0)%Z || (Z.of_nat activeRows <=? rowIndex)%Z then None
    else Some rowIndex.

(** [zAtRow], the z of the tick and of its label. *)
Definition freqTickZ (nyquistHz hz : R) : option R :=
  match freqTickRow nyquistHz hz with
  | Some rowIndex => Some (rd zRowPositions (Z.to_nat rowIndex))
  | None => None
  end.

(* ------------------------------------------------------------------ *)
(** ** The script as a whole *)

(** The loop that applies [zRowPositions] to the z of the initial plane. *)
Definition applyRowPositions (posArrayInit : list R) : list R :=
  fold_left (fun pos z =>
               let rowStart := (z * numSlices)%nat in
               let zVal := rd zRowPositions z in
               fold_left (fun pos x => setCh 2 pos (rowStart + x) zVal)
                         (seq 0 numSlices) pos)
            (seq 0 pointsPerSlice) posArrayInit.

(** The globals once the script has run to its first frame: [plane] is the
    position array of the initial [THREE.PlaneGeometry], [colors] a fresh
    [Float32Array(positionAttr.count * 3)], and [resetVisualization] has
    been called once. *)
Definition initialState (plane : list R) : State :=
  resetVisualization
    (mkState (applyRowPositions plane) (repeat 0 (length plane / 3 * 3))
             InitialGeometry [] false false).

(** What can happen next, as far as the globals go. *)
Inductive Event : Type :=
| Frame (paused : bool) (freqData : FreqData)
    (** a turn of [animate] *)
| SetCapturing (b : bool)
    (** the play button ([true] when the audio was paused, [false] when it
        was playing), a file chosen or dropped ([true]) *)
| ResetClick
| Ended (plane : list R)
| ExportClick.

Definition handle (st : State) (e : Event) : State :=
  match e with
  | Frame paused freqData => animate paused freqData st
  | SetCapturing b =>
      mkState (positionAttr st) (colors st) (geometry st) (capturedSlices st)
              b (hasEnded st)
  | ResetClick => resetClick st
  | Ended plane => endedHandler plane st
  | ExportClick => fst (exportClick st)
  end.

(** What the environment delivers: bytes from the analyser, and from
    [THREE.PlaneGeometry] a plane of the size asked for. *)
Definition admissible (st : State) (e : Event) : Prop :=
  match e with
  | Frame _ freqData => byteData freqData
  | Ended plane =>
      length plane = (pointsPerSlice * length (capturedSlices st) * 3)%nat
  | _ => True
  end.

(** The states the script can be in, started on the plane [plane0]. *)
Inductive reachable (plane0 : list R) : State -> Prop :=
| reach_init : reachable plane0 (initialState plane0)
| reach_step st e :
    reachable plane0 st -> admissible st e -> reachable plane0 (handle st e).

(** What every state of the script has: a live buffer of the size of
    the initial plane, with the x of [plane0] and the rows on their
    [zRowPositions]; unit slices in the history; and a displayed geometry
    of two slices or more. *)
Definition scriptInv (plane0 : list R) (st : State) : Prop :=
  sized pointsPerSlice numSlices (bufferOf st) /\
  (forall v, getCh 0 (positionAttr st) v = getCh 0 plane0 v) /\
  (forall z x, (z < pointsPerSlice)%nat -> (x < numSlices)%nat ->
     getCh 2 (positionAttr st) (z * numSlices + x) = rd zRowPositions z) /\
  Forall unitSlice (capturedSlices st) /\
  match geometry st with
  | InitialGeometry => True
  | FinalGeometry p => (2 * pointsPerSlice <= length p / 3)%nat
  end.

(* ------------------------------------------------------------------ *)
(** ** Notions for the cells of the top surface *)

(** The face list has a triangle of material [mat] on [a], [b], [c], in
    the order given or with the last two swapped, as [emitFace] may
    write it. *)
Definition hasTriangle (mat : MatName) (a b c : nat) (f : list Face) : Prop :=
  In (mkFace mat a b c) f \/ In (mkFace mat a c b) f.

(** The two triangles of cell [(i, j)] of the top grid, on the cell's four
    corners, each of the material of the colour of the mean height of its
    three corners. *)
Definition cellTriangles (indexTop : Table nat) (yTop : Table R) (i j : nat)
  (f : list Face) : Prop :=
  exists a b c d y00 y10 y11 y01,
    get2 O indexTop i j = Normal a /\
    get2 O indexTop (i + 1) j = Normal b /\
    get2 O indexTop (i + 1) (j + 1) = Normal c /\
    get2 O indexTop i (j + 1) = Normal d /\
    get2 0 yTop i j = Normal y00 /\
    get2 0 yTop (i + 1) j = Normal y10 /\
    get2 0 yTop (i + 1) (j + 1) = Normal y11 /\
    get2 0 yTop i (j + 1) = Normal y01 /\
    hasTriangle
      (colorKey (referenceColorRamp
                   (Math_max 0 (Math_min 1 ((y00 + y10 + y11)
                                            / (3 * (depth * heightScale)))))))
      a b c f /\
    hasTriangle
      (colorKey (referenceColorRamp
                   (Math_max 0 (Math_min 1 ((y00 + y11 + y01)
                                            / (3 * (depth * heightScale)))))))
      a c d f.

(** What the loop over the top cells keeps, besides [topInv]: the Map is
    well keyed, a visited cell is flat or has its two triangles, and the
    cells of [P] are visited. *)
Definition detailInv (captured : list Slice) (indexTop : Table nat) (yTop : Table R)
  (flatCell : Table bool) (P : nat -> nat -> Prop) (st : TopState) : Prop :=
  topInv captured [] st /\
  wellKeyed (topMaterials st) /\
  (forall a b, get2 false (visited st) a b = Normal true ->
     get2 false flatCell a b = Normal true \/
     cellTriangles indexTop yTop a b (topFaces st)) /\
  (forall a b, P a b -> get2 false (visited st) a b = Normal true).

(* ================================================================== *)
(** * Properties *)

(** ** Arithmetic of the constants *)

Lemma INR_pointsPerSlice : INR pointsPerSlice = 128.
Proof. unfold pointsPerSlice. rewrite INR_IZR_INZ. reflexivity. Qed.

Lemma floor_active : Math_floor (INR pointsPerSlice * activeFrequencyFraction) = 96%Z.
Proof.
  unfold Math_floor. symmetry. apply Int_part_spec.
  rewrite INR_pointsPerSlice. unfold activeFrequencyFraction. lra.
Qed.

Lemma activeRows_val : activeRows = 96%nat.
Proof. unfold activeRows. rewrite floor_active. reflexivity. Qed.

Lemma activeRowsCount_val : activeRowsCount = 96%nat.
Proof. unfold activeRowsCount. rewrite floor_active. reflexivity. Qed.

Lemma bins_val : bins = 97%nat.
Proof. unfold bins. rewrite activeRowsCount_val. reflexivity. Qed.

Lemma INR_activeRows : INR activeRows = 96.
Proof. rewrite activeRows_val, INR_IZR_INZ. reflexivity. Qed.

Lemma ltb_true x y : x < y -> ltb x y = true.
Proof. intros H. unfold ltb. destruct (Rlt_dec x y); [reflexivity | contradiction]. Qed.

Lemma ltb_false x y : ~ x < y -> ltb x y = false.
Proof. intros H. unfold ltb. destruct (Rlt_dec x y); [contradiction | reflexivity]. Qed.

Lemma leb_true x y : x <= y -> leb x y = true.
Proof. intros H. unfold leb. destruct (Rle_dec x y); [reflexivity | contradiction]. Qed.

Lemma leb_false x y : ~ x <= y -> leb x y = false.
Proof. intros H. unfold leb. destruct (Rle_dec x y); [contradiction | reflexivity]. Qed.

(** ** [Math.pow] *)

Lemma Math_pow_0 y : y <> 0 -> Math_pow 0 y = 0.
Proof.
  intros Hy. unfold Math_pow.
  destruct (Req_dec_T 0 0) as [_ | H]; [| contradiction].
  destruct (Req_dec_T y 0); [contradiction | reflexivity].
Qed.

Lemma Math_pow_pos x y : 0 < x -> Math_pow x y = Rpower x y.
Proof.
  intros Hx. unfold Math_pow. destruct (Req_dec_T x 0); [lra | reflexivity].
Qed.

Lemma Math_pow_1 e : Math_pow 1 e = 1.
Proof.
  rewrite Math_pow_pos by lra. unfold Rpower. rewrite ln_1, Rmult_0_r. apply exp_0.
Qed.

Lemma Rpower_1_l e : Rpower 1 e = 1.
Proof. unfold Rpower. rewrite ln_1, Rmult_0_r. apply exp_0. Qed.

Lemma Rpower_le_1 x e : 0 <= e -> 0 < x <= 1 -> Rpower x e <= 1.
Proof.
  intros He Hx. apply Rle_trans with (Rpower 1 e).
  - apply Rle_Rpower_l; lra.
  - rewrite Rpower_1_l. lra.
Qed.

Lemma Math_pow_range x e : 0 < e -> 0 <= x <= 1 -> 0 <= Math_pow x e <= 1.
Proof.
  intros He [H0 H1].
  destruct (Req_dec_T x 0) as [-> | Hne].
  - rewrite Math_pow_0 by lra. lra.
  - rewrite Math_pow_pos by lra. split.
    + unfold Rpower. left. apply exp_pos.
    + apply Rpower_le_1; lra.
Qed.

(** Between two bases the power grows at least by this much. *)
Lemma Rpower_gap a b e :
  0 < a < b -> 0 < e ->
  Rpower a e * (e * ((b - a) / b)) <= Rpower b e - Rpower a e.
Proof.
  intros [Ha Hab] He.
  assert (Hb : 0 < b) by lra.
  assert (Hr : 0 < a / b) by (apply Rdiv_lt_0_compat; lra).
  assert (Hln : (b - a) / b <= ln b - ln a).
  { pose proof (exp_ineq1_le (ln (a / b))) as H.
    rewrite exp_ln in H by exact Hr.
    unfold Rdiv in H at 1. rewrite ln_mult, ln_Rinv in H
      by (try apply Rinv_0_lt_compat; lra).
    replace ((b - a) / b) with (1 - a / b) by (field; lra). lra. }
  assert (Hexp : Rpower b e = Rpower a e * exp (e * (ln b - ln a))).
  { unfold Rpower. rewrite <- exp_plus. f_equal. ring. }
  pose proof (exp_ineq1_le (e * (ln b - ln a))) as H1.
  assert (Hpa : 0 < Rpower a e) by (unfold Rpower; apply exp_pos).
  rewrite Hexp.
  assert (e * ((b - a) / b) <= e * (ln b - ln a))
    by (apply Rmult_le_compat_l; lra).
  nra.
Qed.

(** On the unit interval an exponent below 1 raises the value. *)
Lemma Rpower_ge_base x e : 0 < e <= 1 -> 0 < x <= 1 -> x <= Rpower x e.
Proof.
  intros He Hx. unfold Rpower.
  rewrite <- (exp_ln x) at 1 by lra.
  assert (Hl : ln x <= 0).
  { rewrite <- ln_1. destruct (Req_dec x 1) as [-> | Hne]; [lra |].
    left. apply ln_increasing; lra. }
  destruct (Req_dec (ln x) (e * ln x)) as [<- | Hne]; [lra |].
  left. apply exp_increasing. nra.
Qed.

Lemma coprime_19_pow2 k : Z.gcd 19 (2 ^ Z.of_nat k) = 1%Z.
Proof. apply Z.coprime_pow_r; [lia | reflexivity]. Qed.

(** [(1/19)^0.65] is not [a / (80 * 2^k)] for integers [a], [k]: its 20th
    power is [1 / 19^13], and 19 does not divide a power of [80 * 2^k]. *)
Lemma power_not_binary (a : Z) (k : nat) :
  Rpower (/ 19) 0.65 * (80 * 2 ^ k) <> IZR a.
Proof.
  intros H.
  assert (Hp : Rpower (/ 19) 0.65 ^ 20 = (/ 19) ^ 13).
  { rewrite <- (Rpower_pow 20) by (unfold Rpower; apply exp_pos).
    rewrite Rpower_mult.
    replace (0.65 * INR 20) with (INR 13)
      by (rewrite !INR_IZR_INZ; simpl; lra).
    apply Rpower_pow. lra. }
  assert (H20 : (Rpower (/ 19) 0.65 * (80 * 2 ^ k)) ^ 20 = IZR a ^ 20)
    by (rewrite H; reflexivity).
  rewrite Rpow_mult_distr, Hp in H20.
  assert (HZ : ((80 * 2 ^ Z.of_nat k) ^ 20 = a ^ 20 * 19 ^ 13)%Z).
  { apply eq_IZR. rewrite mult_IZR.
    change 20%Z with (Z.of_nat 20). change 13%Z with (Z.of_nat 13).
    rewrite <- !pow_IZR, mult_IZR, <- pow_IZR.
    rewrite <- H20, pow_inv. field. }
  assert (Hdiv : Z.divide 19 ((80 * 2 ^ Z.of_nat k) ^ 20 * 1)).
  { rewrite Z.mul_1_r, HZ. exists (a ^ 20 * 19 ^ 12)%Z.
    change (19 ^ 13)%Z with (19 ^ 12 * 19)%Z. ring. }
  apply Z.gauss in Hdiv.
  - apply Z.divide_1_r in Hdiv. lia.
  - apply Z.coprime_pow_r; [lia |].
    apply Z.coprime_mul_r; [reflexivity | apply coprime_19_pow2].
Qed.

(** ** [Float32Array] stores *)

Lemma roundHalfEven_cases y :
  roundHalfEven y = Int_part y \/ roundHalfEven y = (Int_part y + 1)%Z.
Proof.
  unfold roundHalfEven. cbv zeta.
  destruct (ltb _ _); [left; reflexivity |].
  destruct (ltb _ _); [right; reflexivity |].
  destruct (Z.even _); [left | right]; reflexivity.
Qed.

Lemma roundHalfEven_near y : Rabs (IZR (roundHalfEven y) - y) <= / 2.
Proof.
  unfold roundHalfEven. cbv zeta.
  destruct (base_Int_part y) as [Hlo Hhi].
  unfold ltb.
  destruct (Rlt_dec (y - IZR (Int_part y)) (/ 2)) as [H1 | H1].
  - apply Rabs_le. lra.
  - destruct (Rlt_dec (/ 2) (y - IZR (Int_part y))) as [H2 | H2].
    + rewrite plus_IZR. apply Rabs_le. lra.
    + destruct (Z.even _); [| rewrite plus_IZR]; apply Rabs_le; lra.
Qed.

Lemma roundHalfEven_le y n : y <= IZR n -> (roundHalfEven y <= n)%Z.
Proof.
  intros H. destruct (base_Int_part y) as [Hlo Hhi].
  destruct (Z.eq_dec (Int_part y) n) as [E | E].
  - assert (Hy : y = IZR n) by (rewrite <- E in *; lra).
    unfold roundHalfEven. cbv zeta. rewrite E, Hy.
    replace (IZR n - IZR n) with 0 by ring.
    unfold ltb. destruct (Rlt_dec 0 (/ 2)); [lia | lra].
  - assert (Int_part y < n)%Z.
    { assert (Int_part y <= n)%Z by (apply le_IZR; lra). lia. }
    destruct (roundHalfEven_cases y) as [-> | ->]; lia.
Qed.

Lemma roundHalfEven_ge y n : IZR n <= y -> (n <= roundHalfEven y)%Z.
Proof.
  intros H. destruct (base_Int_part y) as [Hlo Hhi].
  assert (n <= Int_part y)%Z.
  { assert (n < Int_part y + 1)%Z by (apply lt_IZR; rewrite plus_IZR; lra). lia. }
  destruct (roundHalfEven_cases y) as [-> | ->]; lia.
Qed.

Lemma ln_2_pos : 0 < ln 2.
Proof. rewrite <- ln_1. apply ln_increasing; lra. Qed.

Lemma ln_powerRZ_2 e : ln (powerRZ 2 e) = IZR e * ln 2.
Proof.
  rewrite powerRZ_Rpower by lra. unfold Rpower. apply ln_exp.
Qed.

(** A number below [2^(e+1)] lies in binade [e] or a lower one. *)
Lemma binade_le x e : (0 <= e)%Z -> Rabs x < powerRZ 2 (e + 1) -> (binade x <= e)%Z.
Proof.
  intros He Hx. unfold binade. apply Z.max_lub; [lia |].
  pose proof ln_2_pos as L2.
  destruct (Req_dec x 0) as [-> | Hne].
  - rewrite Rabs_R0.
    assert (L0 : ln 0 = 0).
    { unfold ln. destruct (Rlt_dec 0 0) as [H | _]; [destruct (Rlt_irrefl 0 H) | reflexivity]. }
    rewrite L0. unfold Rdiv. rewrite Rmult_0_l.
    rewrite <- (Int_part_spec 0 0); [exact He | lra].
  - assert (Hpos : 0 < Rabs x) by (apply Rabs_pos_lt; exact Hne).
    assert (Hln : ln (Rabs x) < IZR (e + 1) * ln 2).
    { rewrite <- ln_powerRZ_2. apply ln_increasing; assumption. }
    destruct (base_Int_part (ln (Rabs x) / ln 2)) as [Hlo _].
    assert (Hq : ln (Rabs x) / ln 2 < IZR (e + 1)).
    { apply Rmult_lt_reg_r with (ln 2); [exact L2 |].
      unfold Rdiv. rewrite Rmult_assoc, Rinv_l by lra. lra. }
    assert (Int_part (ln (Rabs x) / ln 2) < e + 1)%Z by (apply lt_IZR; lra).
    lia.
Qed.

Lemma powerRZ_2_pos e : 0 < powerRZ 2 e.
Proof. apply powerRZ_lt. lra. Qed.

Lemma powerRZ_2_le a b : (a <= b)%Z -> powerRZ 2 a <= powerRZ 2 b.
Proof.
  intros H. replace b with (a + (b - a))%Z by lia.
  rewrite powerRZ_add by lra.
  assert (1 <= powerRZ 2 (b - a)).
  { destruct (b - a)%Z eqn:E; try lia.
    - simpl. lra.
    - simpl. apply pow_R1_Rle. lra. }
  pose proof (powerRZ_2_pos a). nra.
Qed.

(** The store is off by at most half of the spacing of its binade. *)
Lemma Math_fround_near x :
  Rabs (Math_fround x - x) <= powerRZ 2 (binade x - 23) / 2.
Proof.
  unfold Math_fround. cbv zeta.
  set (q := powerRZ 2 (binade x - 23)).
  assert (Hq : 0 < q) by apply powerRZ_2_pos.
  pose proof (roundHalfEven_near (x / q)) as H.
  replace (IZR (roundHalfEven (x / q)) * q - x)
    with ((IZR (roundHalfEven (x / q)) - x / q) * q) by (field; lra).
  rewrite Rabs_mult, (Rabs_right q) by lra.
  nra.
Qed.

(** A multiple [m * 2^c] of the spacing of the binade of [x]. *)
Lemma multiple_of_spacing x m c :
  (binade x - 23 <= c)%Z ->
  IZR m * powerRZ 2 c / powerRZ 2 (binade x - 23)
  = IZR (m * 2 ^ (c - (binade x - 23))).
Proof.
  intros Hc. set (b := (binade x - 23)%Z) in *.
  replace c with (b + (c - b))%Z at 1 by lia.
  rewrite powerRZ_add by lra.
  rewrite mult_IZR.
  assert (E : powerRZ 2 (c - b) = IZR (2 ^ (c - b))).
  { destruct (c - b)%Z eqn:E; try lia.
    - reflexivity.
    - simpl powerRZ. rewrite pow_IZR, positive_nat_Z. reflexivity. }
  rewrite E. pose proof (powerRZ_2_pos b). field. lra.
Qed.

Lemma Math_fround_le x m c :
  (binade x - 23 <= c)%Z -> x <= IZR m * powerRZ 2 c ->
  Math_fround x <= IZR m * powerRZ 2 c.
Proof.
  intros Hc Hx. unfold Math_fround. cbv zeta.
  set (q := powerRZ 2 (binade x - 23)).
  assert (Hq : 0 < q) by apply powerRZ_2_pos.
  pose proof (multiple_of_spacing x m c Hc) as E. fold q in E.
  assert (Hle : x / q <= IZR (m * 2 ^ (c - (binade x - 23)))).
  { rewrite <- E. unfold Rdiv. apply Rmult_le_compat_r; [| exact Hx].
    left. apply Rinv_0_lt_compat. exact Hq. }
  apply roundHalfEven_le, IZR_le in Hle.
  rewrite <- E in Hle.
  apply Rmult_le_compat_r with (r := q) in Hle; [| lra].
  replace (IZR m * powerRZ 2 c / q * q) with (IZR m * powerRZ 2 c) in Hle
    by (field; lra).
  exact Hle.
Qed.

Lemma Math_fround_ge x m c :
  (binade x - 23 <= c)%Z -> IZR m * powerRZ 2 c <= x ->
  IZR m * powerRZ 2 c <= Math_fround x.
Proof.
  intros Hc Hx. unfold Math_fround. cbv zeta.
  set (q := powerRZ 2 (binade x - 23)).
  assert (Hq : 0 < q) by apply powerRZ_2_pos.
  pose proof (multiple_of_spacing x m c Hc) as E. fold q in E.
  assert (Hle : IZR (m * 2 ^ (c - (binade x - 23))) <= x / q).
  { rewrite <- E. unfold Rdiv. apply Rmult_le_compat_r; [| exact Hx].
    left. apply Rinv_0_lt_compat. exact Hq. }
  apply roundHalfEven_ge, IZR_le in Hle.
  rewrite <- E in Hle.
  apply Rmult_le_compat_r with (r := q) in Hle; [| lra].
  replace (IZR m * powerRZ 2 c / q * q) with (IZR m * powerRZ 2 c) in Hle
    by (field; lra).
  exact Hle.
Qed.

(** A binary32 number is stored as it is. *)
Lemma Math_fround_exact x m c :
  (binade x - 23 <= c)%Z -> x = IZR m * powerRZ 2 c -> Math_fround x = x.
Proof.
  intros Hc Hx. apply Rle_antisym.
  - rewrite Hx at 2. apply Math_fround_le; [exact Hc | lra].
  - rewrite Hx at 1. apply Math_fround_ge; [exact Hc | lra].
Qed.

(** ** The frequency axis *)

Lemma zRowPositions_nth z :
  (z < pointsPerSlice)%nat -> nth z zRowPositions 0 = Math_fround (zRowPosition z).
Proof.
  intros Hz. unfold zRowPositions.
  rewrite (nth_indep _ 0 (Math_fround (zRowPosition 0)))
    by (rewrite length_map, length_seq; exact Hz).
  rewrite (map_nth (fun z => Math_fround (zRowPosition z)) (seq 0 pointsPerSlice) 0%nat z).
  rewrite seq_nth by exact Hz. reflexivity.
Qed.

Lemma activeRows_lt_pointsPerSlice : (activeRows < pointsPerSlice)%nat.
Proof. rewrite activeRows_val. unfold pointsPerSlice. lia. Qed.

Lemma zRowPosition_active z :
  (z < activeRows)%nat ->
  zRowPosition z =
  zMin + Math_pow (INR z / (INR activeRows - 1)) frequencyExponent * (zMax - zMin).
Proof.
  intros Hz. unfold zRowPosition.
  apply Nat.ltb_lt in Hz. rewrite Hz. reflexivity.
Qed.

Lemma zRowPosition_collapsed z : (activeRows <= z)%nat -> zRowPosition z = zMax.
Proof.
  intros Hz. unfold zRowPosition.
  apply Nat.ltb_ge in Hz. rewrite Hz. reflexivity.
Qed.

Lemma topRowZ_zRowPosition j : topRowZ j = zRowPosition j.
Proof.
  unfold topRowZ, zRowPosition, activeRowsCount, activeRows, z0, zMin, zMax, depth.
  destruct (j <? _)%nat; cbv zeta; lra.
Qed.

Lemma bottomRowZ_zRowPosition j : bottomRowZ j = zRowPosition j.
Proof.
  unfold bottomRowZ, zRowPosition, activeRowsCount, activeRows, z0, zMin, zMax, depth.
  destruct (j <? _)%nat; cbv zeta; lra.
Qed.

Lemma zRowPosition_range z : zMin <= zRowPosition z <= zMax.
Proof.
  unfold zRowPosition.
  destruct (Nat.ltb_spec z activeRows) as [Hz | Hz]; cbv zeta.
  - assert (Ht : 0 <= INR z / (INR activeRows - 1) <= 1).
    { rewrite INR_activeRows.
      assert (Hz' : INR z <= 95).
      { replace 95 with (INR 95) by (rewrite INR_IZR_INZ; reflexivity).
        apply le_INR. rewrite activeRows_val in Hz. lia. }
      pose proof (pos_INR z). lra. }
    pose proof (Math_pow_range _ frequencyExponent
                  ltac:(unfold frequencyExponent; lra) Ht) as Hp.
    unfold zMin, zMax, depth in *. nra.
  - unfold zMin, zMax, depth. lra.
Qed.

Lemma zRowPosition_first : zRowPosition 0 = zMin.
Proof.
  rewrite zRowPosition_active by (rewrite activeRows_val; lia).
  cbn [INR]. unfold Rdiv. rewrite Rmult_0_l.
  rewrite Math_pow_0 by (unfold frequencyExponent; lra). ring.
Qed.

Lemma zRowPosition_last_active : zRowPosition (activeRows - 1) = zMax.
Proof.
  rewrite zRowPosition_active by (rewrite activeRows_val; lia).
  replace (INR (activeRows - 1) / (INR activeRows - 1)) with 1.
  - rewrite Math_pow_1. unfold zMin, zMax. lra.
  - rewrite INR_activeRows, activeRows_val.
    replace (INR (96 - 1)) with 95 by (rewrite INR_IZR_INZ; reflexivity). lra.
Qed.


Lemma Rabs_bound x a : Rabs x <= a -> - a <= x <= a.
Proof. unfold Rabs. destruct (Rcase_abs x); lra. Qed.

(** The fraction [z / (activeRows - 1)] of an active row. *)
Lemma row_fraction z :
  (z < activeRows)%nat -> 0 <= INR z / (INR activeRows - 1) <= 1.
Proof.
  intros Hz. rewrite INR_activeRows.
  assert (Hz' : INR z <= 95).
  { replace 95 with (INR 95) by (rewrite INR_IZR_INZ; reflexivity).
    apply le_INR. rewrite activeRows_val in Hz. lia. }
  pose proof (pos_INR z). lra.
Qed.

(** Two active rows are at least 0.005 apart before they are stored. *)
Lemma zRowPosition_gap z1 z2 :
  (z1 < z2)%nat -> (z2 < activeRows)%nat ->
  zRowPosition z1 + / 200 <= zRowPosition z2.
Proof.
  intros H12 H2.
  rewrite !zRowPosition_active by lia.
  pose proof (row_fraction z1 ltac:(lia)) as [Ha0 Ha1].
  pose proof (row_fraction z2 H2) as [Hb0 Hb1].
  rewrite INR_activeRows in *.
  set (a := INR z1 / (96 - 1)) in *. set (b := INR z2 / (96 - 1)) in *.
  assert (Hab : a + / 95 <= b).
  { assert (HS : INR z1 + 1 <= INR z2).
    { rewrite <- S_INR. apply le_INR. lia. }
    unfold a, b. lra. }
  assert (Hpb : b <= Math_pow b frequencyExponent).
  { rewrite Math_pow_pos by lra.
    apply Rpower_ge_base; [unfold frequencyExponent |]; lra. }
  assert (Hgap : Math_pow a frequencyExponent + / 16000
                 <= Math_pow b frequencyExponent).
  { destruct (Req_dec_T a 0) as [Ea | Ea].
    - rewrite Ea, Math_pow_0 by (unfold frequencyExponent; lra). lra.
    - rewrite !Math_pow_pos by lra.
      pose proof (Rpower_gap a b frequencyExponent ltac:(lra)
                    ltac:(unfold frequencyExponent; lra)) as Hg.
      assert (Hz1 : 1 <= INR z1).
      { destruct z1 as [| n].
        - exfalso. apply Ea. unfold a. cbn [INR]. lra.
        - rewrite S_INR. pose proof (pos_INR n). lra. }
      assert (Ha : / 95 <= a) by (unfold a; lra).
      assert (Hpa : / 95 <= Rpower a frequencyExponent).
      { apply Rle_trans with a; [exact Ha |].
        apply Rpower_ge_base; [unfold frequencyExponent |]; lra. }
      assert (Hq : / 95 <= (b - a) / b).
      { apply Rle_trans with (b - a); [lra |].
        apply Rmult_le_reg_r with b; [lra |].
        unfold Rdiv. rewrite Rmult_assoc, Rinv_l by lra. nra. }
      assert (He : / 95 * (0.65 * / 95)
                   <= Rpower a frequencyExponent * (frequencyExponent * ((b - a) / b))).
      { apply Rmult_le_compat; [lra | lra | exact Hpa |].
        unfold frequencyExponent. apply Rmult_le_compat_l; lra. }
      lra. }
  unfold zMin, zMax, depth. lra.
Qed.

(** A row position lies in binade 5 or below: it is under 64. *)
Lemma binade_zRowPosition z : (binade (zRowPosition z) <= 5)%Z.
Proof.
  apply binade_le; [lia |].
  pose proof (zRowPosition_range z) as [Hlo Hhi].
  unfold zMin, zMax, depth in *.
  apply Rabs_def1; simpl; lra.
Qed.

(** What the table holds is within [2^-19] of the number stored. *)
Lemma zRowPositions_near z :
  (z < pointsPerSlice)%nat ->
  Rabs (nth z zRowPositions 0 - zRowPosition z) <= / 2 ^ 19.
Proof.
  intros Hz. rewrite zRowPositions_nth by exact Hz.
  apply Rle_trans with (powerRZ 2 (binade (zRowPosition z) - 23) / 2).
  - apply Math_fround_near.
  - pose proof (powerRZ_2_le (binade (zRowPosition z) - 23) (-18)
                  ltac:(pose proof (binade_zRowPosition z); lia)) as H.
    simpl in H. simpl. lra.
Qed.

(** [zMin] and [zMax], -40 and 40, are binary32 numbers; a row position,
    which lies between them, is stored between them. *)
Lemma zRowPositions_range z :
  (z < pointsPerSlice)%nat -> zMin <= nth z zRowPositions 0 <= zMax.
Proof.
  intros Hz. rewrite zRowPositions_nth by exact Hz.
  pose proof (zRowPosition_range z) as [Hlo Hhi].
  pose proof (binade_zRowPosition z) as Hb.
  assert (Emin : zMin = IZR (-5) * powerRZ 2 3)
    by (unfold zMin, depth; simpl; lra).
  assert (Emax : zMax = IZR 5 * powerRZ 2 3)
    by (unfold zMax, depth; simpl; lra).
  split.
  - rewrite Emin. apply Math_fround_ge; [lia | rewrite <- Emin; exact Hlo].
  - rewrite Emax. apply Math_fround_le; [lia | rewrite <- Emax; exact Hhi].
Qed.

Lemma zRowPositions_exact z :
  (z < pointsPerSlice)%nat ->
  zRowPosition z = zMin \/ zRowPosition z = zMax ->
  nth z zRowPositions 0 = zRowPosition z.
Proof.
  intros Hz H. rewrite zRowPositions_nth by exact Hz.
  pose proof (binade_zRowPosition z) as Hb.
  destruct H as [E | E].
  - apply (Math_fround_exact _ (-5) 3); [lia |].
    rewrite E. unfold zMin, depth. simpl. lra.
  - apply (Math_fround_exact _ 5 3); [lia |].
    rewrite E. unfold zMax, depth. simpl. lra.
Qed.

(** Stored, the active rows are still in increasing order. *)
Lemma zRowPositions_increasing z1 z2 :
  (z1 < z2)%nat -> (z2 < activeRows)%nat ->
  nth z1 zRowPositions 0 < nth z2 zRowPositions 0.
Proof.
  intros H12 H2.
  pose proof activeRows_lt_pointsPerSlice as Hp.
  pose proof (zRowPositions_near z1 ltac:(lia)) as N1.
  pose proof (zRowPositions_near z2 ltac:(lia)) as N2.
  pose proof (zRowPosition_gap z1 z2 H12 H2) as G.
  apply Rabs_bound in N1, N2.
  assert (/ 2 ^ 19 < / 400).
  { apply Rinv_lt_contravar; simpl; lra. }
  lra.
Qed.

(** The number of row 5: [5 / 95] is [1 / 19]. *)
Lemma zRowPosition_5 : zRowPosition 5 = Rpower (/ 19) 0.65 * 80 - 40.
Proof.
  rewrite zRowPosition_active by (rewrite activeRows_val; lia).
  rewrite INR_activeRows.
  replace (INR 5 / (96 - 1)) with (/ 19) by (simpl; field).
  rewrite Math_pow_pos by lra.
  unfold frequencyExponent, zMin, zMax, depth. lra.
Qed.

(** That number is no binary32 number, nor any [m * 2^c]. *)
Lemma zRowPosition_5_not_binary (m c : Z) :
  IZR m * powerRZ 2 c <> zRowPosition 5.
Proof.
  rewrite zRowPosition_5. intros H.
  destruct c as [| p | p].
  - apply (power_not_binary (m + 40) 0).
    rewrite plus_IZR. simpl in *. lra.
  - apply (power_not_binary (m * 2 ^ Z.pos p + 40) 0).
    rewrite plus_IZR, mult_IZR.
    replace (IZR (2 ^ Z.pos p)) with (powerRZ 2 (Z.pos p)).
    + simpl pow. lra.
    + simpl powerRZ. rewrite pow_IZR, positive_nat_Z. reflexivity.
  - apply (power_not_binary (m + 40 * 2 ^ Z.pos p) (Pos.to_nat p)).
    rewrite plus_IZR, mult_IZR.
    replace (IZR (2 ^ Z.pos p)) with (2 ^ Pos.to_nat p)
      by (rewrite pow_IZR, positive_nat_Z; reflexivity).
    simpl powerRZ in H.
    assert (Hp : 0 < 2 ^ Pos.to_nat p) by (apply pow_lt; lra).
    assert (E : IZR m = (Rpower (/ 19) 0.65 * 80 - 40) * 2 ^ Pos.to_nat p).
    { rewrite <- H. field. lra. }
    rewrite E. ring.
Qed.

(** C5, as the specification states it, fails at row 5: the exporter's z
    for that row and the entry of [zRowPositions] are different numbers,
    since the entry is a binary32 number and the exporter's z is not. *)
Lemma export_row_differs_from_live_row :
  (5 < activeRows)%nat /\
  (nth 5 zRowPositions 0 < topRowZ 5 \/ topRowZ 5 < nth 5 zRowPositions 0).
Proof.
  split; [rewrite activeRows_val; lia |].
  rewrite topRowZ_zRowPosition.
  rewrite zRowPositions_nth by (unfold pointsPerSlice; lia).
  destruct (Rtotal_order (Math_fround (zRowPosition 5)) (zRowPosition 5))
    as [Hlt | [Heq | Hgt]].
  - left. exact Hlt.
  - exfalso. revert Heq. unfold Math_fround. cbv zeta.
    apply zRowPosition_5_not_binary.
  - right. exact Hgt.
Qed.

(** C5, amended.  For every grid row [j] of the exporter
    ([j <= activeRows]) the top-vertex loop and the bottom-grid loop
    compute the same z, by the formula of the live view:
    [zMin + (j / (activeRows - 1))^frequencyExponent * (zMax - zMin)] for
    [j < activeRows], and [zMax] for the boundary row.  The live view's
    [zRowPositions[j]] is that number stored as binary32: it is within
    [2^-19] of the exporter's z, and equal to it at row 0, at row
    [activeRows - 1] and at the boundary row. *)
Theorem live_rows_round_export_rows (j : nat) (Hj : (j <= activeRows)%nat) :
  topRowZ j = bottomRowZ j /\
  nth j zRowPositions 0 = Math_fround (topRowZ j) /\
  Rabs (nth j zRowPositions 0 - topRowZ j) <= / 2 ^ 19 /\
  ((j < activeRows)%nat ->
   topRowZ j =
   zMin + Math_pow (INR j / (INR activeRows - 1)) frequencyExponent * (zMax - zMin)) /\
  (j = 0%nat \/ j = (activeRows - 1)%nat \/ j = activeRows ->
   nth j zRowPositions 0 = topRowZ j) /\
  (j = activeRows -> topRowZ j = zMax).
Proof.
  assert (Hp : (j < pointsPerSlice)%nat)
    by (pose proof activeRows_lt_pointsPerSlice; lia).
  rewrite bottomRowZ_zRowPosition, !topRowZ_zRowPosition.
  split; [reflexivity |].
  split; [apply zRowPositions_nth; exact Hp |].
  split; [apply zRowPositions_near; exact Hp |].
  split; [apply zRowPosition_active |].
  split.
  - intros H. apply zRowPositions_exact; [exact Hp |].
    destruct H as [-> | [-> | ->]].
    + left. apply zRowPosition_first.
    + right. apply zRowPosition_last_active.
    + right. apply zRowPosition_collapsed. lia.
  - intros ->. apply zRowPosition_collapsed. lia.
Qed.

Lemma live_rows_round_export_rows_witness :
  topRowZ 5 = bottomRowZ 5 /\
  nth 5 zRowPositions 0 = Math_fround (topRowZ 5) /\
  Rabs (nth 5 zRowPositions 0 - topRowZ 5) <= / 2 ^ 19.
Proof.
  destruct (live_rows_round_export_rows 5) as (H1 & H2 & H3 & _).
  - rewrite activeRows_val. lia.
  - split; [exact H1 |]. split; [exact H2 | exact H3].
Defined.

(** C8.  Over the active rows the row coordinate is strictly increasing, and
    every row from [activeRows] on has the coordinate [depth / 2]. *)
Theorem row_mapping_monotone (z1 z2 : nat) :
  ((z1 < z2)%nat -> (z2 < activeRows)%nat ->
   nth z1 zRowPositions 0 < nth z2 zRowPositions 0) /\
  ((activeRows <= z1)%nat -> (z1 < pointsPerSlice)%nat ->
   nth z1 zRowPositions 0 = depth / 2).
Proof.
  split.
  - intros H12 H2.
    pose proof activeRows_lt_pointsPerSlice as Hp.
    pose proof (zRowPositions_near z1 ltac:(lia)) as N1.
    pose proof (zRowPositions_near z2 ltac:(lia)) as N2.
    pose proof (zRowPosition_gap z1 z2 H12 H2) as G.
    apply Rabs_bound in N1, N2.
    assert (/ 2 ^ 19 < / 400) by (apply Rinv_lt_contravar; simpl; lra).
    lra.
  - intros Ha Hp.
    rewrite zRowPositions_exact by
      (try exact Hp; right; apply zRowPosition_collapsed; exact Ha).
    rewrite zRowPosition_collapsed by exact Ha.
    reflexivity.
Qed.

Lemma row_mapping_monotone_witness :
  nth 3 zRowPositions 0 < nth 4 zRowPositions 0 /\
  nth 100 zRowPositions 0 = depth / 2.
Proof.
  split.
  - apply (proj1 (row_mapping_monotone 3 4)); rewrite ?activeRows_val; lia.
  - apply (proj2 (row_mapping_monotone 100 0)); rewrite ?activeRows_val;
      unfold pointsPerSlice; lia.
Defined.

(** ** The colour ramp *)

Ltac decide_leb :=
  repeat match goal with
    | |- context [leb ?a ?b] =>
        first [ rewrite (leb_true a b) by lra | rewrite (leb_false a b) by lra ]
    end.

Lemma clamp_below t : t <= 0 -> Math_min 1 (Math_max 0 t) = 0.
Proof.
  intros Ht. unfold Math_min, Math_max.
  rewrite Rmax_left by exact Ht. rewrite Rmin_right by lra. reflexivity.
Qed.

Lemma clamp_above t : 1 <= t -> Math_min 1 (Math_max 0 t) = 1.
Proof.
  intros Ht. unfold Math_min, Math_max.
  rewrite Rmax_right by lra. rewrite Rmin_left by lra. reflexivity.
Qed.

Lemma referenceColorRamp_clamped t :
  referenceColorRamp t = referenceColorRamp (Math_min 1 (Math_max 0 t)).
Proof.
  unfold referenceColorRamp. f_equal. f_equal.
  unfold Math_min, Math_max.
  destruct (Rle_dec t 0) as [H0 | H0].
  - rewrite (Rmax_left 0 t) by exact H0. rewrite (Rmin_right 1 0) by lra.
    rewrite (Rmax_left 0 0) by lra. rewrite (Rmin_right 1 0) by lra. reflexivity.
  - rewrite (Rmax_right 0 t) by lra.
    destruct (Rle_dec t 1) as [H1 | H1].
    + rewrite (Rmin_right 1 t) by exact H1.
      rewrite (Rmax_right 0 t) by lra. rewrite (Rmin_right 1 t) by exact H1. reflexivity.
    + rewrite (Rmin_left 1 t) by lra.
      rewrite (Rmax_right 0 1) by lra. rewrite (Rmin_left 1 1) by lra. reflexivity.
Qed.

Lemma referenceColorRamp_0 : referenceColorRamp 0 = mkColor 0.55 0.00 0.00.
Proof.
  unfold referenceColorRamp. rewrite clamp_below by lra.
  unfold ramp, findSegment, c0, c1, c2. cbn [s c fst snd].
  decide_leb. cbn [andb]. f_equal; lra.
Qed.

Lemma referenceColorRamp_1 : referenceColorRamp 1 = mkColor 0.00 0.12 0.70.
Proof.
  unfold referenceColorRamp. rewrite clamp_above by lra.
  unfold ramp, findSegment, c0, c1, c2. cbn [s c fst snd].
  decide_leb. cbn [andb]. f_equal; lra.
Qed.

(** C7.  The ramp at 0 is the first stop's colour, at 1 the last stop's
    colour, and an input outside [0, 1] is clamped first: below 0 the ramp
    gives what it gives at 0, above 1 what it gives at 1. *)
Theorem color_ramp_boundaries :
  referenceColorRamp 0 = mkColor 0.55 0.00 0.00 /\
  referenceColorRamp 1 = mkColor 0.00 0.12 0.70 /\
  (forall v, v < 0 -> referenceColorRamp v = referenceColorRamp 0) /\
  (forall v, 1 < v -> referenceColorRamp v = referenceColorRamp 1) /\
  (forall v, referenceColorRamp v = referenceColorRamp (Math_min 1 (Math_max 0 v))).
Proof.
  split; [exact referenceColorRamp_0 |].
  split; [exact referenceColorRamp_1 |].
  split; [| split].
  - intros v Hv. rewrite (referenceColorRamp_clamped v).
    rewrite clamp_below by lra. reflexivity.
  - intros v Hv. rewrite (referenceColorRamp_clamped v).
    rewrite clamp_above by lra. reflexivity.
  - exact referenceColorRamp_clamped.
Qed.

Lemma color_ramp_boundaries_witness :
  referenceColorRamp (-1) = referenceColorRamp 0 /\
  referenceColorRamp 2 = referenceColorRamp 1.
Proof.
  destruct color_ramp_boundaries as (_ & _ & Hlo & Hhi & _).
  split; [apply Hlo | apply Hhi]; lra.
Defined.

(** ** The noise gate *)

Lemma normalizeSlice_at freqData i :
  (i < pointsPerSlice)%nat ->
  sliceAt (normalizeSlice freqData) i = emphasizedBin freqData i.
Proof.
  intros Hi. unfold sliceAt, normalizeSlice.
  rewrite (nth_indep _ 0 (emphasizedBin freqData 0))
    by (rewrite length_map, length_seq; exact Hi).
  rewrite (map_nth (emphasizedBin freqData) (seq 0 pointsPerSlice) 0%nat i).
  rewrite seq_nth by exact Hi. reflexivity.
Qed.

Lemma normalizeSlice_length freqData : length (normalizeSlice freqData) = pointsPerSlice.
Proof. unfold normalizeSlice. rewrite length_map, length_seq. reflexivity. Qed.

(** C6.  In the normalised slice, a row [i >= activeRows] whose sampled
    magnitude over 255 is below [noiseFloor] is exactly 0, and a row
    [i < activeRows] is [(raw / 255)^1.2] whatever the magnitude. *)
Theorem noise_gate (freqData : FreqData) (i : nat) (Hi : (i < pointsPerSlice)%nat) :
  ((activeRows <= i)%nat -> IZR (rawAt freqData i) / 255 < noiseFloor ->
   sliceAt (normalizeSlice freqData) i = 0) /\
  ((i < activeRows)%nat ->
   sliceAt (normalizeSlice freqData) i = Math_pow (IZR (rawAt freqData i) / 255) 1.2).
Proof.
  rewrite (normalizeSlice_at freqData i Hi). unfold emphasizedBin. split.
  - intros Ha Hlow.
    rewrite (ltb_true _ _ Hlow).
    apply Nat.leb_le in Ha. rewrite Ha. cbn [andb].
    apply Math_pow_0. lra.
  - intros Ha.
    apply Nat.leb_gt in Ha. rewrite Ha. rewrite andb_false_r. reflexivity.
Qed.

Lemma noise_gate_witness :
  sliceAt (normalizeSlice (repeat 7%Z 512)) 100 = 0 /\
  sliceAt (normalizeSlice (repeat 7%Z 512)) 10
  = Math_pow (IZR (rawAt (repeat 7%Z 512) 10) / 255) 1.2.
Proof.
  assert (Hraw : forall i, rawAt (repeat 7%Z 512) i = 7%Z).
  { intros i. unfold rawAt.
    destruct (nth_in_or_default (srcIndex i) (repeat 7%Z 512) 0%Z) as [Hin | Hd].
    - apply repeat_spec in Hin. exact Hin.
    - exfalso. revert Hd. unfold srcIndex, freqBinCount.
      rewrite nth_repeat_lt; [discriminate | lia]. }
  split.
  - apply (proj1 (noise_gate (repeat 7%Z 512) 100 ltac:(unfold pointsPerSlice; lia))).
    + rewrite activeRows_val. lia.
    + rewrite Hraw. unfold noiseFloor. lra.
  - apply (proj2 (noise_gate (repeat 7%Z 512) 10 ltac:(unfold pointsPerSlice; lia))).
    rewrite activeRows_val. lia.
Defined.

(** ** The live surface buffer *)

Lemma upd_length {A} (l : list A) i v : length (upd l i v) = length l.
Proof.
  revert i. induction l as [| h t IH]; intros [| i]; simpl; try reflexivity.
  rewrite IH. reflexivity.
Qed.

Lemma nth_upd_same {A} (l : list A) i v d :
  (i < length l)%nat -> nth i (upd l i v) d = v.
Proof.
  revert i. induction l as [| h t IH]; intros [| i] H; simpl in *; try lia.
  - reflexivity.
  - apply IH. lia.
Qed.

Lemma nth_upd_other {A} (l : list A) i j v d :
  i <> j -> nth j (upd l i v) d = nth j l d.
Proof.
  revert i j. induction l as [| h t IH]; intros [| i] [| j] H; simpl; try reflexivity.
  - contradiction.
  - apply IH. lia.
Qed.

Lemma setCh_length o a v x : length (setCh o a v x) = length a.
Proof. apply upd_length. Qed.

Lemma getCh_setCh_same o a v x :
  (v * 3 + o < length a)%nat -> getCh o (setCh o a v x) v = x.
Proof. intros H. unfold getCh, setCh, rd. apply nth_upd_same. exact H. Qed.

Lemma getCh_setCh_other o o' a u v x :
  (o < 3)%nat -> (o' < 3)%nat -> (u <> v \/ o <> o') ->
  getCh o' (setCh o a u x) v = getCh o' a v.
Proof.
  intros Ho Ho' H. unfold getCh, setCh, rd. apply nth_upd_other. lia.
Qed.

Section LiveSurfaceProps.

Variables rows rowSize : nat.
Hypothesis rowSize_pos : (0 < rowSize)%nat.

Lemma shiftStep_spec rs x pc n :
  length (fst pc) = n -> length (snd pc) = n ->
  ((rs + x) * 3 + 3 <= n)%nat ->
  let pc' := shiftStep rs pc x in
  length (fst pc') = n /\ length (snd pc') = n /\
  forall v, vertexOf pc' v =
            if (v =? rs + x)%nat then vertexOf pc (rs + x + 1) else vertexOf pc v.
Proof.
  destruct pc as [pos col]. cbn [fst snd]. intros Hp Hc Hin.
  unfold shiftStep. cbv zeta. cbn [fst snd].
  rewrite !setCh_length. repeat split; try assumption.
  intros v. unfold vertexOf. cbn [fst snd].
  destruct (Nat.eqb_spec v (rs + x)) as [-> | Hne].
  - rewrite getCh_setCh_same by lia.
    rewrite (getCh_setCh_other 2 0), (getCh_setCh_other 1 0) by lia.
    rewrite getCh_setCh_same by lia.
    rewrite (getCh_setCh_other 2 1) by lia.
    rewrite getCh_setCh_same by (rewrite setCh_length; lia).
    rewrite getCh_setCh_same by (rewrite !setCh_length; lia).
    rewrite (getCh_setCh_other 0 1) by lia.
    rewrite (getCh_setCh_other 1 2), (getCh_setCh_other 0 2) by lia.
    reflexivity.
  - rewrite !getCh_setCh_other by lia. reflexivity.
Qed.

Lemma shiftLoop_spec rs pc n k :
  length (fst pc) = n -> length (snd pc) = n ->
  ((rs + k) * 3 <= n)%nat ->
  let pc' := fold_left (shiftStep rs) (seq 0 k) pc in
  length (fst pc') = n /\ length (snd pc') = n /\
  forall v, vertexOf pc' v =
            if (rs <=? v)%nat && (v <? rs + k)%nat then vertexOf pc (v + 1)
            else vertexOf pc v.
Proof.
  intros Hp Hc. induction k as [| k IH]; intros Hin.
  - cbn [seq fold_left]. repeat split; try assumption.
    intros v.
    destruct (Nat.leb_spec rs v), (Nat.ltb_spec v (rs + 0)); cbn [andb];
      try reflexivity; lia.
  - rewrite seq_S, fold_left_app. cbn [fold_left Nat.add].
    specialize (IH ltac:(lia)). destruct IH as (Hp' & Hc' & Hv').
    set (pc1 := fold_left (shiftStep rs) (seq 0 k) pc) in *.
    destruct (shiftStep_spec rs k pc1 n Hp' Hc' ltac:(lia)) as (Hp2 & Hc2 & Hv2).
    repeat split; try assumption.
    intros v. rewrite Hv2.
    destruct (Nat.eqb_spec v (rs + k)) as [-> | Hne].
    + rewrite Hv'.
      replace (rs <=? rs + k + 1)%nat with true by (symmetry; apply Nat.leb_le; lia).
      replace (rs + k + 1 <? rs + k)%nat with false by (symmetry; apply Nat.ltb_ge; lia).
      replace (rs <=? rs + k)%nat with true by (symmetry; apply Nat.leb_le; lia).
      replace (rs + k <? rs + S k)%nat with true by (symmetry; apply Nat.ltb_lt; lia).
      reflexivity.
    + rewrite Hv'.
      destruct (Nat.leb_spec rs v); cbn [andb]; [| reflexivity].
      destruct (Nat.ltb_spec v (rs + k)), (Nat.ltb_spec v (rs + S k));
        try reflexivity; lia.
Qed.


Lemma rowStep_spec sl z pc n :
  length (fst pc) = n -> length (snd pc) = n ->
  ((z * rowSize + rowSize) * 3 <= n)%nat ->
  let pc' := rowStep rowSize sl pc z in
  length (fst pc') = n /\ length (snd pc') = n /\
  forall v, vertexOf pc' v =
            if (z * rowSize <=? v)%nat && (v <? z * rowSize + (rowSize - 1))%nat
            then vertexOf pc (v + 1)
            else if (v =? z * rowSize + rowSize - 1)%nat then cellFrom sl z
                 else vertexOf pc v.
Proof.
  intros Hp Hc Hin. unfold rowStep. cbv zeta.
  destruct (shiftLoop_spec (z * rowSize) pc n (rowSize - 1) Hp Hc ltac:(lia))
    as (Hp1 & Hc1 & Hv1).
  destruct (fold_left (shiftStep (z * rowSize)) (seq 0 (rowSize - 1)) pc)
    as [p1 c1] eqn:E.
  cbn [fst snd] in *.
  rewrite !setCh_length. repeat split; try assumption.
  intros v. specialize (Hv1 v).
  set (lastV := (z * rowSize + rowSize - 1)%nat) in *.
  assert (Hlast : (lastV * 3 + 3 <= n)%nat) by (unfold lastV; lia).
  destruct (Nat.eqb_spec v lastV) as [-> | Hne].
  - replace (lastV <? z * rowSize + (rowSize - 1))%nat with false
      by (symmetry; apply Nat.ltb_ge; unfold lastV; lia).
    rewrite andb_false_r.
    unfold vertexOf, cellFrom. cbn [fst snd].
    rewrite getCh_setCh_same by lia.
    rewrite (getCh_setCh_other 2 0), (getCh_setCh_other 1 0) by lia.
    rewrite getCh_setCh_same by lia.
    rewrite (getCh_setCh_other 2 1) by lia.
    rewrite getCh_setCh_same by (rewrite setCh_length; lia).
    rewrite getCh_setCh_same by (rewrite !setCh_length; lia).
    destruct (referenceColorRamp (sliceAt sl z)). reflexivity.
  - rewrite <- Hv1. unfold vertexOf. cbn [fst snd].
    rewrite !getCh_setCh_other by lia.
    destruct ((z * rowSize <=? v)%nat && (v <? z * rowSize + (rowSize - 1))%nat);
      reflexivity.
Qed.

Lemma rowLoop_spec sl pc k :
  sized rows rowSize pc -> (k <= rows)%nat ->
  let pc' := fold_left (rowStep rowSize sl) (seq 0 k) pc in
  sized rows rowSize pc' /\
  forall z x, (x < rowSize)%nat ->
    cellOf rowSize pc' z x =
    if (z <? k)%nat then
      if (x <? rowSize - 1)%nat then cellOf rowSize pc z (x + 1) else cellFrom sl z
    else cellOf rowSize pc z x.
Proof.
  intros [Hp Hc]. induction k as [| k IH]; intros Hk.
  - cbn [seq fold_left]. split; [split; assumption |]. intros z x _. reflexivity.
  - rewrite seq_S, fold_left_app. cbn [fold_left Nat.add].
    specialize (IH ltac:(lia)). destruct IH as ([Hp1 Hc1] & Hv1).
    set (pc1 := fold_left (rowStep rowSize sl) (seq 0 k) pc) in *.
    assert (Hin : ((k * rowSize + rowSize) * 3 <= rows * rowSize * 3)%nat).
    { assert ((k + 1) * rowSize <= rows * rowSize)%nat
        by (apply Nat.mul_le_mono_r; lia). lia. }
    destruct (rowStep_spec sl k pc1 _ Hp1 Hc1 Hin) as (Hp2 & Hc2 & Hv2).
    split; [split; assumption |].
    intros z x Hx. change (cellOf rowSize ?p z x) with (vertexOf p (z * rowSize + x)).
    rewrite Hv2.
    destruct (Nat.lt_trichotomy z k) as [Hlt | [-> | Hgt]].
    + assert ((z + 1) * rowSize <= k * rowSize)%nat
        by (apply Nat.mul_le_mono_r; lia).
      replace (k * rowSize <=? z * rowSize + x)%nat with false
        by (symmetry; apply Nat.leb_gt; lia).
      cbn [andb].
      replace (z * rowSize + x =? k * rowSize + rowSize - 1)%nat with false
        by (symmetry; apply Nat.eqb_neq; lia).
      change (vertexOf pc1 (z * rowSize + x)) with (cellOf rowSize pc1 z x).
      rewrite Hv1 by exact Hx.
      replace (z <? k)%nat with true by (symmetry; apply Nat.ltb_lt; lia).
      replace (z <? S k)%nat with true by (symmetry; apply Nat.ltb_lt; lia).
      reflexivity.
    + replace (k <? S k)%nat with true by (symmetry; apply Nat.ltb_lt; lia).
      replace (k * rowSize <=? k * rowSize + x)%nat with true
        by (symmetry; apply Nat.leb_le; lia).
      cbn [andb].
      destruct (Nat.ltb_spec x (rowSize - 1)) as [Hx1 | Hx1].
      * replace (k * rowSize + x <? k * rowSize + (rowSize - 1))%nat with true
          by (symmetry; apply Nat.ltb_lt; lia).
        replace (k * rowSize + x + 1)%nat with (k * rowSize + (x + 1))%nat by lia.
        change (vertexOf pc1 (k * rowSize + (x + 1))) with (cellOf rowSize pc1 k (x + 1)).
        rewrite Hv1 by lia.
        replace (k <? k)%nat with false by (symmetry; apply Nat.ltb_ge; lia).
        reflexivity.
      * replace (k * rowSize + x <? k * rowSize + (rowSize - 1))%nat with false
          by (symmetry; apply Nat.ltb_ge; lia).
        replace (k * rowSize + x =? k * rowSize + rowSize - 1)%nat with true
          by (symmetry; apply Nat.eqb_eq; lia).
        reflexivity.
    + assert ((k + 1) * rowSize <= z * rowSize)%nat
        by (apply Nat.mul_le_mono_r; lia).
      replace (z * rowSize + x <? k * rowSize + (rowSize - 1))%nat with false
        by (symmetry; apply Nat.ltb_ge; lia).
      rewrite andb_false_r.
      replace (z * rowSize + x =? k * rowSize + rowSize - 1)%nat with false
        by (symmetry; apply Nat.eqb_neq; lia).
      change (vertexOf pc1 (z * rowSize + x)) with (cellOf rowSize pc1 z x).
      rewrite Hv1 by exact Hx.
      replace (z <? k)%nat with false by (symmetry; apply Nat.ltb_ge; lia).
      replace (z <? S k)%nat with false by (symmetry; apply Nat.ltb_ge; lia).
      reflexivity.
Qed.

(** One tick: every column moves one place to the left, the leftmost
    one is dropped and the new slice becomes the rightmost one. *)
Lemma shiftAndAppend_spec sl pc :
  sized rows rowSize pc ->
  sized rows rowSize (shiftAndAppend rows rowSize sl pc) /\
  forall z x, (z < rows)%nat -> (x < rowSize)%nat ->
    cellOf rowSize (shiftAndAppend rows rowSize sl pc) z x =
    if (x <? rowSize - 1)%nat then cellOf rowSize pc z (x + 1) else cellFrom sl z.
Proof.
  intros Hs. destruct (rowLoop_spec sl pc rows Hs (le_n _)) as [Hs' Hv].
  split; [exact Hs' |].
  intros z x Hz Hx. unfold shiftAndAppend. rewrite Hv by exact Hx.
  apply Nat.ltb_lt in Hz. rewrite Hz. reflexivity.
Qed.

Lemma ticks_spec ss pc :
  sized rows rowSize pc ->
  sized rows rowSize (ticks rows rowSize ss pc) /\
  forall z x, (z < rows)%nat -> (x < rowSize)%nat ->
    (rowSize - 1 - x < length ss)%nat ->
    cellOf rowSize (ticks rows rowSize ss pc) z x
    = cellFrom (nth (length ss - 1 - (rowSize - 1 - x)) ss []) z.
Proof.
  intros Hs. induction ss as [| sl ss IH] using rev_ind.
  - split; [exact Hs |]. intros z x _ _ H. cbn in H. lia.
  - destruct IH as [Hs1 Hv1]. unfold ticks in *. rewrite fold_left_app.
    cbn [fold_left].
    fold (ticks rows rowSize ss pc) in *.
    set (pc1 := ticks rows rowSize ss pc) in *.
    destruct (shiftAndAppend_spec sl pc1 Hs1) as [Hs2 Hv2].
    split; [exact Hs2 |].
    intros z x Hz Hx Hlen. rewrite length_app in *. cbn [length] in *.
    rewrite Hv2 by assumption.
    destruct (Nat.ltb_spec x (rowSize - 1)) as [Hx1 | Hx1].
    + rewrite Hv1 by lia.
      rewrite app_nth1 by lia. f_equal. f_equal. lia.
    + replace (length ss + 1 - 1 - (rowSize - 1 - x))%nat with (length ss) by lia.
      rewrite nth_middle. reflexivity.
Qed.

End LiveSurfaceProps.

Lemma numSlices_pos : (0 < numSlices)%nat.
Proof. unfold numSlices. lia. Qed.

Lemma update_buffer st freqData :
  bufferOf (updateSurfaceFromFrequencies st freqData)
  = shiftAndAppend pointsPerSlice numSlices (normalizeSlice freqData) (bufferOf st).
Proof.
  unfold updateSurfaceFromFrequencies, bufferOf.
  destruct (shiftAndAppend pointsPerSlice numSlices (normalizeSlice freqData)
              (positionAttr st, colors st)) as [p cl].
  reflexivity.
Qed.

Lemma fold_left_cons {A B : Type} (f : A -> B -> A) (b : B) (l : list B) (a : A) :
  fold_left f (b :: l) a = fold_left f l (f a b).
Proof. reflexivity. Qed.

Lemma ticks_cons rows rowSize sl ss pc :
  ticks rows rowSize (sl :: ss) pc
  = ticks rows rowSize ss (shiftAndAppend rows rowSize sl pc).
Proof. reflexivity. Qed.

Lemma updates_buffer fds : forall st,
  bufferOf (fold_left updateSurfaceFromFrequencies fds st)
  = ticks pointsPerSlice numSlices (map normalizeSlice fds) (bufferOf st).
Proof.
  induction fds as [| fd fds IH]; intros st.
  - reflexivity.
  - rewrite fold_left_cons, IH, update_buffer, map_cons, ticks_cons. reflexivity.
Qed.

(** C9.  From any buffer of the right size, after [numSlices + 1] ticks
    with the slices [ss], column [k] holds the heights and colours of slice
    number [k + 2] (the first slice is gone, the leftmost column holds the
    second); one tick moves every column one place to the left and puts the
    new slice in the rightmost column; and [updateSurfaceFromFrequencies]
    is such a tick for the slice it normalises. *)
Theorem live_buffer_sliding_window (pc : Buffer) (ss : list Slice)
  (Hsized : sized pointsPerSlice numSlices pc)
  (Hlen : length ss = (numSlices + 1)%nat) :
  (forall z k, (z < pointsPerSlice)%nat -> (k < numSlices)%nat ->
     cellOf numSlices (ticks pointsPerSlice numSlices ss pc) z k
     = cellFrom (nth (k + 1) ss []) z) /\
  (forall sl pc0, sized pointsPerSlice numSlices pc0 ->
     sized pointsPerSlice numSlices (shiftAndAppend pointsPerSlice numSlices sl pc0) /\
     forall z x, (z < pointsPerSlice)%nat -> (x < numSlices)%nat ->
       cellOf numSlices (shiftAndAppend pointsPerSlice numSlices sl pc0) z x
       = if (x <? numSlices - 1)%nat then cellOf numSlices pc0 z (x + 1)
         else cellFrom sl z) /\
  (forall st fds,
     bufferOf (fold_left updateSurfaceFromFrequencies fds st)
     = ticks pointsPerSlice numSlices (map normalizeSlice fds) (bufferOf st)).
Proof.
  split; [| split].
  - intros z k Hz Hk.
    destruct (ticks_spec pointsPerSlice numSlices numSlices_pos ss pc Hsized) as [_ Hv].
    rewrite Hv by (try assumption; lia).
    f_equal. f_equal. lia.
  - intros sl pc0 Hs. apply (shiftAndAppend_spec _ _ numSlices_pos). exact Hs.
  - intros st fds. apply updates_buffer.
Qed.

Lemma live_buffer_sliding_window_witness :
  let pc := (repeat 0 (pointsPerSlice * numSlices * 3),
             repeat 0 (pointsPerSlice * numSlices * 3)) in
  let ss := repeat (repeat 1 pointsPerSlice) (numSlices + 1) in
  cellOf numSlices (ticks pointsPerSlice numSlices ss pc) 5 0
  = cellFrom (nth (0 + 1) ss []) 5.
Proof.
  intros pc ss.
  refine (proj1 (live_buffer_sliding_window pc ss _ _) 5%nat 0%nat _ _).
  - split; apply repeat_length.
  - apply repeat_length.
  - unfold pointsPerSlice. lia.
  - exact numSlices_pos.
Defined.

(** ** [emitFace] *)

Lemma faceNormal_swap pa pb pc desired :
  dot3 (faceNormal pa pc pb) desired = - dot3 (faceNormal pa pb pc) desired.
Proof. unfold dot3, faceNormal. cbn [vX vY vZ]. ring. Qed.

Lemma emitFace_cases v f i1 i2 i3 desired matName :
  emitFace v f i1 i2 i3 desired matName = f ++ [mkFace matName i1 i2 i3] \/
  emitFace v f i1 i2 i3 desired matName = f ++ [mkFace matName i1 i3 i2].
Proof.
  unfold emitFace. destruct (faceDot v i1 i2 i3 desired) as [d |].
  - destruct (leb 0 d); [left | right]; reflexivity.
  - right. reflexivity.
Qed.

(** C2.  When the three vertices exist, the face [emitFace] stores has the
    given material and the given order if the normal of that order has a
    non-negative dot product with [desired], the order with the last two
    indices swapped otherwise; in both cases the normal of the stored order
    has a non-negative dot product with [desired]. *)
Theorem emitFace_outward (v : list Vec3) (f : list Face) (i1 i2 i3 : nat)
  (desired : Vec3) (matName : MatName) (pa pb pc : Vec3)
  (Ha : vertexAt v i1 = Some pa) (Hb : vertexAt v i2 = Some pb)
  (Hc : vertexAt v i3 = Some pc) :
  exists fc d,
    emitFace v f i1 i2 i3 desired matName = f ++ [fc] /\
    fmat fc = matName /\
    faceDot v (f1 fc) (f2 fc) (f3 fc) desired = Some d /\
    0 <= d /\
    (0 <= dot3 (faceNormal pa pb pc) desired ->
     fc = mkFace matName i1 i2 i3 /\ d = dot3 (faceNormal pa pb pc) desired) /\
    (dot3 (faceNormal pa pb pc) desired < 0 ->
     fc = mkFace matName i1 i3 i2 /\ d = dot3 (faceNormal pa pc pb) desired).
Proof.
  unfold emitFace, faceDot. rewrite Ha, Hb, Hc.
  pose proof (faceNormal_swap pa pb pc desired) as Hswap.
  set (d0 := dot3 (faceNormal pa pb pc) desired) in *.
  destruct (Rle_dec 0 d0) as [Hd | Hd].
  - rewrite (leb_true _ _ Hd).
    exists (mkFace matName i1 i2 i3), d0. cbn [f1 f2 f3 fmat].
    rewrite Ha, Hb, Hc. fold d0.
    split; [reflexivity |]. split; [reflexivity |]. split; [reflexivity |].
    split; [exact Hd |]. split.
    + intros _. split; reflexivity.
    + intros Hneg. lra.
  - rewrite (leb_false _ _ Hd).
    exists (mkFace matName i1 i3 i2), (dot3 (faceNormal pa pc pb) desired).
    cbn [f1 f2 f3 fmat]. rewrite Ha, Hb, Hc.
    split; [reflexivity |]. split; [reflexivity |]. split; [reflexivity |].
    split; [lra |]. split.
    + intros Hpos. lra.
    + intros _. split; reflexivity.
Qed.

Lemma emitFace_outward_witness :
  let v := [mkVec3 0 0 0; mkVec3 0 0 1; mkVec3 1 0 0] in
  exists fc d,
    emitFace v [] 1 3 2 OUT_TOP (0, 0, 0)%Z = [] ++ [fc] /\
    fmat fc = (0, 0, 0)%Z /\
    faceDot v (f1 fc) (f2 fc) (f3 fc) OUT_TOP = Some d /\
    0 <= d /\
    (0 <= dot3 (faceNormal (mkVec3 0 0 0) (mkVec3 1 0 0) (mkVec3 0 0 1)) OUT_TOP ->
     fc = mkFace (0, 0, 0)%Z 1 3 2 /\
     d = dot3 (faceNormal (mkVec3 0 0 0) (mkVec3 1 0 0) (mkVec3 0 0 1)) OUT_TOP) /\
    (dot3 (faceNormal (mkVec3 0 0 0) (mkVec3 1 0 0) (mkVec3 0 0 1)) OUT_TOP < 0 ->
     fc = mkFace (0, 0, 0)%Z 1 2 3 /\
     d = dot3 (faceNormal (mkVec3 0 0 0) (mkVec3 0 0 1) (mkVec3 1 0 0)) OUT_TOP).
Proof.
  intros v.
  apply (emitFace_outward v [] 1 3 2 OUT_TOP (0, 0, 0)%Z
           (mkVec3 0 0 0) (mkVec3 1 0 0) (mkVec3 0 0 1)); reflexivity.
Defined.

(** ** Loops that fill arrays *)

Lemma indexed_cons {A B} (h : nat -> A -> B) s a l :
  indexed h s (a :: l) = h s a :: indexed h (S s) l.
Proof. reflexivity. Qed.

Lemma length_indexed {A B} (h : nat -> A -> B) l : forall s,
  length (indexed h s l) = length l.
Proof.
  induction l as [| a l IH]; intros s; [reflexivity |].
  rewrite indexed_cons. cbn [length]. rewrite IH. reflexivity.
Qed.

Lemma nth_error_indexed {A B} (h : nat -> A -> B) l : forall s j,
  nth_error (indexed h s l) j = option_map (h (s + j)%nat) (nth_error l j).
Proof.
  induction l as [| a l IH]; intros s [| j]; try reflexivity.
  - rewrite indexed_cons. cbn [nth_error option_map]. rewrite Nat.add_0_r. reflexivity.
  - rewrite indexed_cons. cbn [nth_error]. rewrite IH.
    replace (S s + j)%nat with (s + S j)%nat by lia. reflexivity.
Qed.

Lemma indexed_ext {A B} (h h' : nat -> A -> B) l : forall s,
  (forall k a, h k a = h' k a) -> indexed h s l = indexed h' s l.
Proof.
  induction l as [| a l IH]; intros s Hext; [reflexivity |].
  rewrite !indexed_cons, Hext, (IH (S s) Hext). reflexivity.
Qed.

Lemma indexed_shift {A B} (h : nat -> A -> B) l : forall s,
  indexed h (S s) l = indexed (fun k => h (S k)) s l.
Proof.
  induction l as [| a l IH]; intros s; [reflexivity |].
  rewrite !indexed_cons, IH. reflexivity.
Qed.

Lemma map_indexed {A B C} (g : B -> C) (h : nat -> A -> B) l : forall s,
  map g (indexed h s l) = indexed (fun k a => g (h k a)) s l.
Proof.
  induction l as [| a l IH]; intros s; [reflexivity |].
  rewrite !indexed_cons. cbn [map]. rewrite IH. reflexivity.
Qed.

Lemma mapAccum_cons {St A B} (body : St -> A -> St * B) st a l :
  mapAccum body st (a :: l)
  = (fst (mapAccum body (fst (body st a)) l),
     snd (body st a) :: snd (mapAccum body (fst (body st a)) l)).
Proof.
  cbn [mapAccum]. destruct (body st a) as [st1 b]. cbn [fst snd].
  destruct (mapAccum body st1 l) as [st2 bs]. reflexivity.
Qed.

(** A loop whose body pushes one vertex. *)
Lemma mapAccum_push {A B} (g : A -> Vec3) (h : nat -> A -> B)
  (body : list Vec3 -> A -> list Vec3 * B) :
  (forall v a, body v a = (v ++ [g a], h (S (length v)) a)) ->
  forall l v,
    mapAccum body v l
    = (v ++ map g l, indexed (fun k a => h (S (length v) + k)%nat a) 0 l).
Proof.
  intros Hbody. induction l as [| a l IH]; intros v.
  - cbn [mapAccum map]. rewrite app_nil_r. reflexivity.
  - rewrite mapAccum_cons, Hbody. cbn [fst snd]. rewrite IH. cbn [fst snd].
    rewrite indexed_cons. cbn [map]. rewrite <- app_assoc. cbn [app].
    f_equal. f_equal.
    + rewrite Nat.add_0_r. reflexivity.
    + rewrite indexed_shift. apply indexed_ext. intros k b.
      f_equal. rewrite length_app. cbn [length]. lia.
Qed.

(** A loop whose body pushes a row of [n] vertices. *)
Lemma mapAccum_rows {A B} (n : nat) (rowV : A -> list Vec3) (rowT : nat -> A -> B)
  (body : list Vec3 -> A -> list Vec3 * B) :
  (forall v a, body v a = (v ++ rowV a, rowT (length v) a)) ->
  (forall a, length (rowV a) = n) ->
  forall l v,
    mapAccum body v l
    = (v ++ flat_map rowV l, indexed (fun k a => rowT (length v + k * n)%nat a) 0 l).
Proof.
  intros Hbody Hn. induction l as [| a l IH]; intros v.
  - cbn [mapAccum flat_map]. rewrite app_nil_r. reflexivity.
  - rewrite mapAccum_cons, Hbody. cbn [fst snd]. rewrite IH. cbn [fst snd].
    rewrite indexed_cons. cbn [flat_map]. rewrite app_assoc. f_equal.
    f_equal.
    + f_equal. lia.
    + rewrite indexed_shift. apply indexed_ext. intros k b.
      f_equal. rewrite length_app, Hn. lia.
Qed.

Lemma nth_error_flat_map_rows {A B} (n : nat) (rowV : A -> list B) :
  (forall a, length (rowV a) = n) ->
  forall l i j a, nth_error l i = Some a -> (j < n)%nat ->
    nth_error (flat_map rowV l) (i * n + j) = nth_error (rowV a) j.
Proof.
  intros Hn. induction l as [| a0 l IH]; intros i j a Hi Hj.
  - destruct i; discriminate.
  - cbn [flat_map]. destruct i as [| i].
    + cbn [nth_error] in Hi. injection Hi as ->. cbn [Nat.mul Nat.add].
      apply nth_error_app1. rewrite Hn. exact Hj.
    + cbn [nth_error] in Hi.
      rewrite nth_error_app2 by (rewrite Hn; lia).
      rewrite Hn. replace (S i * n + j - n)%nat with (i * n + j)%nat by lia.
      apply (IH i j a Hi Hj).
Qed.

Lemma length_flat_map_rows {A B} (n : nat) (rowV : A -> list B) :
  (forall a, length (rowV a) = n) ->
  forall l, length (flat_map rowV l) = (length l * n)%nat.
Proof.
  intros Hn. induction l as [| a l IH]; [reflexivity |].
  cbn [flat_map length]. rewrite length_app, Hn, IH. lia.
Qed.

Lemma nth_error_combine_seq {A} (l : list A) : forall s i a,
  nth_error l i = Some a ->
  nth_error (combine (seq s (length l)) l) i = Some ((s + i)%nat, a).
Proof.
  induction l as [| a0 l IH]; intros s [| i] a Hi; try discriminate.
  - cbn in Hi |- *. injection Hi as ->. rewrite Nat.add_0_r. reflexivity.
  - cbn [length seq combine nth_error] in Hi |- *. rewrite (IH (S s) i a Hi).
    f_equal. f_equal. lia.
Qed.

(** ** Reading tables *)

Lemma get2_row {A} (d : A) (t : Table A) i j r :
  nth_error t i = Some r -> get2 d t i j = Normal (nth j r d).
Proof. intros E. unfold get2, row. rewrite E. reflexivity. Qed.

Lemma get2_ok {A} (d : A) (t : Table A) i j :
  (i < length t)%nat -> exists x, get2 d t i j = Normal x.
Proof.
  intros Hi. destruct (nth_error t i) as [r |] eqn:E.
  - exists (nth j r d). apply get2_row. exact E.
  - apply nth_error_None in E. lia.
Qed.

Lemma get2_none {A} (d : A) (t : Table A) i j :
  (length t <= i)%nat -> get2 d t i j = Throw TypeError.
Proof.
  intros Hi. unfold get2, row.
  apply nth_error_None in Hi. rewrite Hi. reflexivity.
Qed.

(** ** The vertex grids *)

Lemma topCell_eq x sl v j :
  topCell x sl v j
  = (v ++ [fst (topVertexArgs x sl j)],
     (S (length v), vY (fst (topVertexArgs x sl j)))).
Proof.
  unfold topCell, topVertexArgs, pushV. cbn [fst snd vX vY vZ].
  rewrite length_app. cbn [length]. rewrite Nat.add_1_r. reflexivity.
Qed.

Lemma bottomCell_eq x v j :
  bottomCell x v j = (v ++ [mkVec3 x (- baseThickness) (bottomRowZ j)], S (length v)).
Proof.
  unfold bottomCell, pushV. rewrite length_app. cbn [length].
  rewrite Nat.add_1_r. reflexivity.
Qed.

Section GridProps.

Variable captured : list Slice.

Lemma topRow_eq v isl :
  topRow captured v isl
  = (v ++ map (topVertex captured isl) (seq 0 bins),
     indexed (fun k j => (S (length v) + k, vY (topVertex captured isl j))%nat)
             0 (seq 0 bins)).
Proof.
  destruct isl as [i sl]. unfold topRow.
  apply (mapAccum_push (topVertex captured (i, sl))
           (fun k j => (k, vY (topVertex captured (i, sl) j)))).
  intros v0 j. apply topCell_eq.
Qed.

Lemma bottomRow_eq v i :
  bottomRow captured v i
  = (v ++ map (bottomVertex captured i) (seq 0 bins),
     indexed (fun k (_ : nat) => (S (length v) + k)%nat) 0 (seq 0 bins)).
Proof.
  unfold bottomRow.
  apply (mapAccum_push (bottomVertex captured i) (fun k (_ : nat) => k)).
  intros v0 j. apply bottomCell_eq.
Qed.

Lemma length_numbered : length (numbered captured) = slices captured.
Proof.
  unfold numbered, slices. rewrite length_combine, length_seq. apply Nat.min_id.
Qed.

Lemma nth_error_numbered i sl :
  nth_error captured i = Some sl -> nth_error (numbered captured) i = Some (i, sl).
Proof.
  intros Hi. unfold numbered, slices.
  apply (nth_error_combine_seq captured 0 i sl Hi).
Qed.

Lemma topGrid_eq :
  topGrid captured
  = (flat_map (fun isl => map (topVertex captured isl) (seq 0 bins)) (numbered captured),
     indexed (fun i isl =>
                indexed (fun k j => (S (i * bins) + k, vY (topVertex captured isl j))%nat)
                        0 (seq 0 bins))
             0 (numbered captured)).
Proof.
  unfold topGrid. fold (numbered captured).
  rewrite (mapAccum_rows bins
             (fun isl => map (topVertex captured isl) (seq 0 bins))
             (fun n isl =>
                indexed (fun k j => (S n + k, vY (topVertex captured isl j))%nat)
                        0 (seq 0 bins))).
  - reflexivity.
  - intros v isl. apply topRow_eq.
  - intros isl. rewrite length_map, length_seq. reflexivity.
Qed.

Lemma bottomGrid_eq v :
  bottomGrid captured v
  = (v ++ flat_map (fun i => map (bottomVertex captured i) (seq 0 bins))
                   (seq 0 (slices captured)),
     indexed (fun i (_ : nat) =>
                indexed (fun k (_ : nat) => (S (length v + i * bins) + k)%nat)
                        0 (seq 0 bins))
             0 (seq 0 (slices captured))).
Proof.
  unfold bottomGrid.
  apply (mapAccum_rows bins
           (fun i => map (bottomVertex captured i) (seq 0 bins))
           (fun n (_ : nat) =>
              indexed (fun k (_ : nat) => (S n + k)%nat) 0 (seq 0 bins))).
  - intros v0 i. apply bottomRow_eq.
  - intros i. rewrite length_map, length_seq. reflexivity.
Qed.

Lemma nth_indexed_seq {B} (h : nat -> nat -> B) n j d :
  (j < n)%nat -> nth j (indexed h 0 (seq 0 n)) d = h j j.
Proof.
  intros Hj. apply nth_error_nth.
  rewrite nth_error_indexed.
  rewrite (nth_error_nth' (seq 0 n) 0%nat) by (rewrite length_seq; exact Hj).
  rewrite seq_nth by exact Hj. reflexivity.
Qed.

Lemma nth_error_captured i :
  (i < slices captured)%nat -> exists sl, nth_error captured i = Some sl.
Proof.
  intros Hi. destruct (nth_error captured i) as [sl |] eqn:E.
  - exists sl. reflexivity.
  - apply nth_error_None in E. unfold slices in Hi. lia.
Qed.

Lemma length_indexTopOf : length (indexTopOf captured) = slices captured.
Proof.
  unfold indexTopOf. rewrite topGrid_eq. cbn [snd].
  rewrite length_map, length_indexed. apply length_numbered.
Qed.

Lemma length_yTopOf : length (yTopOf captured) = slices captured.
Proof.
  unfold yTopOf. rewrite topGrid_eq. cbn [snd].
  rewrite length_map, length_indexed. apply length_numbered.
Qed.

Lemma indexTopOf_at i j :
  (i < slices captured)%nat -> (j < bins)%nat ->
  get2 O (indexTopOf captured) i j = Normal (i * bins + j + 1)%nat.
Proof.
  intros Hi Hj. destruct (nth_error_captured i Hi) as [sl Hsl].
  unfold indexTopOf. rewrite topGrid_eq. cbn [snd].
  erewrite get2_row.
  2:{ rewrite nth_error_map, nth_error_indexed, (nth_error_numbered i sl Hsl).
      cbn [option_map]. reflexivity. }
  rewrite map_indexed. rewrite nth_indexed_seq by exact Hj.
  cbn [fst]. f_equal. lia.
Qed.

Lemma yTopOf_at i j sl :
  nth_error captured i = Some sl -> (j < bins)%nat ->
  get2 0 (yTopOf captured) i j = Normal (vY (topVertex captured (i, sl) j)).
Proof.
  intros Hsl Hj.
  unfold yTopOf. rewrite topGrid_eq. cbn [snd].
  erewrite get2_row.
  2:{ rewrite nth_error_map, nth_error_indexed, (nth_error_numbered i sl Hsl).
      cbn [option_map]. reflexivity. }
  rewrite map_indexed. rewrite nth_indexed_seq by exact Hj.
  reflexivity.
Qed.

Lemma length_topVertices : length (fst (topGrid captured)) = (slices captured * bins)%nat.
Proof.
  rewrite topGrid_eq. cbn [fst].
  rewrite (length_flat_map_rows bins)
    by (intros isl; rewrite length_map, length_seq; reflexivity).
  rewrite length_numbered. reflexivity.
Qed.

Lemma length_indexBottomOf : length (indexBottomOf captured) = slices captured.
Proof.
  unfold indexBottomOf. rewrite bottomGrid_eq. cbn [snd].
  rewrite length_indexed, length_seq. reflexivity.
Qed.

Lemma indexBottomOf_at i j :
  (i < slices captured)%nat -> (j < bins)%nat ->
  get2 O (indexBottomOf captured) i j
  = Normal (slices captured * bins + i * bins + j + 1)%nat.
Proof.
  intros Hi Hj.
  unfold indexBottomOf. rewrite bottomGrid_eq. cbn [snd].
  erewrite get2_row.
  2:{ rewrite nth_error_indexed.
      rewrite (nth_error_nth' (seq 0 (slices captured)) 0%nat)
        by (rewrite length_seq; exact Hi).
      cbn [option_map]. reflexivity. }
  rewrite nth_indexed_seq by exact Hj.
  rewrite length_topVertices. f_equal. lia.
Qed.

Lemma length_verticesOf :
  length (verticesOf captured) = (2 * (slices captured * bins))%nat.
Proof.
  unfold verticesOf. rewrite bottomGrid_eq. cbn [fst].
  rewrite length_app, length_topVertices.
  rewrite (length_flat_map_rows bins)
    by (intros i; rewrite length_map, length_seq; reflexivity).
  rewrite length_seq. lia.
Qed.

Lemma vertexAt_top i j sl :
  nth_error captured i = Some sl -> (j < bins)%nat ->
  vertexAt (verticesOf captured) (i * bins + j + 1)
  = Some (topVertex captured (i, sl) j).
Proof.
  intros Hsl Hj.
  assert (Hi : (i < slices captured)%nat)
    by (unfold slices; apply nth_error_Some; rewrite Hsl; discriminate).
  replace (i * bins + j + 1)%nat with (S (i * bins + j)) by lia.
  cbn [vertexAt]. unfold verticesOf. rewrite bottomGrid_eq. cbn [fst].
  assert (Hlt : (i * bins + j < slices captured * bins)%nat).
  { assert ((i + 1) * bins <= slices captured * bins)%nat
      by (apply Nat.mul_le_mono_r; lia). lia. }
  rewrite nth_error_app1 by (rewrite length_topVertices; exact Hlt).
  rewrite topGrid_eq. cbn [fst].
  rewrite (nth_error_flat_map_rows bins _
             ltac:(intros isl; rewrite length_map, length_seq; reflexivity)
             _ i j (i, sl) (nth_error_numbered i sl Hsl) Hj).
  rewrite nth_error_map.
  rewrite (nth_error_nth' (seq 0 bins) 0%nat) by (rewrite length_seq; exact Hj).
  rewrite seq_nth by exact Hj. reflexivity.
Qed.

Lemma vertexAt_bottom i j :
  (i < slices captured)%nat -> (j < bins)%nat ->
  vertexAt (verticesOf captured) (slices captured * bins + i * bins + j + 1)
  = Some (bottomVertex captured i j).
Proof.
  intros Hi Hj.
  replace (slices captured * bins + i * bins + j + 1)%nat
    with (S (slices captured * bins + (i * bins + j))) by lia.
  cbn [vertexAt]. unfold verticesOf. rewrite bottomGrid_eq. cbn [fst].
  rewrite nth_error_app2 by (rewrite length_topVertices; lia).
  rewrite length_topVertices.
  replace (slices captured * bins + (i * bins + j) - slices captured * bins)%nat
    with (i * bins + j)%nat by lia.
  rewrite (nth_error_flat_map_rows bins _
             ltac:(intros k; rewrite length_map, length_seq; reflexivity)
             _ i j i).
  - rewrite nth_error_map.
    rewrite (nth_error_nth' (seq 0 bins) 0%nat) by (rewrite length_seq; exact Hj).
    rewrite seq_nth by exact Hj. reflexivity.
  - rewrite (nth_error_nth' (seq 0 (slices captured)) 0%nat)
      by (rewrite length_seq; exact Hi).
    rewrite seq_nth by exact Hi. reflexivity.
  - exact Hj.
Qed.

End GridProps.

(** ** Loops that may throw *)

Lemma bind_normal_inv {A B} (m : Completion A) (k : A -> Completion B) b :
  bind m k = Normal b -> exists a, m = Normal a /\ k a = Normal b.
Proof.
  destruct m as [a | e]; cbn [bind]; intros H; [| discriminate].
  exists a. split; [reflexivity | exact H].
Qed.

Lemma foldM_cons {St A} (body : St -> A -> Completion St) a l st :
  foldM body (a :: l) st = bind (body st a) (foldM body l).
Proof. reflexivity. Qed.

Lemma foldM_app {St A} (body : St -> A -> Completion St) l1 l2 : forall st,
  foldM body (l1 ++ l2) st = bind (foldM body l1 st) (foldM body l2).
Proof.
  induction l1 as [| a l1 IH]; intros st; [reflexivity |].
  cbn [app]. rewrite !foldM_cons.
  destruct (body st a) as [st1 | e]; cbn [bind]; [apply IH | reflexivity].
Qed.

(** A loop whose body keeps an invariant and never throws under it
    returns, in a state that has the invariant. *)
Lemma foldM_inv {St A} (Inv : St -> Prop) (body : St -> A -> Completion St) l :
  (forall st a, In a l -> Inv st -> exists st', body st a = Normal st' /\ Inv st') ->
  forall st, Inv st -> exists st', foldM body l st = Normal st' /\ Inv st'.
Proof.
  induction l as [| a l IH]; intros Hbody st Hst.
  - exists st. split; [reflexivity | exact Hst].
  - destruct (Hbody st a (or_introl eq_refl) Hst) as (st1 & E1 & H1).
    rewrite foldM_cons, E1. cbn [bind].
    apply IH; [| exact H1].
    intros st0 a0 Hin. apply Hbody. right. exact Hin.
Qed.

Lemma mapM_cons {A B} (body : A -> Completion B) a l :
  mapM body (a :: l)
  = bind (body a) (fun b => bind (mapM body l) (fun bs => Normal (b :: bs))).
Proof. reflexivity. Qed.

Lemma mapM_ok {A B} (body : A -> Completion B) l :
  (forall a, In a l -> exists b, body a = Normal b) ->
  exists bs, mapM body l = Normal bs /\ length bs = length l.
Proof.
  induction l as [| a l IH]; intros Hbody.
  - exists []. split; reflexivity.
  - destruct (Hbody a (or_introl eq_refl)) as [b Eb].
    destruct IH as (bs & Ebs & Hlen).
    { intros a0 Hin. apply Hbody. right. exact Hin. }
    exists (b :: bs). rewrite mapM_cons, Eb. cbn [bind]. rewrite Ebs. cbn [bind].
    split; [reflexivity |]. cbn [length]. rewrite Hlen. reflexivity.
Qed.

Lemma mapM_throw_first {A B} (body : A -> Completion B) a l e :
  body a = Throw e -> mapM body (a :: l) = Throw e.
Proof. intros E. rewrite mapM_cons, E. reflexivity. Qed.

Lemma set2_ok {A} (d : A) (t : Table A) i j x :
  (i < length t)%nat ->
  exists t', set2 d t i j x = Normal t' /\ length t' = length t.
Proof.
  intros Hi. unfold set2, row.
  destruct (nth_error t i) as [r |] eqn:E.
  - cbn [bind]. eexists. split; [reflexivity |]. apply upd_length.
  - apply nth_error_None in E. lia.
Qed.

(** ** Faces are only ever appended *)

Lemma emitFace_app v f i1 i2 i3 desired matName :
  exists fc, emitFace v f i1 i2 i3 desired matName = f ++ [fc] /\
             (fc = mkFace matName i1 i2 i3 \/ fc = mkFace matName i1 i3 i2).
Proof.
  destruct (emitFace_cases v f i1 i2 i3 desired matName) as [E | E]; rewrite E;
    eexists; (split; [reflexivity |]); [left | right]; reflexivity.
Qed.

Lemma extends_refl f : extends f f.
Proof. exists []. rewrite app_nil_r. reflexivity. Qed.

Lemma extends_trans f g h : extends f g -> extends g h -> extends f h.
Proof.
  intros [x ->] [y ->]. exists (x ++ y). rewrite app_assoc. reflexivity.
Qed.

Lemma extends_emitFace v f i1 i2 i3 desired matName :
  extends f (emitFace v f i1 i2 i3 desired matName).
Proof.
  destruct (emitFace_app v f i1 i2 i3 desired matName) as (fc & E & _).
  rewrite E. exists [fc]. reflexivity.
Qed.

Lemma extends_emitFace2 v f0 f i1 i2 i3 desired matName :
  extends f0 f -> extends f0 (emitFace v f i1 i2 i3 desired matName).
Proof.
  intros H. eapply extends_trans; [exact H | apply extends_emitFace].
Qed.

(** ** The phases of the builder return *)

(** Replace the first table read of the goal whose row exists by its
    value. *)
Ltac read2 :=
  match goal with
  | |- context [get2 ?d ?t ?i ?j] =>
      let x := fresh "x" in
      let E := fresh "E" in
      destruct (get2_ok d t i j) as [x E]; [lia | rewrite E; cbn [bind]]
  end.

Section PhaseProps.

Variable captured : list Slice.
Variable v : list Vec3.
Variables indexTop indexBottom : Table nat.
Variable yTop : Table R.
Variable baseMat : MatName.
Variable flatCell : Table bool.

Hypothesis HindexTop : length indexTop = slices captured.
Hypothesis HindexBottom : length indexBottom = slices captured.
Hypothesis HyTop : length yTop = slices captured.
Hypothesis HflatCell : length flatCell = (slices captured - 1)%nat.

Lemma flatCells_ok :
  exists fl, flatCells captured yTop = Normal fl /\
             length fl = (slices captured - 1)%nat.
Proof.
  clear HindexTop HindexBottom HflatCell.
  unfold flatCells.
  destruct (mapM_ok
              (fun i =>
                 mapM (fun j =>
                   y00 <- get2 0 yTop i j ;;
                   y10 <- get2 0 yTop (i + 1) j ;;
                   y01 <- get2 0 yTop i (j + 1) ;;
                   y11 <- get2 0 yTop (i + 1) (j + 1) ;;
                   Normal (eqb y00 0 && eqb y10 0 && eqb y01 0 && eqb y11 0))
                   (seq 0 (bins - 1)))
              (seq 0 (slices captured - 1))) as (fl & E & Hlen).
  - intros i Hi. apply in_seq in Hi.
    destruct (mapM_ok
                (fun j =>
                   y00 <- get2 0 yTop i j ;;
                   y10 <- get2 0 yTop (i + 1) j ;;
                   y01 <- get2 0 yTop i (j + 1) ;;
                   y11 <- get2 0 yTop (i + 1) (j + 1) ;;
                   Normal (eqb y00 0 && eqb y10 0 && eqb y01 0 && eqb y11 0))
                (seq 0 (bins - 1))) as (r & Er & _).
    + intros j _. repeat read2. eexists. reflexivity.
    + exists r. exact Er.
  - exists fl. split; [exact E |]. rewrite Hlen, length_seq. reflexivity.
Qed.

Lemma growW_ok vis j :
  length vis = (slices captured - 1)%nat ->
  forall cands iW,
    (forall k, In k cands -> (k < slices captured - 1)%nat) ->
    (iW < slices captured - 1)%nat ->
    exists r, growW flatCell vis j cands iW = Normal r /\
              (r < slices captured - 1)%nat.
Proof.
  clear HindexTop HindexBottom HyTop.
  intros Hvis. induction cands as [| k rest IH]; intros iW Hc HiW.
  - exists iW. split; [reflexivity | exact HiW].
  - cbn [growW].
    assert (Hk : (k < slices captured - 1)%nat) by (apply Hc; left; reflexivity).
    read2. destruct x.
    + read2. destruct x; cbn [negb].
      * exists iW. split; [reflexivity | exact HiW].
      * apply IH; [| exact Hk]. intros k0 Hin. apply Hc. right. exact Hin.
    + exists iW. split; [reflexivity | exact HiW].
Qed.

Lemma columnGrows_ok vis jn :
  length vis = (slices captured - 1)%nat ->
  forall ks,
    (forall k, In k ks -> (k < slices captured - 1)%nat) ->
    exists b, columnGrows flatCell vis jn ks = Normal b.
Proof.
  clear HindexTop HindexBottom HyTop.
  intros Hvis. induction ks as [| k rest IH]; intros Hc.
  - exists true. reflexivity.
  - cbn [columnGrows].
    assert (Hk : (k < slices captured - 1)%nat) by (apply Hc; left; reflexivity).
    read2. destruct x; cbn [negb].
    + read2. destruct x.
      * exists false. reflexivity.
      * apply IH. intros k0 Hin. apply Hc. right. exact Hin.
    + exists false. reflexivity.
Qed.

Lemma growH_ok vis i iW :
  length vis = (slices captured - 1)%nat ->
  (iW < slices captured - 1)%nat ->
  forall cands jH, exists r, growH flatCell vis i iW cands jH = Normal r.
Proof.
  clear HindexTop HindexBottom HyTop.
  intros Hvis HiW. induction cands as [| jn rest IH]; intros jH.
  - exists jH. reflexivity.
  - cbn [growH].
    destruct (columnGrows_ok vis jn Hvis (seq i (iW + 1 - i))) as [b Eb].
    { intros k Hk. apply in_seq in Hk. lia. }
    rewrite Eb. cbn [bind]. destruct b.
    + apply IH.
    + exists jH. reflexivity.
Qed.

Lemma markVisited_ok vis i iW j jH :
  length vis = (slices captured - 1)%nat ->
  (iW < slices captured - 1)%nat ->
  exists vis', markVisited vis i iW j jH = Normal vis' /\
               length vis' = (slices captured - 1)%nat.
Proof.
  clear HindexTop HindexBottom HyTop HflatCell.
  intros Hvis HiW. unfold markVisited.
  apply (foldM_inv (fun t : Table bool => length t = (slices captured - 1)%nat));
    [| exact Hvis].
  intros t jj _ Ht.
  apply (foldM_inv (fun t : Table bool => length t = (slices captured - 1)%nat));
    [| exact Ht].
  intros t0 ii Hii Ht0. apply in_seq in Hii.
  destruct (set2_ok false t0 ii jj true) as (t' & E & Hlen); [lia |].
  exists t'. split; [exact E | lia].
Qed.

Lemma topCellFaces_ok f0 st i j :
  (i < slices captured - 1)%nat ->
  topInv captured f0 st ->
  exists st', topCellFaces captured v indexTop yTop baseMat flatCell st i j = Normal st'
              /\ topInv captured f0 st'.
Proof.
  clear HindexBottom.
  intros Hi [Hvis Hext]. unfold topCellFaces.
  read2. destruct x.
  { exists st. split; [reflexivity | split; assumption]. }
  read2. destruct x; cbn [negb].
  - (* a flat cell *)
    destruct (growW_ok (visited st) j Hvis
                (seq (i + 1) (slices captured - 1 - (i + 1))) i) as (iW & EW & HiW).
    { intros k Hk. apply in_seq in Hk. lia. }
    { exact Hi. }
    rewrite EW. cbn [bind].
    destruct (growH_ok (visited st) i iW Hvis HiW
                (seq (j + 1) (bins - 1 - (j + 1))) j) as (jH & EH).
    rewrite EH. cbn [bind].
    repeat read2.
    destruct (markVisited_ok (visited st) i iW j jH Hvis HiW) as (vis' & EV & Hlen).
    rewrite EV. cbn [bind].
    eexists. split; [reflexivity |].
    split; cbn [visited topFaces]; [exact Hlen |].
    apply extends_emitFace2, extends_emitFace2, Hext.
  - (* a cell that is not flat *)
    repeat read2.
    destruct (materialNameForColor (topMaterials st) _) as [m n1].
    destruct (materialNameForColor m _) as [m' n2].
    destruct (set2_ok false (visited st) i j true) as (vis' & EV & Hlen); [lia |].
    rewrite EV. cbn [bind].
    eexists. split; [reflexivity |].
    split; cbn [visited topFaces]; [lia |].
    apply extends_emitFace2, extends_emitFace2, Hext.
Qed.

Lemma topSurface_ok st :
  length (visited st) = (slices captured - 1)%nat ->
  exists st', topSurface captured v indexTop yTop baseMat flatCell st = Normal st'
              /\ topInv captured (topFaces st) st'.
Proof.
  clear HindexBottom.
  intros Hvis. unfold topSurface.
  apply (foldM_inv (topInv captured (topFaces st))).
  - intros st0 j _ H0.
    apply (foldM_inv (topInv captured (topFaces st))); [| exact H0].
    intros st1 i Hi H1. apply in_seq in Hi.
    apply topCellFaces_ok; [lia | exact H1].
  - split; [exact Hvis | apply extends_refl].
Qed.

Lemma frontSeam_ok f :
  exists f', frontSeam captured v indexTop baseMat f = Normal f' /\ extends f f'.
Proof.
  clear HindexBottom HyTop HflatCell.
  unfold frontSeam. apply (foldM_inv (extends f)); [| apply extends_refl].
  intros f0 i Hi H0. apply in_seq in Hi.
  repeat read2. eexists. split; [reflexivity |].
  apply extends_emitFace2, extends_emitFace2, H0.
Qed.

Lemma bottomSurface_ok f :
  exists f', bottomSurface captured v indexBottom baseMat f = Normal f' /\ extends f f'.
Proof.
  clear HindexTop HyTop HflatCell.
  unfold bottomSurface. apply (foldM_inv (extends f)); [| apply extends_refl].
  intros f0 i Hi H0. apply in_seq in Hi.
  apply (foldM_inv (extends f)); [| exact H0].
  intros f1 j _ H1.
  repeat read2. eexists. split; [reflexivity |].
  apply extends_emitFace2, extends_emitFace2, H1.
Qed.

Lemma wallAlongX_ok j desired f :
  exists f', wallAlongX captured v indexTop indexBottom baseMat j desired f = Normal f'
             /\ extends f f'.
Proof.
  clear HyTop HflatCell.
  unfold wallAlongX. apply (foldM_inv (extends f)); [| apply extends_refl].
  intros f0 i Hi H0. apply in_seq in Hi.
  repeat read2. eexists. split; [reflexivity |].
  apply extends_emitFace2, extends_emitFace2, H0.
Qed.

Lemma sideBottoms_ok :
  (1 <= slices captured)%nat ->
  exists sides, sideBottoms captured indexBottom = Normal sides.
Proof.
  clear HindexTop HyTop HflatCell.
  intros Hs. unfold sideBottoms.
  destruct (mapM_ok
              (fun j =>
                 l <- get2 O indexBottom 0 j ;;
                 r <- get2 O indexBottom (slices captured - 1) j ;;
                 Normal (l, r))
              (seq 0 bins)) as (lr & E & _).
  - intros j _. repeat read2. eexists. reflexivity.
  - rewrite E. cbn [bind]. eexists. reflexivity.
Qed.

Lemma sideBottoms_empty :
  slices captured = 0%nat -> sideBottoms captured indexBottom = Throw TypeError.
Proof.
  clear HindexTop HyTop HflatCell.
  intros Hs. unfold sideBottoms.
  assert (Hb : seq 0 bins = 0%nat :: seq 1 (bins - 1)).
  { rewrite bins_val. reflexivity. }
  rewrite Hb.
  rewrite (mapM_throw_first _ 0%nat (seq 1 (bins - 1)) TypeError); [reflexivity |].
  rewrite (get2_none O indexBottom 0 0) by lia. reflexivity.
Qed.

Lemma wallAlongZ_ok i sideBottom desired f :
  (i < slices captured)%nat ->
  exists f', wallAlongZ v indexTop baseMat i sideBottom desired f = Normal f'
             /\ extends f f'.
Proof.
  clear HindexBottom HyTop HflatCell.
  intros Hi. unfold wallAlongZ. apply (foldM_inv (extends f)); [| apply extends_refl].
  intros f0 j _ H0.
  repeat read2. eexists. split; [reflexivity |].
  apply extends_emitFace2, extends_emitFace2, H0.
Qed.

Lemma leftWall_ok sideBottomLeft f :
  (1 <= slices captured)%nat ->
  exists f', leftWall v indexTop baseMat sideBottomLeft f = Normal f' /\ extends f f'.
Proof.
  clear HindexBottom HyTop HflatCell.
  intros Hs. unfold leftWall.
  destruct (wallAlongZ_ok 0 sideBottomLeft OUT_LEFT f) as (f1 & E1 & H1); [lia |].
  rewrite E1. cbn [bind]. repeat read2.
  eexists. split; [reflexivity |].
  apply extends_emitFace2, extends_emitFace2, H1.
Qed.

Lemma rightWall_ok sideBottomRight f :
  (1 <= slices captured)%nat ->
  exists f', rightWall captured v indexTop baseMat sideBottomRight f = Normal f'
             /\ extends f f'.
Proof.
  clear HindexBottom HyTop HflatCell.
  intros Hs. unfold rightWall.
  destruct (wallAlongZ_ok (slices captured - 1) sideBottomRight OUT_RIGHT f)
    as (f1 & E1 & H1); [lia |].
  rewrite E1. cbn [bind]. repeat read2.
  eexists. split; [reflexivity |].
  apply extends_emitFace2, extends_emitFace2, H1.
Qed.

End PhaseProps.

(** ** The builder as a whole *)

Lemma buildOBJFromCaptured_eq captured :
  buildOBJFromCaptured captured
  = triangulate captured (verticesOf captured) (indexTopOf captured)
      (yTopOf captured) (indexBottomOf captured)
      (fst (materialNameForColor [] baseColor))
      (snd (materialNameForColor [] baseColor)).
Proof.
  unfold buildOBJFromCaptured, verticesOf, indexTopOf, yTopOf, indexBottomOf.
  destruct (materialNameForColor [] baseColor) as [materials baseMat].
  destruct (topGrid captured) as [v top]. cbn [fst snd].
  destruct (bottomGrid captured v) as [v' indexBottom]. reflexivity.
Qed.

Lemma length_visited0 n m : length (repeat (repeat false m) n) = n.
Proof. apply repeat_length. Qed.

(** The run of the builder on a history that is not empty: every phase
    returns, each appending faces to those of the phase before. *)
Lemma triangulate_trace captured v indexTop yTop indexBottom materials baseMat :
  length indexTop = slices captured ->
  length indexBottom = slices captured ->
  length yTop = slices captured ->
  (1 <= slices captured)%nat ->
  exists f4 sides f5 f6 materials',
    sideBottoms captured indexBottom = Normal sides /\
    leftWall v indexTop baseMat (fst sides) f4 = Normal f5 /\
    extends f5 f6 /\
    triangulate captured v indexTop yTop indexBottom materials baseMat
    = Normal (mkMesh v f6 materials').
Proof.
  intros HT HB HY Hs. unfold triangulate.
  destruct (flatCells_ok captured yTop HY) as (fl & Efl & Hfl).
  rewrite Efl. cbn [bind].
  destruct (topSurface_ok captured v indexTop yTop baseMat fl HT HY Hfl
              (mkTopState (repeat (repeat false (bins - 1)) (slices captured - 1))
                          [] materials)) as (st & Est & _).
  { apply length_visited0. }
  rewrite Est. cbn [bind].
  destruct (frontSeam_ok captured v indexTop baseMat HT (topFaces st))
    as (f1 & E1 & _).
  rewrite E1. cbn [bind].
  destruct (bottomSurface_ok captured v indexBottom baseMat HB f1) as (f2 & E2 & _).
  rewrite E2. cbn [bind].
  destruct (wallAlongX_ok captured v indexTop indexBottom baseMat HT HB 0 OUT_BACK f2)
    as (f3 & E3 & _).
  unfold backWall. rewrite E3. cbn [bind].
  destruct (wallAlongX_ok captured v indexTop indexBottom baseMat HT HB
              (bins - 1) OUT_FRONT f3) as (f4 & E4 & _).
  unfold frontWall. rewrite E4. cbn [bind].
  destruct (sideBottoms_ok captured indexBottom HB Hs) as (sides & Es).
  rewrite Es. cbn [bind].
  destruct (leftWall_ok captured v indexTop baseMat HT (fst sides) f4 Hs)
    as (f5 & E5 & _).
  rewrite E5. cbn [bind].
  destruct (rightWall_ok captured v indexTop baseMat HT (snd sides) f5 Hs)
    as (f6 & E6 & H6).
  rewrite E6. cbn [bind].
  exists f4, sides, f5, f6. eexists.
  split; [reflexivity |]. split; [exact E5 |]. split; [exact H6 |]. reflexivity.
Qed.

Lemma triangulate_empty captured v indexTop yTop indexBottom materials baseMat :
  length indexTop = slices captured ->
  length indexBottom = slices captured ->
  length yTop = slices captured ->
  slices captured = 0%nat ->
  triangulate captured v indexTop yTop indexBottom materials baseMat = Throw TypeError.
Proof.
  intros HT HB HY Hs. unfold triangulate.
  destruct (flatCells_ok captured yTop HY) as (fl & Efl & Hfl).
  rewrite Efl. cbn [bind].
  destruct (topSurface_ok captured v indexTop yTop baseMat fl HT HY Hfl
              (mkTopState (repeat (repeat false (bins - 1)) (slices captured - 1))
                          [] materials)) as (st & Est & _).
  { apply length_visited0. }
  rewrite Est. cbn [bind].
  destruct (frontSeam_ok captured v indexTop baseMat HT (topFaces st))
    as (f1 & E1 & _).
  rewrite E1. cbn [bind].
  destruct (bottomSurface_ok captured v indexBottom baseMat HB f1) as (f2 & E2 & _).
  rewrite E2. cbn [bind].
  destruct (wallAlongX_ok captured v indexTop indexBottom baseMat HT HB 0 OUT_BACK f2)
    as (f3 & E3 & _).
  unfold backWall. rewrite E3. cbn [bind].
  destruct (wallAlongX_ok captured v indexTop indexBottom baseMat HT HB
              (bins - 1) OUT_FRONT f3) as (f4 & E4 & _).
  unfold frontWall. rewrite E4. cbn [bind].
  rewrite (sideBottoms_empty captured indexBottom HB Hs). reflexivity.
Qed.

(** On a history with at least one slice the builder returns a mesh whose
    vertices are those of the two grids. *)
Lemma buildOBJFromCaptured_returns captured :
  (1 <= length captured)%nat ->
  exists m, buildOBJFromCaptured captured = Normal m /\
            vertices m = verticesOf captured.
Proof.
  intros Hs. rewrite buildOBJFromCaptured_eq.
  destruct (triangulate_trace captured (verticesOf captured) (indexTopOf captured)
              (yTopOf captured) (indexBottomOf captured)
              (fst (materialNameForColor [] baseColor))
              (snd (materialNameForColor [] baseColor))
              (length_indexTopOf captured) (length_indexBottomOf captured)
              (length_yTopOf captured) Hs)
    as (f4 & sides & f5 & f6 & materials' & _ & _ & _ & E).
  rewrite E. eexists. split; reflexivity.
Qed.

(** On the empty history it throws: [indexBottom[0]] is [undefined]. *)
Lemma buildOBJFromCaptured_empty : buildOBJFromCaptured [] = Throw TypeError.
Proof.
  rewrite buildOBJFromCaptured_eq.
  apply triangulate_empty;
    [apply length_indexTopOf | apply length_indexBottomOf | apply length_yTopOf
    | reflexivity].
Qed.

(** ** The boundary row of the export *)

Lemma topVertexArgs_boundary x sl :
  topVertexArgs x sl activeRowsCount
  = (mkVec3 x 0 (z0 + depth), referenceColorRamp 0).
Proof.
  unfold topVertexArgs, topRowZ. rewrite Nat.ltb_irrefl.
  rewrite ltb_true; [reflexivity |].
  unfold flatEps, depth, heightScale. lra.
Qed.

Lemma activeRowsCount_lt_bins : (activeRowsCount < bins)%nat.
Proof. unfold bins. lia. Qed.

(** C10.  Whatever slice [i] holds at row [activeRows], the top vertex the
    exporter pushes for that row has height 0 and is given the colour of
    amplitude 0; [yTop] holds 0 there and the vertex of the mesh is at
    height 0.  The slice itself can hold a value that is not 0 at that row:
    a raw magnitude 255 passes the noise gate and is normalised to 1, which
    the live view shows at height [depth * heightScale]. *)
Theorem boundary_row_forced_to_zero (captured : list Slice) (i : nat) (sl : Slice)
  (Hsl : nth_error captured i = Some sl) :
  let x := x0 captured + dx * INR i in
  topVertexArgs x sl activeRowsCount
  = (mkVec3 x 0 (z0 + depth), referenceColorRamp 0) /\
  get2 0 (yTopOf captured) i activeRowsCount = Normal 0 /\
  (exists m idx,
     buildOBJFromCaptured captured = Normal m /\
     get2 O (indexTopOf captured) i activeRowsCount = Normal idx /\
     vertexAt (vertices m) idx = Some (mkVec3 x 0 (z0 + depth))) /\
  (forall freqData,
     rawAt freqData activeRows = 255%Z -> sl = normalizeSlice freqData ->
     sliceAt sl activeRows = 1 /\
     fst (cellFrom sl activeRows) = depth * heightScale).
Proof.
  intros x.
  assert (Hi : (i < slices captured)%nat)
    by (unfold slices; apply nth_error_Some; rewrite Hsl; discriminate).
  split; [apply topVertexArgs_boundary |].
  split.
  { rewrite (yTopOf_at captured i activeRowsCount sl Hsl activeRowsCount_lt_bins).
    unfold topVertex. cbn [fst snd]. fold x.
    rewrite topVertexArgs_boundary. reflexivity. }
  split.
  { destruct (buildOBJFromCaptured_returns captured) as (m & Em & Hv).
    { unfold slices in Hi. lia. }
    exists m, (i * bins + activeRowsCount + 1)%nat.
    split; [exact Em |].
    split; [apply indexTopOf_at; [exact Hi | apply activeRowsCount_lt_bins] |].
    rewrite Hv.
    rewrite (vertexAt_top captured i activeRowsCount sl Hsl activeRowsCount_lt_bins).
    unfold topVertex. cbn [fst snd]. fold x.
    rewrite topVertexArgs_boundary. reflexivity. }
  intros freqData Hraw ->.
  assert (H1 : sliceAt (normalizeSlice freqData) activeRows = 1).
  { rewrite normalizeSlice_at by apply activeRows_lt_pointsPerSlice.
    unfold emphasizedBin. rewrite Hraw.
    rewrite ltb_false by (unfold noiseFloor; lra). cbn [andb].
    replace (255 / 255) with 1 by lra. apply Math_pow_1. }
  split; [exact H1 |].
  unfold cellFrom. cbn [fst]. rewrite H1. lra.
Qed.

Lemma boundary_row_forced_to_zero_witness :
  let captured := [repeat 1 pointsPerSlice] in
  let x := x0 captured + dx * INR 0 in
  topVertexArgs x (repeat 1 pointsPerSlice) activeRowsCount
  = (mkVec3 x 0 (z0 + depth), referenceColorRamp 0) /\
  get2 0 (yTopOf captured) 0 activeRowsCount = Normal 0.
Proof.
  intros captured x.
  destruct (boundary_row_forced_to_zero captured 0 (repeat 1 pointsPerSlice) eq_refl)
    as (H1 & H2 & _).
  split; [exact H1 | exact H2].
Defined.

(** ** What the builder does on short histories *)

Lemma fold_left_snoc {A B} (g : B -> A) l : forall acc,
  fold_left (fun acc x => acc ++ [g x]) l acc = acc ++ map g l.
Proof.
  induction l as [| b l IH]; intros acc.
  - cbn [fold_left map]. rewrite app_nil_r. reflexivity.
  - cbn [fold_left map]. rewrite IH, <- app_assoc. reflexivity.
Qed.

Lemma synthesize_length st :
  length (capturedSlices (synthesizeCapturedFromSurface st))
  = Nat.max 2 (length (geometryPosition st) / 3 / pointsPerSlice).
Proof.
  unfold synthesizeCapturedFromSurface. cbn [capturedSlices].
  rewrite fold_left_snoc. cbn [app]. rewrite length_map, length_seq. reflexivity.
Qed.

Lemma exportClick_history_length st :
  (2 <= length (capturedSlices (fst (exportClick st))))%nat.
Proof.
  unfold exportClick. cbn [fst].
  destruct (Nat.ltb_spec (length (capturedSlices st)) 2) as [Hlt | Hge].
  - rewrite synthesize_length. apply Nat.le_max_l.
  - exact Hge.
Qed.

(** C3, as the code has it.  The builder has no length check and no signal
    of its own for a short history: it returns a mesh for every history of
    at least one slice, so for every history of length 2 or more and also
    for length 1, and on the empty history it throws a TypeError; the
    click handler never calls it with fewer than 2 slices, so its call
    always returns a mesh. *)
Theorem build_completions (captured : list Slice) :
  ((1 <= length captured)%nat ->
   exists m, buildOBJFromCaptured captured = Normal m) /\
  (length captured = 0%nat -> buildOBJFromCaptured captured = Throw TypeError) /\
  (forall st,
     (2 <= length (capturedSlices (fst (exportClick st))))%nat /\
     exists m, snd (exportClick st) = Normal m).
Proof.
  split; [| split].
  - intros Hs. destruct (buildOBJFromCaptured_returns captured Hs) as (m & Em & _).
    exists m. exact Em.
  - intros H0. apply length_zero_iff_nil in H0. subst captured.
    apply buildOBJFromCaptured_empty.
  - intros st. split; [apply exportClick_history_length |].
    pose proof (exportClick_history_length st) as Hlen.
    unfold exportClick in *. cbn [fst snd] in *.
    destruct (buildOBJFromCaptured_returns
                (capturedSlices
                   (if (length (capturedSlices st) <? 2)%nat
                    then synthesizeCapturedFromSurface st else st)))
      as (m & Em & _); [lia |].
    exists m. exact Em.
Qed.

Lemma build_completions_witness :
  (exists m, buildOBJFromCaptured [repeat 0 pointsPerSlice; repeat 0 pointsPerSlice]
             = Normal m) /\
  buildOBJFromCaptured [] = Throw TypeError.
Proof.
  split.
  - apply (proj1 (build_completions [repeat 0 pointsPerSlice; repeat 0 pointsPerSlice])).
    cbn [length]. lia.
  - apply (proj1 (proj2 (build_completions []))). reflexivity.
Defined.

(** C3 as stated fails: a history of one slice is shorter than
    2, and the builder returns a mesh for it. *)
Lemma build_one_slice_returns :
  (length [repeat 0 pointsPerSlice] < 2)%nat /\
  exists m, buildOBJFromCaptured [repeat 0 pointsPerSlice] = Normal m.
Proof.
  split; [cbn [length]; lia |].
  destruct (buildOBJFromCaptured_returns [repeat 0 pointsPerSlice]) as (m & Em & _).
  - cbn [length]. lia.
  - exists m. exact Em.
Qed.

(** ** The export and the history *)

(** C4, as the code has it.  An export leaves a history of 2 or more slices
    as it is; a shorter history it replaces, before building, by the slices
    sampled from the displayed geometry, which are 2 or more.  The other
    globals stay as they are in both cases. *)
Theorem export_history_frame (st : State) :
  ((2 <= length (capturedSlices st))%nat -> fst (exportClick st) = st) /\
  ((length (capturedSlices st) < 2)%nat ->
   fst (exportClick st) = synthesizeCapturedFromSurface st /\
   (2 <= length (capturedSlices (fst (exportClick st))))%nat /\
   length (capturedSlices (fst (exportClick st)))
   = Nat.max 2 (length (geometryPosition st) / 3 / pointsPerSlice)) /\
  positionAttr (fst (exportClick st)) = positionAttr st /\
  colors (fst (exportClick st)) = colors st /\
  geometry (fst (exportClick st)) = geometry st.
Proof.
  unfold exportClick. cbn [fst].
  destruct (Nat.ltb_spec (length (capturedSlices st)) 2) as [Hlt | Hge].
  - split; [intros H; lia |].
    split; [| repeat split].
    intros _. split; [reflexivity |].
    rewrite synthesize_length. split; [apply Nat.le_max_l | reflexivity].
  - split; [intros _; reflexivity |].
    split; [intros H; lia |]. repeat split.
Qed.

Lemma export_history_frame_witness :
  let st := mkState [] [] InitialGeometry [repeat 0 pointsPerSlice; repeat 0 pointsPerSlice]
                    false false in
  fst (exportClick st) = st.
Proof.
  intros st. apply (proj1 (export_history_frame st)).
  unfold st. cbn [capturedSlices length]. lia.
Defined.

(** C4 as stated fails: from the state in which nothing is
    captured yet, an export leaves a history of 2 or more slices where the
    history was empty. *)
Lemma export_replaces_empty_history :
  let st := mkState (repeat 0 (pointsPerSlice * numSlices * 3))
                    (repeat 0 (pointsPerSlice * numSlices * 3))
                    InitialGeometry [] false false in
  length (capturedSlices st) = 0%nat /\
  (2 <= length (capturedSlices (fst (exportClick st))))%nat.
Proof.
  intros st. split; [reflexivity | apply exportClick_history_length].
Qed.

(** ** Edges and triangles *)

Lemma edgeOf_comm a b : edgeOf a b = edgeOf b a.
Proof. unfold edgeOf. rewrite Nat.min_comm, Nat.max_comm. reflexivity. Qed.

Lemma edgeEqb_refl e : edgeEqb e e = true.
Proof. unfold edgeEqb. rewrite !Nat.eqb_refl. reflexivity. Qed.

Lemma faceHasEdge_12 fc : faceHasEdge (edgeOf (f1 fc) (f2 fc)) fc = true.
Proof. unfold faceHasEdge, faceEdges. cbn [existsb]. rewrite edgeEqb_refl. reflexivity. Qed.

Lemma faceHasEdge_23 fc : faceHasEdge (edgeOf (f2 fc) (f3 fc)) fc = true.
Proof.
  unfold faceHasEdge, faceEdges. cbn [existsb]. rewrite (edgeEqb_refl (edgeOf (f2 fc) (f3 fc))).
  rewrite orb_true_r. reflexivity.
Qed.

Lemma faceHasEdge_31 fc : faceHasEdge (edgeOf (f3 fc) (f1 fc)) fc = true.
Proof.
  unfold faceHasEdge, faceEdges. cbn [existsb]. rewrite (edgeEqb_refl (edgeOf (f3 fc) (f1 fc))).
  rewrite !orb_true_r. reflexivity.
Qed.

(** Both orders [emitFace] can store have the same three edges. *)
Lemma emitted_has_edges matName i1 i2 i3 fc :
  fc = mkFace matName i1 i2 i3 \/ fc = mkFace matName i1 i3 i2 ->
  faceHasEdge (edgeOf i1 i2) fc = true /\
  faceHasEdge (edgeOf i2 i3) fc = true /\
  faceHasEdge (edgeOf i1 i3) fc = true.
Proof.
  intros [-> | ->].
  - split; [apply (faceHasEdge_12 (mkFace matName i1 i2 i3)) |].
    split; [apply (faceHasEdge_23 (mkFace matName i1 i2 i3)) |].
    rewrite edgeOf_comm. apply (faceHasEdge_31 (mkFace matName i1 i2 i3)).
  - split; [rewrite edgeOf_comm; apply (faceHasEdge_31 (mkFace matName i1 i3 i2)) |].
    split; [rewrite edgeOf_comm; apply (faceHasEdge_23 (mkFace matName i1 i3 i2)) |].
    apply (faceHasEdge_12 (mkFace matName i1 i3 i2)).
Qed.

Lemma faceHasEdge_In e fc : faceHasEdge e fc = true -> In e (faceEdges fc).
Proof.
  unfold faceHasEdge. intros H. apply existsb_exists in H.
  destruct H as (e' & Hin & Heq).
  unfold edgeEqb in Heq. apply andb_true_iff in Heq. destruct Heq as [H1 H2].
  apply Nat.eqb_eq in H1. apply Nat.eqb_eq in H2.
  destruct e as [a b], e' as [a' b']. cbn [fst snd] in *. subst. exact Hin.
Qed.

Lemma incidence_app e l1 l2 : incidence e (l1 ++ l2) = (incidence e l1 + incidence e l2)%nat.
Proof. unfold incidence. rewrite filter_app, length_app. reflexivity. Qed.

Lemma incidence_cons_true e fc l :
  faceHasEdge e fc = true -> incidence e (fc :: l) = S (incidence e l).
Proof. intros H. unfold incidence. cbn [filter]. rewrite H. reflexivity. Qed.

(** ** The left wall *)

(** The left wall ends with four faces on the two vertices
    [indexTop[0][bins - 2]] and [sideBottomLeft[bins - 1]]: the two of the
    last turn of its loop, and the two emitted after the loop. *)
Lemma leftWall_tail captured v indexTop baseMat sideBottomLeft f :
  length indexTop = slices captured ->
  (1 <= slices captured)%nat ->
  exists g fp fq fx fy t2,
    get2 O indexTop 0 (bins - 2) = Normal t2 /\
    leftWall v indexTop baseMat sideBottomLeft f = Normal (g ++ [fp; fq; fx; fy]) /\
    let e := edgeOf t2 (nth (bins - 1) sideBottomLeft O) in
    faceHasEdge e fp = true /\ faceHasEdge e fq = true /\
    faceHasEdge e fx = true /\ faceHasEdge e fy = true.
Proof.
  intros HT Hs.
  assert (Hb1 : (bins - 1 = S (bins - 2))%nat) by (rewrite bins_val; reflexivity).
  assert (Hb2 : (bins - 2 + 1 = bins - 1)%nat) by (rewrite bins_val; reflexivity).
  unfold leftWall, wallAlongZ.
  replace (seq 0 (bins - 1)) with (seq 0 (bins - 2) ++ [(bins - 2)%nat])
    by (rewrite Hb1, seq_S; reflexivity).
  rewrite foldM_app.
  match goal with
  | |- context [foldM ?body (seq 0 (bins - 2)) f] =>
      destruct (foldM_inv (extends f) body (seq 0 (bins - 2))) with (st := f)
        as (g & Eg & _)
  end.
  { intros f0 j _ H0. repeat read2. eexists. split; [reflexivity |].
    apply extends_emitFace2, extends_emitFace2, H0. }
  { apply extends_refl. }
  rewrite Eg. cbn [bind foldM]. rewrite Hb2.
  destruct (get2_ok O indexTop 0 (bins - 2)) as [t2 E2]; [lia |].
  destruct (get2_ok O indexTop 0 (bins - 1)) as [t1 E1]; [lia |].
  rewrite E2, E1. cbn [bind].
  set (aBot := nth (bins - 2) sideBottomLeft O).
  set (bBot := nth (bins - 1) sideBottomLeft O).
  destruct (emitFace_app v g t2 aBot bBot OUT_LEFT baseMat) as (fp & Ep & Hp).
  rewrite Ep.
  destruct (emitFace_app v (g ++ [fp]) t2 bBot t1 OUT_LEFT baseMat) as (fq & Eq & Hq).
  rewrite Eq.
  destruct (emitFace_app v ((g ++ [fp]) ++ [fq]) t2 t1 bBot OUT_LEFT baseMat)
    as (fx & Ex & Hx).
  rewrite Ex.
  destruct (emitFace_app v (((g ++ [fp]) ++ [fq]) ++ [fx]) t2 bBot aBot OUT_LEFT baseMat)
    as (fy & Ey & Hy).
  rewrite Ey.
  exists g, fp, fq, fx, fy, t2.
  split; [reflexivity |].
  split; [rewrite <- !app_assoc; reflexivity |].
  cbv zeta.
  destruct (emitted_has_edges _ _ _ _ _ Hp) as (_ & _ & Hp3).
  destruct (emitted_has_edges _ _ _ _ _ Hq) as (Hq1 & _ & _).
  destruct (emitted_has_edges _ _ _ _ _ Hx) as (_ & _ & Hx3).
  destruct (emitted_has_edges _ _ _ _ _ Hy) as (Hy1 & _ & _).
  repeat split; assumption.
Qed.

Lemma mapM_nth {A B} (body : A -> Completion B) l : forall bs,
  mapM body l = Normal bs ->
  forall k a, nth_error l k = Some a ->
    exists b, body a = Normal b /\ nth_error bs k = Some b.
Proof.
  induction l as [| a0 l IH]; intros bs E k a Hk.
  - destruct k; discriminate.
  - rewrite mapM_cons in E.
    apply bind_normal_inv in E. destruct E as (b0 & E0 & E).
    apply bind_normal_inv in E. destruct E as (bs0 & Ebs & E).
    injection E as <-.
    destruct k as [| k]; cbn [nth_error] in Hk |- *.
    + injection Hk as <-. exists b0. split; [exact E0 | reflexivity].
    + apply (IH bs0 Ebs k a Hk).
Qed.

Lemma sideBottomLeft_at captured sides j :
  sideBottoms captured (indexBottomOf captured) = Normal sides ->
  (1 <= slices captured)%nat -> (j < bins)%nat ->
  nth j (fst sides) O = (slices captured * bins + j + 1)%nat.
Proof.
  intros E Hs Hj. unfold sideBottoms in E.
  apply bind_normal_inv in E. destruct E as (lr & Elr & E).
  injection E as <-. cbn [fst].
  destruct (mapM_nth _ _ lr Elr j j) as (b & Eb & Hb).
  { rewrite (nth_error_nth' (seq 0 bins) 0%nat) by (rewrite length_seq; exact Hj).
    rewrite seq_nth by exact Hj. reflexivity. }
  rewrite (indexBottomOf_at captured 0 j) in Eb by lia. cbn [bind] in Eb.
  rewrite (indexBottomOf_at captured (slices captured - 1) j) in Eb by lia.
  cbn [bind] in Eb. injection Eb as <-.
  apply nth_error_nth. rewrite nth_error_map, Hb. cbn [option_map fst]. f_equal. lia.
Qed.

(** ** Watertightness *)

(** C1 fails on every history of 2 or more slices: the builder returns a
    mesh in which the edge between top vertex [indexTop[0][bins - 2]]
    (number [bins - 1]) and bottom vertex [indexBottom[0][bins - 1]]
    (number [slices * bins + bins]) belongs to four triangles or more, the
    two of the last turn of the left wall's loop and the two emitted again
    after that loop; so not every edge is in exactly two triangles. *)
Theorem left_wall_edge_in_four_triangles (captured : list Slice)
  (Hlen : (2 <= length captured)%nat) :
  exists m,
    buildOBJFromCaptured captured = Normal m /\
    let e := edgeOf (bins - 1) (length captured * bins + bins) in
    In e (flat_map faceEdges (faces m)) /\
    (4 <= incidence e (faces m))%nat /\
    ~ watertight (faces m).
Proof.
  assert (Hs : (1 <= slices captured)%nat) by (unfold slices; lia).
  rewrite buildOBJFromCaptured_eq.
  destruct (triangulate_trace captured (verticesOf captured) (indexTopOf captured)
              (yTopOf captured) (indexBottomOf captured)
              (fst (materialNameForColor [] baseColor))
              (snd (materialNameForColor [] baseColor))
              (length_indexTopOf captured) (length_indexBottomOf captured)
              (length_yTopOf captured) Hs)
    as (f4 & sides & f5 & f6 & materials' & Esides & E5 & [extra H6] & E).
  rewrite E. eexists. split; [reflexivity |]. cbn [faces].
  destruct (leftWall_tail captured (verticesOf captured) (indexTopOf captured)
              (snd (materialNameForColor [] baseColor)) (fst sides) f4
              (length_indexTopOf captured) Hs)
    as (g & fp & fq & fx & fy & t2 & E2 & EL & Hp & Hq & Hx & Hy).
  rewrite E5 in EL. injection EL as ->.
  assert (Hb : (bins - 2 < bins)%nat) by (rewrite bins_val; lia).
  rewrite (indexTopOf_at captured 0 (bins - 2) Hs Hb) in E2. injection E2 as <-.
  rewrite (sideBottomLeft_at captured sides (bins - 1) Esides Hs) in Hp, Hq, Hx, Hy
    by (rewrite bins_val; lia).
  replace (bins - 2 + 1)%nat with (bins - 1)%nat in *
    by (rewrite bins_val; reflexivity).
  replace (slices captured * bins + (bins - 1) + 1)%nat
    with (length captured * bins + bins)%nat in *
    by (unfold slices; rewrite bins_val; lia).
  set (e := edgeOf (bins - 1) (length captured * bins + bins)) in *.
  assert (Hinc : (4 <= incidence e f6)%nat).
  { subst f6. rewrite !incidence_app.
    rewrite !incidence_cons_true by assumption. lia. }
  assert (Hin : In e (flat_map faceEdges f6)).
  { subst f6. apply in_flat_map. exists fp. split.
    - apply in_or_app. left. apply in_or_app. right. left. reflexivity.
    - apply faceHasEdge_In. exact Hp. }
  split; [exact Hin |]. split; [exact Hinc |].
  intros Hw. specialize (Hw e Hin). lia.
Qed.

Lemma left_wall_edge_in_four_triangles_witness :
  let captured := [repeat 0 pointsPerSlice; repeat 0 pointsPerSlice] in
  exists m,
    buildOBJFromCaptured captured = Normal m /\
    let e := edgeOf (bins - 1) (length captured * bins + bins) in
    In e (flat_map faceEdges (faces m)) /\
    (4 <= incidence e (faces m))%nat /\
    ~ watertight (faces m).
Proof.
  intros captured.
  apply (left_wall_edge_in_four_triangles captured).
  unfold captured. cbn [length]. lia.
Defined.

(** ** Every face of the mesh is on three vertices of the mesh *)

Lemma validIdx_vertexAt v k : validIdx (length v) k -> exists p, vertexAt v k = Some p.
Proof.
  intros [H1 H2]. destruct k as [| a]; [lia |]. cbn [vertexAt].
  destruct (nth_error v a) as [p |] eqn:E.
  - exists p. reflexivity.
  - apply nth_error_None in E. lia.
Qed.

Lemma emitFace_valid n v f i1 i2 i3 desired matName :
  validIdx n i1 -> validIdx n i2 -> validIdx n i3 ->
  Forall (validFace n) f ->
  Forall (validFace n) (emitFace v f i1 i2 i3 desired matName).
Proof.
  intros H1 H2 H3 Hf.
  destruct (emitFace_app v f i1 i2 i3 desired matName) as (fc & E & [-> | ->]);
    rewrite E; apply Forall_app; (split; [exact Hf |]);
    (apply Forall_cons; [| apply Forall_nil]);
    unfold validFace; cbn [f1 f2 f3]; (split; [| split]); assumption.
Qed.

(** A loop that returns keeps what each of its turns keeps. *)
Lemma foldM_preserves {St A} (Inv : St -> Prop) (body : St -> A -> Completion St) l :
  (forall st a st', In a l -> body st a = Normal st' -> Inv st -> Inv st') ->
  forall st st', foldM body l st = Normal st' -> Inv st -> Inv st'.
Proof.
  induction l as [| a l IH]; intros Hbody st st' E Hst.
  - cbn [foldM] in E. injection E as <-. exact Hst.
  - rewrite foldM_cons in E. apply bind_normal_inv in E.
    destruct E as (st1 & E1 & E).
    apply (IH (fun s a0 s' Hin => Hbody s a0 s' (or_intror Hin)) st1 st' E).
    apply (Hbody st a st1 (or_introl eq_refl) E1 Hst).
Qed.

(** Split the first [bind] of a hypothesis that says a computation
    returned. *)
Ltac inv_bind H :=
  let x := fresh "k" in
  let E := fresh "E" in
  apply bind_normal_inv in H; destruct H as (x & E & H); cbv beta in H.

Ltac inv_binds H := repeat inv_bind H.

Lemma growW_bound flatCell vis j : forall cands iW r,
  growW flatCell vis j cands iW = Normal r -> r = iW \/ In r cands.
Proof.
  induction cands as [| k rest IH]; intros iW r E.
  - cbn [growW] in E. injection E as <-. left. reflexivity.
  - cbn [growW] in E. inv_bind E. destruct k0.
    + inv_bind E. destruct k0; cbn [negb] in E.
      * injection E as <-. left. reflexivity.
      * destruct (IH k r E) as [-> | Hin]; right; [left; reflexivity | right; exact Hin].
    + injection E as <-. left. reflexivity.
Qed.

Lemma growH_bound flatCell vis i iW : forall cands jH r,
  growH flatCell vis i iW cands jH = Normal r -> r = jH \/ In r cands.
Proof.
  induction cands as [| jn rest IH]; intros jH r E.
  - cbn [growH] in E. injection E as <-. left. reflexivity.
  - cbn [growH] in E. inv_bind E. destruct k.
    + destruct (IH jn r E) as [-> | Hin]; right; [left; reflexivity | right; exact Hin].
    + injection E as <-. left. reflexivity.
Qed.

Lemma jBoundary_lt : (jBoundary + 1 < bins)%nat.
Proof. unfold jBoundary. rewrite bins_val, activeRowsCount_val. cbn. lia. Qed.

Section ValidFaces.

Variable captured : list Slice.
Variable v : list Vec3.
Variables indexTop indexBottom : Table nat.
Variable yTop : Table R.
Variable baseMat : MatName.
Variable flatCell : Table bool.
Variable n : nat.

Hypothesis HindexTop : forall i j k,
  (j < bins)%nat -> get2 O indexTop i j = Normal k -> validIdx n k.
Hypothesis HindexBottom : forall i j k,
  (j < bins)%nat -> get2 O indexBottom i j = Normal k -> validIdx n k.

Lemma topCellFaces_valid st st' i j :
  (j < bins - 1)%nat ->
  topCellFaces captured v indexTop yTop baseMat flatCell st i j = Normal st' ->
  Forall (validFace n) (topFaces st) -> Forall (validFace n) (topFaces st').
Proof.
  clear HindexBottom.
  intros Hj E Hst. unfold topCellFaces in E.
  inv_bind E. destruct k.
  { injection E as <-. exact Hst. }
  inv_bind E. destruct k; cbn [negb] in E.
  - (* a flat cell *)
    inv_bind E. inv_bind E.
    match goal with
    | H : growH _ _ _ _ _ j = Normal ?r |- _ =>
        assert (HjH : (r < bins - 1)%nat)
          by (destruct (growH_bound _ _ _ _ _ _ _ H) as [-> | Hin];
              [exact Hj | apply in_seq in Hin; lia])
    end.
    inv_binds E. injection E as <-. cbn [topFaces].
    apply emitFace_valid; [| | | apply emitFace_valid; [| | | exact Hst]];
      (eapply HindexTop; [| eassumption]; lia).
  - (* a cell that is not flat *)
    inv_binds E.
    repeat match type of E with
           | context [materialNameForColor ?a ?b] =>
               destruct (materialNameForColor a b)
           end.
    inv_binds E. injection E as <-. cbn [topFaces].
    apply emitFace_valid; [| | | apply emitFace_valid; [| | | exact Hst]];
      (eapply HindexTop; [| eassumption]; lia).
Qed.

Lemma topSurface_valid st st' :
  topSurface captured v indexTop yTop baseMat flatCell st = Normal st' ->
  Forall (validFace n) (topFaces st) -> Forall (validFace n) (topFaces st').
Proof.
  clear HindexBottom.
  unfold topSurface.
  apply (foldM_preserves (fun s => Forall (validFace n) (topFaces s))).
  intros s j s' Hj. apply in_seq in Hj.
  apply (foldM_preserves (fun s => Forall (validFace n) (topFaces s))).
  intros s0 i s0' _. apply topCellFaces_valid. lia.
Qed.

Lemma frontSeam_valid f f' :
  frontSeam captured v indexTop baseMat f = Normal f' ->
  Forall (validFace n) f -> Forall (validFace n) f'.
Proof.
  clear HindexBottom.
  unfold frontSeam. apply (foldM_preserves (Forall (validFace n))).
  intros f0 i f0' _ E H0. inv_binds E. injection E as <-.
  pose proof jBoundary_lt.
  apply emitFace_valid; [| | | apply emitFace_valid; [| | | exact H0]];
    (eapply HindexTop; [| eassumption]; lia).
Qed.

Lemma bottomSurface_valid f f' :
  bottomSurface captured v indexBottom baseMat f = Normal f' ->
  Forall (validFace n) f -> Forall (validFace n) f'.
Proof.
  clear HindexTop.
  unfold bottomSurface. apply (foldM_preserves (Forall (validFace n))).
  intros f0 i f0' _. apply (foldM_preserves (Forall (validFace n))).
  intros f1 j f1' Hj E H1. apply in_seq in Hj. inv_binds E. injection E as <-.
  apply emitFace_valid; [| | | apply emitFace_valid; [| | | exact H1]];
    (eapply HindexBottom; [| eassumption]; lia).
Qed.

Lemma wallAlongX_valid j desired f f' :
  (j < bins)%nat ->
  wallAlongX captured v indexTop indexBottom baseMat j desired f = Normal f' ->
  Forall (validFace n) f -> Forall (validFace n) f'.
Proof.
  intros Hj. unfold wallAlongX. apply (foldM_preserves (Forall (validFace n))).
  intros f0 i f0' _ E H0. inv_binds E. injection E as <-.
  apply emitFace_valid; [| | | apply emitFace_valid; [| | | exact H0]];
    first [ eapply HindexTop; [| eassumption]; lia
          | eapply HindexBottom; [| eassumption]; lia ].
Qed.

Lemma sideBottoms_valid sides :
  sideBottoms captured indexBottom = Normal sides ->
  forall j, (j < bins)%nat ->
    validIdx n (nth j (fst sides) O) /\ validIdx n (nth j (snd sides) O).
Proof.
  clear HindexTop.
  intros E j Hj. unfold sideBottoms in E.
  inv_bind E. injection E as <-. cbn [fst snd].
  destruct (mapM_nth _ _ k E0 j j) as (b & Eb & Hb).
  { rewrite (nth_error_nth' (seq 0 bins) 0%nat) by (rewrite length_seq; exact Hj).
    rewrite seq_nth by exact Hj. reflexivity. }
  inv_binds Eb. injection Eb as <-.
  split.
  - rewrite (nth_error_nth (map fst k) j O (x := k0))
      by (rewrite nth_error_map, Hb; reflexivity).
    eapply HindexBottom; eassumption.
  - rewrite (nth_error_nth (map snd k) j O (x := k1))
      by (rewrite nth_error_map, Hb; reflexivity).
    eapply HindexBottom; eassumption.
Qed.

Lemma wallAlongZ_valid i sideBottom desired f f' :
  (forall j, (j < bins)%nat -> validIdx n (nth j sideBottom O)) ->
  wallAlongZ v indexTop baseMat i sideBottom desired f = Normal f' ->
  Forall (validFace n) f -> Forall (validFace n) f'.
Proof.
  clear HindexBottom.
  intros Hside. unfold wallAlongZ. apply (foldM_preserves (Forall (validFace n))).
  intros f0 j f0' Hj E H0. apply in_seq in Hj. inv_binds E. injection E as <-.
  apply emitFace_valid; [| | | apply emitFace_valid; [| | | exact H0]];
    first [ eapply HindexTop; [| eassumption]; lia | apply Hside; lia ].
Qed.

Lemma leftWall_valid sideBottomLeft f f' :
  (forall j, (j < bins)%nat -> validIdx n (nth j sideBottomLeft O)) ->
  leftWall v indexTop baseMat sideBottomLeft f = Normal f' ->
  Forall (validFace n) f -> Forall (validFace n) f'.
Proof.
  clear HindexBottom.
  intros Hside E Hf. unfold leftWall in E.
  inv_bind E. pose proof (wallAlongZ_valid _ _ _ _ _ Hside E0 Hf) as Hk.
  inv_binds E. injection E as <-.
  assert (Hb : (bins - 2 < bins /\ bins - 1 < bins)%nat) by (rewrite bins_val; lia).
  apply emitFace_valid; [| | | apply emitFace_valid; [| | | exact Hk]];
    first [ eapply HindexTop; [| eassumption]; lia | apply Hside; lia ].
Qed.

Lemma rightWall_valid sideBottomRight f f' :
  (forall j, (j < bins)%nat -> validIdx n (nth j sideBottomRight O)) ->
  rightWall captured v indexTop baseMat sideBottomRight f = Normal f' ->
  Forall (validFace n) f -> Forall (validFace n) f'.
Proof.
  clear HindexBottom.
  intros Hside E Hf. unfold rightWall in E.
  inv_bind E. pose proof (wallAlongZ_valid _ _ _ _ _ Hside E0 Hf) as Hk.
  inv_binds E. injection E as <-.
  assert (Hb : (bins - 2 < bins /\ bins - 1 < bins)%nat) by (rewrite bins_val; lia).
  apply emitFace_valid; [| | | apply emitFace_valid; [| | | exact Hk]];
    first [ eapply HindexTop; [| eassumption]; lia | apply Hside; lia ].
Qed.

End ValidFaces.

Lemma indexTopOf_valid captured i j k :
  (j < bins)%nat -> get2 O (indexTopOf captured) i j = Normal k ->
  validIdx (length (verticesOf captured)) k.
Proof.
  intros Hj E.
  destruct (Nat.lt_ge_cases i (slices captured)) as [Hi | Hi].
  - rewrite (indexTopOf_at captured i j Hi Hj) in E. injection E as <-.
    rewrite length_verticesOf.
    assert ((i + 1) * bins <= slices captured * bins)%nat
      by (apply Nat.mul_le_mono_r; lia).
    unfold validIdx. lia.
  - rewrite get2_none in E by (rewrite length_indexTopOf; exact Hi). discriminate.
Qed.

Lemma indexBottomOf_valid captured i j k :
  (j < bins)%nat -> get2 O (indexBottomOf captured) i j = Normal k ->
  validIdx (length (verticesOf captured)) k.
Proof.
  intros Hj E.
  destruct (Nat.lt_ge_cases i (slices captured)) as [Hi | Hi].
  - rewrite (indexBottomOf_at captured i j Hi Hj) in E. injection E as <-.
    rewrite length_verticesOf.
    assert ((i + 1) * bins <= slices captured * bins)%nat
      by (apply Nat.mul_le_mono_r; lia).
    unfold validIdx. lia.
  - rewrite get2_none in E by (rewrite length_indexBottomOf; exact Hi). discriminate.
Qed.

Lemma triangulate_valid captured v indexTop indexBottom yTop baseMat n materials m :
  (forall i j k, (j < bins)%nat -> get2 O indexTop i j = Normal k -> validIdx n k) ->
  (forall i j k, (j < bins)%nat -> get2 O indexBottom i j = Normal k -> validIdx n k) ->
  triangulate captured v indexTop yTop indexBottom materials baseMat = Normal m ->
  Forall (validFace n) (faces m).
Proof.
  intros HT HB E. unfold triangulate in E.
  assert (Hb : (0 < bins /\ bins - 1 < bins)%nat) by (rewrite bins_val; lia).
  inv_bind E. inv_bind E. cbv zeta in E.
  match goal with
  | H : topSurface _ _ _ _ _ _ _ = Normal ?st |- _ =>
      pose proof (topSurface_valid captured v indexTop yTop baseMat _ n HT _ _ H
                    (Forall_nil _)) as H0
  end.
  inv_bind E.
  match goal with
  | H : frontSeam _ _ _ _ _ = Normal _ |- _ =>
      pose proof (frontSeam_valid captured v indexTop baseMat n HT _ _ H H0) as H1
  end.
  inv_bind E.
  match goal with
  | H : bottomSurface _ _ _ _ _ = Normal _ |- _ =>
      pose proof (bottomSurface_valid captured v indexBottom baseMat n HB _ _ H H1) as H2
  end.
  inv_bind E.
  match goal with
  | H : backWall _ _ _ _ _ _ = Normal _ |- _ =>
      pose proof (wallAlongX_valid captured v indexTop indexBottom baseMat n HT HB
                    0 _ _ _ (proj1 Hb) H H2) as H3
  end.
  inv_bind E.
  match goal with
  | H : frontWall _ _ _ _ _ _ = Normal _ |- _ =>
      pose proof (wallAlongX_valid captured v indexTop indexBottom baseMat n HT HB
                    (bins - 1) _ _ _ (proj2 Hb) H H3) as H4
  end.
  inv_bind E.
  match goal with
  | H : sideBottoms _ _ = Normal _ |- _ =>
      pose proof (sideBottoms_valid captured indexBottom n HB _ H) as Hsides
  end.
  inv_bind E.
  match goal with
  | H : leftWall _ _ _ _ _ = Normal _ |- _ =>
      pose proof (leftWall_valid v indexTop baseMat n HT _ _ _
                    (fun j Hj => proj1 (Hsides j Hj)) H H4) as H5
  end.
  inv_bind E.
  match goal with
  | H : rightWall _ _ _ _ _ _ = Normal _ |- _ =>
      pose proof (rightWall_valid captured v indexTop baseMat n HT _ _ _
                    (fun j Hj => proj2 (Hsides j Hj)) H H5) as H6
  end.
  injection E as <-. exact H6.
Qed.

(** Whenever the builder returns, every face it emitted is on three
    vertices it pushed: no call of [emitFace] meets a missing vertex. *)
Lemma buildOBJFromCaptured_faces_valid captured m :
  buildOBJFromCaptured captured = Normal m ->
  vertices m = verticesOf captured /\
  Forall (validFace (length (vertices m))) (faces m) /\
  forall fc, In fc (faces m) ->
    exists p1 p2 p3,
      vertexAt (vertices m) (f1 fc) = Some p1 /\
      vertexAt (vertices m) (f2 fc) = Some p2 /\
      vertexAt (vertices m) (f3 fc) = Some p3.
Proof.
  intros E. rewrite buildOBJFromCaptured_eq in E.
  assert (Hv : vertices m = verticesOf captured).
  { unfold triangulate in E. inv_binds E. injection E as <-. reflexivity. }
  pose proof (triangulate_valid captured (verticesOf captured) (indexTopOf captured)
                (indexBottomOf captured) (yTopOf captured) _
                (length (verticesOf captured)) _ m
                (indexTopOf_valid captured) (indexBottomOf_valid captured) E)
    as Hvalid.
  rewrite Hv. split; [reflexivity |]. split; [exact Hvalid |].
  intros fc Hin. rewrite Forall_forall in Hvalid.
  destruct (Hvalid fc Hin) as (H1 & H2 & H3).
  destruct (validIdx_vertexAt _ _ H1) as [p1 E1].
  destruct (validIdx_vertexAt _ _ H2) as [p2 E2].
  destruct (validIdx_vertexAt _ _ H3) as [p3 E3].
  exists p1, p2, p3. repeat split; assumption.
Qed.

(* ================================================================== *)
(** * Further properties *)

(** ** Range of [Math.pow] on the unit interval *)

(** On the unit interval an exponent above 1 lowers the value. *)
Lemma Math_pow_le_base x e : 1 <= e -> 0 <= x <= 1 -> Math_pow x e <= x.
Proof.
  intros He [H0 H1].
  destruct (Req_dec_T x 0) as [-> | Hne].
  - rewrite Math_pow_0 by lra. lra.
  - rewrite Math_pow_pos by lra.
    replace e with (1 + (e - 1)) by ring.
    rewrite Rpower_plus, Rpower_1 by lra.
    assert (Hle : Rpower x (e - 1) <= 1) by (apply Rpower_le_1; lra).
    assert (Hpos : 0 < Rpower x (e - 1)) by (unfold Rpower; apply exp_pos).
    nra.
Qed.

(** ** Range of the frequency axis *)

(** X1.  Every entry of [zRowPositions] lies between [zMin] and [zMax]; row
    0 is at [zMin], and the last active row, [activeRows - 1], is already at
    [zMax], where all the collapsed rows are (the ends, -40 and 40, are
    stored as they are). *)
Theorem frequency_axis_range (z : nat) (Hz : (z < pointsPerSlice)%nat) :
  zMin <= nth z zRowPositions 0 <= zMax /\
  nth 0 zRowPositions 0 = zMin /\
  nth (activeRows - 1) zRowPositions 0 = zMax /\
  nth (activeRows - 1) zRowPositions 0 = nth activeRows zRowPositions 0.
Proof.
  pose proof activeRows_lt_pointsPerSlice as Hp.
  assert (H0 : nth 0 zRowPositions 0 = zMin).
  { rewrite zRowPositions_exact by (try lia; left; apply zRowPosition_first).
    apply zRowPosition_first. }
  assert (Hlast : nth (activeRows - 1) zRowPositions 0 = zMax).
  { rewrite zRowPositions_exact
      by (try lia; right; apply zRowPosition_last_active).
    apply zRowPosition_last_active. }
  split; [apply zRowPositions_range; exact Hz |].
  split; [exact H0 |].
  split; [exact Hlast |].
  rewrite Hlast.
  rewrite zRowPositions_exact
    by (try lia; right; apply zRowPosition_collapsed; lia).
  rewrite zRowPosition_collapsed by lia. reflexivity.
Qed.

Lemma frequency_axis_range_witness :
  zMin <= nth 40 zRowPositions 0 <= zMax /\
  nth 0 zRowPositions 0 = zMin /\
  nth (activeRows - 1) zRowPositions 0 = zMax /\
  nth (activeRows - 1) zRowPositions 0 = nth activeRows zRowPositions 0.
Proof.
  apply (frequency_axis_range 40). unfold pointsPerSlice. lia.
Defined.

(** X2.  In the export grid the boundary row adds no depth: grid rows
    [bins - 2] and [bins - 1] have the same z, [z0 + depth], in the top
    loop and in the bottom loop; the cells between them are vertical. *)
Theorem boundary_row_has_no_depth :
  topRowZ (bins - 2) = topRowZ (bins - 1) /\
  bottomRowZ (bins - 2) = bottomRowZ (bins - 1) /\
  topRowZ (bins - 1) = z0 + depth.
Proof.
  rewrite ?bottomRowZ_zRowPosition, ?topRowZ_zRowPosition.
  assert (H2 : (bins - 2 = activeRows - 1)%nat)
    by (rewrite bins_val, activeRows_val; reflexivity).
  assert (H1 : (bins - 1 = activeRows)%nat)
    by (rewrite bins_val, activeRows_val; reflexivity).
  rewrite H2, H1, zRowPosition_last_active, zRowPosition_collapsed by lia.
  unfold zMax, z0, depth. repeat split; lra.
Qed.

(** ** Range of the colour ramp *)

Lemma clamp_range t : 0 <= Math_min 1 (Math_max 0 t) <= 1.
Proof.
  unfold Math_min, Math_max. split.
  - apply Rmin_glb; [lra | apply Rmax_l].
  - apply Rmin_l.
Qed.

(** Decide the comparisons of the segment search one after the other. *)
Ltac split_leb :=
  match goal with
  | |- context [leb ?a ?b] =>
      let H := fresh "H" in
      destruct (Rle_dec a b) as [H | H];
      [ rewrite (leb_true a b H) | rewrite (leb_false a b H) ];
      cbn [andb]
  end.

Lemma findSegment_unit v :
  0 <= v <= 1 ->
  exists col, findSegment v ramp = Some col /\ unitColor col.
Proof.
  intros Hv. unfold ramp, findSegment, c0, c1, c2. cbn [s c fst snd].
  repeat (split_leb; try lra);
    (eexists; split; [reflexivity |]; unfold unitColor; cbn [cr cg cb];
     repeat split; lra).
Qed.

Lemma clamp_id t : 0 <= t <= 1 -> Math_min 1 (Math_max 0 t) = t.
Proof.
  intros [H0 H1]. unfold Math_min, Math_max.
  rewrite Rmax_right by exact H0. rewrite Rmin_right by exact H1. reflexivity.
Qed.

(** X3.  For every input the segment loop of [referenceColorRamp] returns
    from inside a segment (the fallback after the loop is never reached),
    and each channel of the colour is between 0 and 1. *)
Theorem color_ramp_in_unit_range (t : R) :
  (exists col, findSegment (Math_min 1 (Math_max 0 t)) ramp = Some col /\
               referenceColorRamp t = col) /\
  unitColor (referenceColorRamp t).
Proof.
  destruct (findSegment_unit _ (clamp_range t)) as (col & E & Hu).
  unfold referenceColorRamp. rewrite E.
  split; [exists col; split; reflexivity | exact Hu].
Qed.

(** X4.  At the position of each of its stops the ramp gives that stop's
    own colour: a position shared by two segments is served by the first,
    at its far end. *)
Theorem color_ramp_at_stops (st : Stop) (Hst : In st ramp) :
  referenceColorRamp (s st) = mkColor (c0 st) (c1 st) (c2 st).
Proof.
  unfold ramp in Hst. cbn [In] in Hst.
  repeat (destruct Hst as [<- | Hst]);
    unfold referenceColorRamp; cbn [s];
    rewrite clamp_id by lra;
    unfold ramp, findSegment, c0, c1, c2; cbn [s c fst snd];
    decide_leb; cbn [andb]; f_equal; lra.
Qed.

Lemma color_ramp_at_stops_witness :
  referenceColorRamp (s (mkStop 0.45 (1.00, 1.00, 0.00)))
  = mkColor (c0 (mkStop 0.45 (1.00, 1.00, 0.00)))
            (c1 (mkStop 0.45 (1.00, 1.00, 0.00)))
            (c2 (mkStop 0.45 (1.00, 1.00, 0.00))).
Proof.
  apply (color_ramp_at_stops (mkStop 0.45 (1.00, 1.00, 0.00))).
  unfold ramp. cbn [In]. right. right. right. left. reflexivity.
Defined.

(** ** Range of the normalised slice *)

Lemma sliceStride_val : sliceStride = 4%nat.
Proof. reflexivity. Qed.

(** X5.  The normalisation loop reads inside [freqData]: the index it
    samples is below [freqBinCount] for every row, and for the rows of a
    slice it is [4 * i], so the [Math.min] never cuts. *)
Theorem sampling_in_bounds (i : nat) :
  (srcIndex i < freqBinCount)%nat /\
  ((i < pointsPerSlice)%nat -> srcIndex i = (4 * i)%nat).
Proof.
  unfold srcIndex. rewrite sliceStride_val. unfold freqBinCount, pointsPerSlice.
  split; [| intros Hi]; lia.
Qed.

Lemma sampling_in_bounds_witness :
  (srcIndex 127 < freqBinCount)%nat /\ srcIndex 127 = (4 * 127)%nat.
Proof.
  split.
  - apply (proj1 (sampling_in_bounds 127)).
  - apply (proj2 (sampling_in_bounds 127)). unfold pointsPerSlice. lia.
Defined.

Lemma rawAt_range freqData i :
  byteData freqData -> (0 <= rawAt freqData i <= 255)%Z.
Proof.
  intros Hb. unfold rawAt.
  destruct (nth_in_or_default (srcIndex i) freqData 0%Z) as [Hin | ->]; [| lia].
  destruct Hb as [_ Hb]. rewrite Forall_forall in Hb. apply Hb. exact Hin.
Qed.

Lemma emphasizedBin_range freqData i :
  byteData freqData ->
  0 <= emphasizedBin freqData i <= 1 /\
  emphasizedBin freqData i <= IZR (rawAt freqData i) / 255.
Proof.
  intros Hb. pose proof (rawAt_range freqData i Hb) as [H0 H1].
  apply IZR_le in H0. apply IZR_le in H1.
  assert (Hbin : 0 <= IZR (rawAt freqData i) / 255 <= 1) by lra.
  unfold emphasizedBin. cbv zeta.
  destruct (ltb _ noiseFloor && (activeRows <=? i)%nat).
  - rewrite Math_pow_0 by lra. lra.
  - split.
    + apply Math_pow_range; lra.
    + apply Math_pow_le_base; lra.
Qed.

Lemma normalizeSlice_unit freqData :
  byteData freqData -> unitSlice (normalizeSlice freqData).
Proof.
  intros Hbytes. split; [apply normalizeSlice_length |].
  unfold normalizeSlice. apply Forall_map, Forall_forall. intros i _.
  apply emphasizedBin_range. exact Hbytes.
Qed.

Lemma sliceAt_unit (sl : Slice) z :
  unitSlice sl -> (z < pointsPerSlice)%nat -> 0 <= sliceAt sl z <= 1.
Proof.
  intros [Hlen Hall] Hz. rewrite Forall_forall in Hall.
  apply Hall. unfold sliceAt. apply nth_In. lia.
Qed.

(** X6.  From bytes, [normalizeSlice] makes a slice of [pointsPerSlice]
    amplitudes, each between 0 and 1 and none above the raw magnitude over
    255 it comes from: the exponent 1.2 only lowers values. *)
Theorem normalized_slice_range (freqData : FreqData) (Hbytes : byteData freqData) :
  unitSlice (normalizeSlice freqData) /\
  forall i, (i < pointsPerSlice)%nat ->
    0 <= sliceAt (normalizeSlice freqData) i <= 1 /\
    sliceAt (normalizeSlice freqData) i <= IZR (rawAt freqData i) / 255.
Proof.
  split; [apply normalizeSlice_unit; exact Hbytes |].
  intros i Hi. rewrite normalizeSlice_at by exact Hi.
  apply emphasizedBin_range. exact Hbytes.
Qed.

Lemma normalized_slice_range_witness :
  unitSlice (normalizeSlice (repeat 200%Z 512)) /\
  forall i, (i < pointsPerSlice)%nat ->
    0 <= sliceAt (normalizeSlice (repeat 200%Z 512)) i <= 1 /\
    sliceAt (normalizeSlice (repeat 200%Z 512)) i
    <= IZR (rawAt (repeat 200%Z 512) i) / 255.
Proof.
  apply (normalized_slice_range (repeat 200%Z 512)).
  split; [apply repeat_length |].
  apply Forall_forall. intros b Hb.
  apply repeat_spec in Hb. subst b. lia.
Defined.

(** ** The capture history under the ticks *)

Lemma update_capturedSlices st freqData :
  capturedSlices (updateSurfaceFromFrequencies st freqData)
  = if isCapturing st then capturedSlices st ++ [normalizeSlice freqData]
    else capturedSlices st.
Proof.
  unfold updateSurfaceFromFrequencies.
  destruct (shiftAndAppend pointsPerSlice numSlices (normalizeSlice freqData)
              (positionAttr st, colors st)) as [p cl].
  reflexivity.
Qed.

Lemma update_flags st freqData :
  isCapturing (updateSurfaceFromFrequencies st freqData) = isCapturing st /\
  hasEnded (updateSurfaceFromFrequencies st freqData) = hasEnded st /\
  geometry (updateSurfaceFromFrequencies st freqData) = geometry st.
Proof.
  unfold updateSurfaceFromFrequencies.
  destruct (shiftAndAppend pointsPerSlice numSlices (normalizeSlice freqData)
              (positionAttr st, colors st)) as [p cl].
  repeat split.
Qed.

(** X7.  Over any run of ticks the flags and the displayed geometry stay
    as they are; while capturing, the history is the old history followed by
    the normalised slice of each tick in order, and while not capturing it
    does not change. *)
Theorem capture_appends (fds : list FreqData) (st : State) :
  let st' := fold_left updateSurfaceFromFrequencies fds st in
  capturedSlices st'
  = (if isCapturing st then capturedSlices st ++ map normalizeSlice fds
     else capturedSlices st) /\
  isCapturing st' = isCapturing st /\
  hasEnded st' = hasEnded st /\
  geometry st' = geometry st.
Proof.
  cbv zeta. revert st. induction fds as [| fd fds IH]; intros st.
  - cbn [fold_left map]. rewrite app_nil_r.
    destruct (isCapturing st); repeat split.
  - rewrite fold_left_cons.
    destruct (IH (updateSurfaceFromFrequencies st fd)) as (Hc & Hi & He & Hg).
    destruct (update_flags st fd) as (Hi1 & He1 & Hg1).
    rewrite Hc, Hi, He, Hg, Hi1, He1, Hg1, update_capturedSlices.
    repeat split. cbn [map].
    destruct (isCapturing st); [rewrite <- app_assoc |]; reflexivity.
Qed.

(** ** Slices in the history are unit slices *)

Lemma resetVisualization_capturedSlices st :
  capturedSlices (resetVisualization st) = capturedSlices st.
Proof.
  unfold resetVisualization.
  destruct (fold_left _ _ _) as [p cl]. destruct (geometry st); reflexivity.
Qed.

Lemma resetClick_capturedSlices st : capturedSlices (resetClick st) = [].
Proof. unfold resetClick. rewrite resetVisualization_capturedSlices. reflexivity. Qed.

Lemma synthesize_capturedSlices st :
  capturedSlices (synthesizeCapturedFromSurface st)
  = map (fun x =>
           map (fun z =>
                  Math_max 0
                    (Math_min 1
                       (getCh 1 (geometryPosition st)
                          (z * Nat.max 2 (length (geometryPosition st) / 3 / pointsPerSlice)
                           + x)
                        / (depth * heightScale))))
               (seq 0 pointsPerSlice))
        (seq 0 (Nat.max 2 (length (geometryPosition st) / 3 / pointsPerSlice))).
Proof.
  unfold synthesizeCapturedFromSurface. cbn [capturedSlices].
  rewrite fold_left_snoc. reflexivity.
Qed.

Lemma clamp01_range y : 0 <= Math_max 0 (Math_min 1 y) <= 1.
Proof.
  unfold Math_max, Math_min. split.
  - apply Rmax_l.
  - apply Rmax_lub; [lra | apply Rmin_l].
Qed.

Lemma clamp01_id y : 0 <= y <= 1 -> Math_max 0 (Math_min 1 y) = y.
Proof.
  intros [H0 H1]. unfold Math_max, Math_min.
  rewrite Rmin_right by exact H1. rewrite Rmax_right by exact H0. reflexivity.
Qed.

Lemma synthesize_unit st :
  Forall unitSlice (capturedSlices (synthesizeCapturedFromSurface st)).
Proof.
  rewrite synthesize_capturedSlices. apply Forall_map, Forall_forall.
  intros x _. split.
  - rewrite length_map, length_seq. reflexivity.
  - apply Forall_map, Forall_forall. intros z _. apply clamp01_range.
Qed.

(** The sampling [synthesizeCapturedFromSurface] does reads vertex
    [z * slices + x] for [z < pointsPerSlice] and [x < slices]; with at
    least two slices of vertices in the displayed geometry every read is
    inside the position array. *)
Lemma synthesize_reads_inside n z x :
  (2 * pointsPerSlice <= n / 3)%nat -> (z < pointsPerSlice)%nat ->
  (x < Nat.max 2 (n / 3 / pointsPerSlice))%nat ->
  ((z * Nat.max 2 (n / 3 / pointsPerSlice) + x) * 3 + 1 < n)%nat.
Proof.
  generalize pointsPerSlice as r. intros r Hn Hz Hx.
  assert (Hr : (0 < r)%nat) by lia.
  assert (H2 : (2 <= n / 3 / r)%nat).
  { apply Nat.div_le_lower_bound; lia. }
  rewrite Nat.max_r in * by exact H2.
  set (q := (n / 3 / r)%nat) in *.
  assert (Hq : (r * q <= n / 3)%nat) by apply Nat.Div0.mul_div_le.
  assert (H3 : (3 * (n / 3) <= n)%nat) by apply Nat.Div0.mul_div_le.
  assert (Hzq : (z * q + x < r * q)%nat) by nia.
  lia.
Qed.

(** X8.  Every slice of the history is a unit slice ([pointsPerSlice]
    amplitudes between 0 and 1) and stays one.  From a state whose history
    holds unit slices and whose displayed geometry has the vertices of two
    slices or more: a tick on bytes keeps the history so, a reset empties
    it, the sampling of the displayed geometry reads inside the position
    array and makes only unit slices, and an export hands the builder
    unit slices. *)
Theorem history_holds_unit_slices (st : State)
  (Hgeom : (2 * pointsPerSlice <= length (geometryPosition st) / 3)%nat)
  (Hhist : Forall unitSlice (capturedSlices st)) :
  (forall freqData,
     byteData freqData ->
     Forall unitSlice (capturedSlices (updateSurfaceFromFrequencies st freqData))) /\
  capturedSlices (resetClick st) = [] /\
  (forall z x,
     (z < pointsPerSlice)%nat ->
     (x < Nat.max 2 (length (geometryPosition st) / 3 / pointsPerSlice))%nat ->
     ((z * Nat.max 2 (length (geometryPosition st) / 3 / pointsPerSlice) + x) * 3 + 1
      < length (geometryPosition st))%nat) /\
  Forall unitSlice (capturedSlices (synthesizeCapturedFromSurface st)) /\
  Forall unitSlice (capturedSlices (fst (exportClick st))).
Proof.
  split; [| split; [| split; [| split]]].
  - intros fd Hb. rewrite update_capturedSlices.
    destruct (isCapturing st); [| exact Hhist].
    apply Forall_app. split; [exact Hhist |].
    apply Forall_cons; [| apply Forall_nil].
    apply normalizeSlice_unit. exact Hb.
  - apply resetClick_capturedSlices.
  - intros z x. apply synthesize_reads_inside. exact Hgeom.
  - apply synthesize_unit.
  - unfold exportClick. cbn [fst].
    destruct (length (capturedSlices st) <? 2)%nat; [apply synthesize_unit | exact Hhist].
Qed.

Lemma history_holds_unit_slices_witness :
  Forall unitSlice
    (capturedSlices
       (fst (exportClick
               (mkState (repeat 0 (pointsPerSlice * 2 * 3)) [] InitialGeometry []
                        true false)))).
Proof.
  apply (history_holds_unit_slices
           (mkState (repeat 0 (pointsPerSlice * 2 * 3)) [] InitialGeometry []
                    true false)).
  - unfold geometryPosition. cbn [geometry positionAttr].
    rewrite repeat_length, Nat.div_mul by discriminate. lia.
  - apply Forall_nil.
Defined.

(** ** Reset *)

Lemma fold_left_seq_S {A} (f : A -> nat -> A) n a :
  fold_left f (seq 0 (S n)) a = f (fold_left f (seq 0 n) a) n.
Proof. rewrite seq_S, fold_left_app. reflexivity. Qed.

(** The loop of [resetVisualization] over the first [n] vertices. *)
Lemma resetLoop_spec (r g b : R) (p cl : list R) (n : nat) :
  let pc := fold_left (fun (pc : list R * list R) (i : nat) =>
                         let '(p, cl) := pc in
                         (setCh 1 p i 0, setCh 2 (setCh 1 (setCh 0 cl i r) i g) i b))
                      (seq 0 n) (p, cl) in
  length (fst pc) = length p /\ length (snd pc) = length cl /\
  (forall v, getCh 0 (fst pc) v = getCh 0 p v /\ getCh 2 (fst pc) v = getCh 2 p v) /\
  (forall v, (v < n)%nat -> (v * 3 + 2 < length p)%nat -> getCh 1 (fst pc) v = 0) /\
  (forall v, (v < n)%nat -> (v * 3 + 2 < length cl)%nat ->
     getCh 0 (snd pc) v = r /\ getCh 1 (snd pc) v = g /\ getCh 2 (snd pc) v = b) /\
  (forall v, (n <= v)%nat ->
     getCh 1 (fst pc) v = getCh 1 p v /\
     forall o, (o < 3)%nat -> getCh o (snd pc) v = getCh o cl v).
Proof.
  induction n as [| n IH].
  - cbn [seq fold_left fst snd]. repeat split; intros; lia.
  - rewrite fold_left_seq_S. cbv zeta in IH.
    destruct (fold_left _ (seq 0 n) (p, cl)) as [p1 cl1]. cbn [fst snd] in *.
    destruct IH as (Lp & Lc & Hxz & Hy & Hcol & Hrest).
    split; [rewrite setCh_length; exact Lp |].
    split; [rewrite !setCh_length; exact Lc |].
    split.
    { intros v. rewrite !getCh_setCh_other by lia. apply Hxz. }
    split.
    { intros v Hv Hin. destruct (Nat.eq_dec v n) as [-> | Hne].
      - apply getCh_setCh_same. lia.
      - rewrite getCh_setCh_other by lia. apply Hy; lia. }
    split.
    { intros v Hv Hin. destruct (Nat.eq_dec v n) as [-> | Hne].
      - split; [| split].
        + rewrite !(getCh_setCh_other _ 0) by lia.
          apply getCh_setCh_same. lia.
        + rewrite (getCh_setCh_other 2 1) by lia.
          apply getCh_setCh_same. rewrite setCh_length. lia.
        + apply getCh_setCh_same. rewrite !setCh_length. lia.
      - rewrite !getCh_setCh_other by lia. apply Hcol; lia. }
    intros v Hv. split.
    + rewrite getCh_setCh_other by lia. apply Hrest. lia.
    + intros o Ho. rewrite !getCh_setCh_other by lia. apply Hrest; lia.
Qed.

Lemma resetVisualization_eq st :
  let pc := fold_left (fun (pc : list R * list R) (i : nat) =>
                         let '(p, cl) := pc in
                         (setCh 1 p i 0,
                          setCh 2 (setCh 1 (setCh 0 cl i 0.15) i 0.15) i 0.15))
                      (seq 0 (length (positionAttr st) / 3))
                      (geometryPosition st, colors st) in
  geometryPosition (resetVisualization st) = fst pc /\
  colors (resetVisualization st) = snd pc /\
  isCapturing (resetVisualization st) = isCapturing st /\
  hasEnded (resetVisualization st) = hasEnded st.
Proof.
  unfold resetVisualization. cbv zeta. cbn [cr cg cb].
  destruct (fold_left _ _ _) as [p1 cl1].
  unfold geometryPosition. destruct (geometry st); repeat split.
Qed.

Lemma resetClick_spec st :
  capturedSlices (resetClick st) = [] /\
  isCapturing (resetClick st) = false /\
  hasEnded (resetClick st) = false /\
  length (geometryPosition (resetClick st)) = length (geometryPosition st) /\
  length (colors (resetClick st)) = length (colors st) /\
  (forall v,
     getCh 0 (geometryPosition (resetClick st)) v = getCh 0 (geometryPosition st) v /\
     getCh 2 (geometryPosition (resetClick st)) v = getCh 2 (geometryPosition st) v) /\
  (forall v, (v < length (positionAttr st) / 3)%nat ->
     (v * 3 + 2 < length (geometryPosition st))%nat ->
     getCh 1 (geometryPosition (resetClick st)) v = 0) /\
  (forall v, (v < length (positionAttr st) / 3)%nat ->
     (v * 3 + 2 < length (colors st))%nat ->
     getCh 0 (colors (resetClick st)) v = 0.15 /\
     getCh 1 (colors (resetClick st)) v = 0.15 /\
     getCh 2 (colors (resetClick st)) v = 0.15) /\
  (forall v, (length (positionAttr st) / 3 <= v)%nat ->
     getCh 1 (geometryPosition (resetClick st)) v = getCh 1 (geometryPosition st) v /\
     forall o, (o < 3)%nat -> getCh o (colors (resetClick st)) v = getCh o (colors st) v).
Proof.
  split; [apply resetClick_capturedSlices |].
  unfold resetClick.
  set (st0 := mkState (positionAttr st) (colors st) (geometry st) [] false false).
  destruct (resetVisualization_eq st0) as (Ep & Ec & Ei & Ee).
  rewrite Ep, Ec, Ei, Ee.
  change (geometryPosition st0) with (geometryPosition st).
  change (positionAttr st0) with (positionAttr st).
  change (colors st0) with (colors st).
  split; [reflexivity |]. split; [reflexivity |].
  apply (resetLoop_spec 0.15 0.15 0.15 (geometryPosition st) (colors st)
           (length (positionAttr st) / 3)).
Qed.

(** X9.  The reset button empties the history, clears both flags, and for
    every vertex its loop visits (the first [positionAttr.count] ones) sets
    the height in the geometry now displayed to 0 and the entries of the
    [colors] array to the grey (0.15, 0.15, 0.15); the x and z of every
    vertex, the array lengths and the vertices past [positionAttr.count]
    are left as they were. *)
Theorem reset_flattens (st : State) (v : nat)
  (Hv : (v < length (positionAttr st) / 3)%nat)
  (Hpos : (v * 3 + 2 < length (geometryPosition st))%nat)
  (Hcol : (v * 3 + 2 < length (colors st))%nat) :
  let st' := resetClick st in
  capturedSlices st' = [] /\ isCapturing st' = false /\ hasEnded st' = false /\
  vertexOf (geometryPosition st', colors st') v = (0, mkColor 0.15 0.15 0.15) /\
  getCh 0 (geometryPosition st') v = getCh 0 (geometryPosition st) v /\
  getCh 2 (geometryPosition st') v = getCh 2 (geometryPosition st) v /\
  length (geometryPosition st') = length (geometryPosition st) /\
  length (colors st') = length (colors st) /\
  (forall w, (length (positionAttr st) / 3 <= w)%nat ->
     vertexOf (geometryPosition st', colors st') w
     = vertexOf (geometryPosition st, colors st) w).
Proof.
  cbv zeta.
  destruct (resetClick_spec st) as (Hc & Hi & He & Lp & Lc & Hxz & Hy & Hg & Hrest).
  split; [exact Hc |]. split; [exact Hi |]. split; [exact He |].
  split.
  { unfold vertexOf. cbn [fst snd].
    destruct (Hg v Hv Hcol) as (-> & -> & ->). rewrite (Hy v Hv Hpos). reflexivity. }
  split; [apply Hxz |]. split; [apply Hxz |].
  split; [exact Lp |]. split; [exact Lc |].
  intros w Hw. unfold vertexOf. cbn [fst snd].
  destruct (Hrest w Hw) as [-> Ho]. rewrite !Ho by lia. reflexivity.
Qed.

Lemma reset_flattens_witness :
  vertexOf
    (geometryPosition (resetClick (mkState [1; 7; 2; 3; 9; 4] [1; 1; 1; 0; 0; 0]
                                           InitialGeometry [[1]] true true)),
     colors (resetClick (mkState [1; 7; 2; 3; 9; 4] [1; 1; 1; 0; 0; 0]
                                 InitialGeometry [[1]] true true))) 1
  = (0, mkColor 0.15 0.15 0.15).
Proof.
  apply (reset_flattens
           (mkState [1; 7; 2; 3; 9; 4] [1; 1; 1; 0; 0; 0] InitialGeometry [[1]] true true)
           1%nat).
  - cbn. lia.
  - cbn. lia.
  - cbn. lia.
Defined.

(** ** Sampling the live surface *)

Lemma nth_map_seq {B} (f : nat -> B) n x d :
  (x < n)%nat -> nth x (map f (seq 0 n)) d = f x.
Proof.
  intros Hx.
  rewrite (nth_indep _ d (f 0%nat)) by (rewrite length_map, length_seq; exact Hx).
  rewrite map_nth, seq_nth by exact Hx. reflexivity.
Qed.

Lemma sized_dims rows rowSize (pc : Buffer) :
  (0 < rows)%nat -> sized rows rowSize pc ->
  (length (fst pc) / 3 / rows)%nat = rowSize.
Proof.
  intros Hr [Hp _]. rewrite Hp.
  rewrite Nat.div_mul by discriminate.
  rewrite Nat.mul_comm. apply Nat.div_mul. lia.
Qed.

Lemma pointsPerSlice_pos : (0 < pointsPerSlice)%nat.
Proof. unfold pointsPerSlice. lia. Qed.

Lemma numSlices_ge_2 : (2 <= numSlices)%nat.
Proof. unfold numSlices. lia. Qed.

(** On the initial plane the sampling takes [numSlices] columns, and
    column [x] is read from the live buffer. *)
Lemma synthesize_initial st :
  geometry st = InitialGeometry ->
  sized pointsPerSlice numSlices (bufferOf st) ->
  capturedSlices (synthesizeCapturedFromSurface st)
  = map (fun x =>
           map (fun z =>
                  Math_max 0
                    (Math_min 1
                       (fst (cellOf numSlices (bufferOf st) z x)
                        / (depth * heightScale))))
               (seq 0 pointsPerSlice))
        (seq 0 numSlices).
Proof.
  intros Hg Hs. rewrite synthesize_capturedSlices.
  unfold geometryPosition. rewrite Hg.
  change (positionAttr st) with (fst (bufferOf st)).
  rewrite (sized_dims _ _ _ pointsPerSlice_pos Hs).
  rewrite (Nat.max_r _ _ numSlices_ge_2). reflexivity.
Qed.

(** ** Export right after a reset *)

Lemma map_seq_const {B} (f : nat -> B) (c : B) n :
  (forall x, (x < n)%nat -> f x = c) -> map f (seq 0 n) = repeat c n.
Proof.
  intros H. apply (nth_ext _ _ c c).
  - rewrite length_map, length_seq, repeat_length. reflexivity.
  - intros x Hx. rewrite length_map, length_seq in Hx.
    rewrite nth_map_seq, nth_repeat by exact Hx. apply H. exact Hx.
Qed.

Lemma resetClick_geometry_initial st :
  geometry st = InitialGeometry ->
  geometry (resetClick st) = InitialGeometry /\
  positionAttr (resetClick st) = geometryPosition (resetClick st).
Proof.
  intros Hg. unfold resetClick, resetVisualization. cbv zeta.
  cbn [geometry positionAttr colors capturedSlices isCapturing hasEnded].
  destruct (fold_left _ _ _) as [p1 cl1]. rewrite Hg.
  split; reflexivity.
Qed.

(** X11.  Reset, then export, on the initial plane: the history the
    export builds from is [numSlices] slices of [pointsPerSlice] zeros,
    whatever the surface showed before the reset, and the builder returns
    a mesh for it. *)
Theorem export_after_reset_is_flat (st : State)
  (Hgeom : geometry st = InitialGeometry)
  (Hsized : sized pointsPerSlice numSlices (bufferOf st)) :
  capturedSlices (fst (exportClick (resetClick st)))
  = repeat (repeat 0 pointsPerSlice) numSlices /\
  exists m, snd (exportClick (resetClick st)) = Normal m.
Proof.
  rename Hgeom into Hg, Hsized into Hs.
  destruct (resetClick_spec st) as (Hc & _ & _ & Lp & Lc & _ & Hy & _).
  destruct (resetClick_geometry_initial st Hg) as [Hg1 Hp1].
  assert (Hgp : geometryPosition st = positionAttr st)
    by (unfold geometryPosition; rewrite Hg; reflexivity).
  rewrite Hgp in *.
  destruct Hs as [Hsp Hsc]. cbn [bufferOf fst snd] in Hsp, Hsc.
  assert (Hs1 : sized pointsPerSlice numSlices (bufferOf (resetClick st))).
  { split; cbn [bufferOf fst snd].
    - rewrite Hp1, Lp. exact Hsp.
    - rewrite Lc. exact Hsc. }
  assert (Hsyn : capturedSlices (synthesizeCapturedFromSurface (resetClick st))
                 = repeat (repeat 0 pointsPerSlice) numSlices).
  { rewrite (synthesize_initial _ Hg1 Hs1).
    apply map_seq_const. intros x Hx.
    apply map_seq_const. intros z Hz.
    unfold cellOf, vertexOf. cbn [fst bufferOf]. rewrite Hp1.
    rewrite Hy.
    - unfold Rdiv. rewrite Rmult_0_l. apply clamp01_id. lra.
    - rewrite Hsp, Nat.div_mul by discriminate. nia.
    - rewrite Hsp. nia. }
  unfold exportClick. rewrite Hc. cbn [length Nat.ltb Nat.leb fst snd].
  split; [exact Hsyn |].
  destruct (buildOBJFromCaptured_returns
              (capturedSlices (synthesizeCapturedFromSurface (resetClick st))))
    as (m & Em & _).
  - rewrite synthesize_length. pose proof (Nat.le_max_l 2
      (length (geometryPosition (resetClick st)) / 3 / pointsPerSlice)). lia.
  - exists m. exact Em.
Qed.

Lemma export_after_reset_is_flat_witness :
  capturedSlices
    (fst (exportClick
            (resetClick
               (mkState (repeat 5 (pointsPerSlice * numSlices * 3))
                        (repeat 1 (pointsPerSlice * numSlices * 3))
                        InitialGeometry [] true false))))
  = repeat (repeat 0 pointsPerSlice) numSlices.
Proof.
  apply (export_after_reset_is_flat
           (mkState (repeat 5 (pointsPerSlice * numSlices * 3))
                    (repeat 1 (pointsPerSlice * numSlices * 3))
                    InitialGeometry [] true false)).
  - reflexivity.
  - split; apply repeat_length.
Defined.

(** ** The vertices of the mesh *)

Lemma flatEps_pos : 0 < flatEps.
Proof. unfold flatEps, depth, heightScale. lra. Qed.

(** The height the top-vertex loop stores is 0 or at least [flatEps]. *)
Lemma topVertexArgs_height x sl j :
  vX (fst (topVertexArgs x sl j)) = x /\
  vZ (fst (topVertexArgs x sl j)) = topRowZ j /\
  (vY (fst (topVertexArgs x sl j)) = 0 \/ flatEps <= vY (fst (topVertexArgs x sl j))).
Proof.
  unfold topVertexArgs. cbv zeta. cbn [fst vX vY vZ].
  split; [reflexivity |]. split; [reflexivity |].
  set (y := _ * depth * heightScale).
  unfold ltb. destruct (Rlt_dec y flatEps) as [Hlt | Hge]; [left; reflexivity |].
  right. lra.
Qed.

Lemma topVertexArgs_height_unit x sl j :
  unitSlice sl -> vY (fst (topVertexArgs x sl j)) <= depth * heightScale.
Proof.
  intros Hsl. unfold topVertexArgs. cbv zeta. cbn [fst vY].
  assert (Hamp : 0 <= (if (j <? activeRowsCount)%nat then sliceAt sl j else 0) <= 1).
  { destruct (Nat.ltb_spec j activeRowsCount) as [Hj | Hj]; [| lra].
    apply sliceAt_unit; [exact Hsl |].
    rewrite activeRowsCount_val in Hj. unfold pointsPerSlice. lia. }
  set (amp := if (j <? activeRowsCount)%nat then sliceAt sl j else 0) in *.
  unfold ltb. destruct (Rlt_dec (amp * depth * heightScale) flatEps);
    unfold depth, heightScale in *; nra.
Qed.

(** X12.  The vertex grid.  The builder pushes [2 * slices * bins]
    vertices: the top vertex of slice [i], row [j] is vertex number
    [i * bins + j + 1], and the bottom vertex of the same grid point, number
    [slices * bins + i * bins + j + 1], lies straight below it (same x, same
    z) at [y = - baseThickness].  The top height is 0 or at least
    [flatEps], so the solid is at least [baseThickness] thick; for a unit
    slice the top is at most [depth * heightScale] high.  The grid is
    centred: slice [i] is at [x = dx * (i - (slices - 1) / 2)]. *)
Theorem vertex_grid_layout (captured : list Slice) (i j : nat) (sl : Slice)
  (Hsl : nth_error captured i = Some sl) (Hj : (j < bins)%nat) :
  exists m top bottom,
    buildOBJFromCaptured captured = Normal m /\
    length (vertices m) = (2 * (slices captured * bins))%nat /\
    get2 O (indexTopOf captured) i j = Normal (i * bins + j + 1)%nat /\
    get2 O (indexBottomOf captured) i j
    = Normal (slices captured * bins + i * bins + j + 1)%nat /\
    vertexAt (vertices m) (i * bins + j + 1) = Some top /\
    vertexAt (vertices m) (slices captured * bins + i * bins + j + 1) = Some bottom /\
    vX top = dx * (INR i - (INR (slices captured) - 1) / 2) /\
    vX bottom = vX top /\ vZ bottom = vZ top /\ vZ top = topRowZ j /\
    vY bottom = - baseThickness /\
    (vY top = 0 \/ flatEps <= vY top) /\
    baseThickness <= vY top - vY bottom /\
    (unitSlice sl -> vY top <= depth * heightScale).
Proof.
  assert (Hi : (i < slices captured)%nat)
    by (unfold slices; apply nth_error_Some; rewrite Hsl; discriminate).
  destruct (buildOBJFromCaptured_returns captured) as (m & Em & Hv).
  { unfold slices in Hi. lia. }
  exists m, (topVertex captured (i, sl) j), (bottomVertex captured i j).
  split; [exact Em |].
  split; [rewrite Hv; apply length_verticesOf |].
  split; [apply indexTopOf_at; assumption |].
  split; [apply indexBottomOf_at; assumption |].
  split; [rewrite Hv; apply vertexAt_top; assumption |].
  split; [rewrite Hv; apply vertexAt_bottom; assumption |].
  unfold topVertex, bottomVertex. cbn [fst snd vX vY vZ].
  destruct (topVertexArgs_height (x0 captured + dx * INR i) sl j) as (Ex & Ez & Hy).
  rewrite Ex, Ez.
  split; [unfold x0, exportWidth; lra |].
  split; [reflexivity |].
  split; [rewrite bottomRowZ_zRowPosition, topRowZ_zRowPosition; reflexivity |].
  split; [reflexivity |]. split; [reflexivity |].
  split; [exact Hy |].
  split.
  - pose proof flatEps_pos. destruct Hy as [-> | Hy]; lra.
  - apply topVertexArgs_height_unit.
Qed.

Lemma vertex_grid_layout_witness :
  exists m top bottom,
    buildOBJFromCaptured [repeat 1%R pointsPerSlice; repeat 0%R pointsPerSlice] = Normal m /\
    length (vertices m)
    = (2 * (slices [repeat 1%R pointsPerSlice; repeat 0%R pointsPerSlice] * bins))%nat /\
    get2 O (indexTopOf [repeat 1%R pointsPerSlice; repeat 0%R pointsPerSlice]) 1 5
    = Normal (1 * bins + 5 + 1)%nat /\
    get2 O (indexBottomOf [repeat 1%R pointsPerSlice; repeat 0%R pointsPerSlice]) 1 5
    = Normal (slices [repeat 1%R pointsPerSlice; repeat 0%R pointsPerSlice] * bins
              + 1 * bins + 5 + 1)%nat /\
    vertexAt (vertices m) (1 * bins + 5 + 1) = Some top /\
    vertexAt (vertices m)
             (slices [repeat 1%R pointsPerSlice; repeat 0%R pointsPerSlice] * bins
              + 1 * bins + 5 + 1) = Some bottom /\
    vX top = dx * (INR 1 - (INR (slices [repeat 1%R pointsPerSlice;
                                         repeat 0%R pointsPerSlice]) - 1) / 2) /\
    vX bottom = vX top /\ vZ bottom = vZ top /\ vZ top = topRowZ 5 /\
    vY bottom = - baseThickness /\
    (vY top = 0 \/ flatEps <= vY top) /\
    baseThickness <= vY top - vY bottom /\
    (unitSlice (repeat 0%R pointsPerSlice) -> vY top <= depth * heightScale).
Proof.
  apply (vertex_grid_layout [repeat 1%R pointsPerSlice; repeat 0%R pointsPerSlice]
           1%nat 5%nat (repeat 0%R pointsPerSlice)).
  - reflexivity.
  - rewrite bins_val. lia.
Defined.

(** ** No face names a vertex twice *)

Lemma emitFace_distinct v f i1 i2 i3 desired matName :
  i1 <> i2 -> i2 <> i3 -> i1 <> i3 ->
  Forall distinctFace f ->
  Forall distinctFace (emitFace v f i1 i2 i3 desired matName).
Proof.
  intros H1 H2 H3 Hf.
  destruct (emitFace_app v f i1 i2 i3 desired matName) as (fc & E & [-> | ->]);
    rewrite E; apply Forall_app; (split; [exact Hf |]);
    (apply Forall_cons; [| apply Forall_nil]);
    unfold distinctFace; cbn [f1 f2 f3]; (split; [| split]); congruence.
Qed.

Lemma growW_ge flatCell vis j i cands r :
  growW flatCell vis j cands i = Normal r ->
  (forall k, In k cands -> (i <= k)%nat) -> (i <= r)%nat.
Proof.
  intros E Hc. destruct (growW_bound _ _ _ _ _ _ E) as [-> | Hin];
    [apply le_n | apply Hc; exact Hin].
Qed.

Lemma growH_ge flatCell vis i iW j cands r :
  growH flatCell vis i iW cands j = Normal r ->
  (forall k, In k cands -> (j <= k < bins - 1)%nat) -> (j < bins - 1)%nat ->
  (j <= r < bins - 1)%nat.
Proof.
  intros E Hc Hj. destruct (growH_bound _ _ _ _ _ _ _ E) as [-> | Hin];
    [lia | apply Hc; exact Hin].
Qed.

Section DistinctFaces.

Variable captured : list Slice.
Variable v : list Vec3.
Variables indexTop indexBottom : Table nat.
Variable yTop : Table R.
Variable baseMat : MatName.
Variable flatCell : Table bool.

Hypothesis HindexTop : forall i j k,
  (j < bins)%nat -> get2 O indexTop i j = Normal k ->
  k = (i * bins + j + 1)%nat /\ (i < slices captured)%nat.
Hypothesis HindexBottom : forall i j k,
  (j < bins)%nat -> get2 O indexBottom i j = Normal k ->
  k = (slices captured * bins + i * bins + j + 1)%nat.

(** Replace the indices read from the tables by their values. *)
Ltac known_indices :=
  repeat match goal with
         | H : get2 O indexTop _ _ = Normal _ |- _ =>
             apply HindexTop in H; [destruct H as [-> ?] | lia]
         | H : get2 O indexBottom _ _ = Normal _ |- _ =>
             apply HindexBottom in H; [subst | lia]
         end.

Ltac distinct_indices :=
  apply emitFace_distinct; [| | | apply emitFace_distinct; [| | | assumption]];
  rewrite bins_val in *; lia.

Lemma topCellFaces_distinct st st' i j :
  (j < bins - 1)%nat ->
  topCellFaces captured v indexTop yTop baseMat flatCell st i j = Normal st' ->
  Forall distinctFace (topFaces st) -> Forall distinctFace (topFaces st').
Proof.
  clear HindexBottom.
  intros Hj E Hst. unfold topCellFaces in E.
  inv_bind E. destruct k.
  { injection E as <-. exact Hst. }
  inv_bind E. destruct k; cbn [negb] in E.
  - (* a flat cell *)
    inv_bind E. inv_bind E.
    match goal with
    | H : growW _ _ _ _ i = Normal ?r |- _ =>
        assert (HiW : (i <= r)%nat)
          by (apply (growW_ge _ _ _ _ _ _ H); intros ? Hin; apply in_seq in Hin; lia)
    end.
    match goal with
    | H : growH _ _ _ _ _ j = Normal ?r |- _ =>
        assert (HjH : (j <= r < bins - 1)%nat)
          by (apply (growH_ge _ _ _ _ _ _ _ H); [| exact Hj];
              intros ? Hin; apply in_seq in Hin; lia)
    end.
    inv_binds E. injection E as <-. cbn [topFaces].
    known_indices. distinct_indices.
  - (* a cell that is not flat *)
    inv_binds E.
    repeat match type of E with
           | context [materialNameForColor ?a ?b] =>
               destruct (materialNameForColor a b)
           end.
    inv_binds E. injection E as <-. cbn [topFaces].
    known_indices. distinct_indices.
Qed.

Lemma topSurface_distinct st st' :
  topSurface captured v indexTop yTop baseMat flatCell st = Normal st' ->
  Forall distinctFace (topFaces st) -> Forall distinctFace (topFaces st').
Proof.
  clear HindexBottom.
  unfold topSurface.
  apply (foldM_preserves (fun s => Forall distinctFace (topFaces s))).
  intros s j s' Hj. apply in_seq in Hj.
  apply (foldM_preserves (fun s => Forall distinctFace (topFaces s))).
  intros s0 i s0' _. apply topCellFaces_distinct. lia.
Qed.

Lemma frontSeam_distinct f f' :
  frontSeam captured v indexTop baseMat f = Normal f' ->
  Forall distinctFace f -> Forall distinctFace f'.
Proof.
  clear HindexBottom.
  unfold frontSeam. apply (foldM_preserves (Forall distinctFace)).
  intros f0 i f0' _ E H0. inv_binds E. injection E as <-.
  pose proof jBoundary_lt.
  known_indices. distinct_indices.
Qed.

Lemma bottomSurface_distinct f f' :
  bottomSurface captured v indexBottom baseMat f = Normal f' ->
  Forall distinctFace f -> Forall distinctFace f'.
Proof.
  clear HindexTop.
  unfold bottomSurface. apply (foldM_preserves (Forall distinctFace)).
  intros f0 i f0' _. apply (foldM_preserves (Forall distinctFace)).
  intros f1 j f1' Hj E H1. apply in_seq in Hj. inv_binds E. injection E as <-.
  known_indices. distinct_indices.
Qed.

Lemma wallAlongX_distinct j desired f f' :
  (j < bins)%nat ->
  wallAlongX captured v indexTop indexBottom baseMat j desired f = Normal f' ->
  Forall distinctFace f -> Forall distinctFace f'.
Proof.
  intros Hj. unfold wallAlongX. apply (foldM_preserves (Forall distinctFace)).
  intros f0 i f0' _ E H0. inv_binds E. injection E as <-.
  known_indices. distinct_indices.
Qed.

Lemma sideBottoms_at sides :
  sideBottoms captured indexBottom = Normal sides ->
  forall j, (j < bins)%nat ->
    nth j (fst sides) O = (slices captured * bins + 0 * bins + j + 1)%nat /\
    nth j (snd sides) O
    = (slices captured * bins + (slices captured - 1) * bins + j + 1)%nat.
Proof.
  clear HindexTop.
  intros E j Hj. unfold sideBottoms in E.
  inv_bind E. injection E as <-. cbn [fst snd].
  destruct (mapM_nth _ _ k E0 j j) as (b & Eb & Hb).
  { rewrite (nth_error_nth' (seq 0 bins) 0%nat) by (rewrite length_seq; exact Hj).
    rewrite seq_nth by exact Hj. reflexivity. }
  inv_binds Eb. injection Eb as <-.
  split.
  - rewrite (nth_error_nth (map fst k) j O (x := k0))
      by (rewrite nth_error_map, Hb; reflexivity).
    eapply HindexBottom; eassumption.
  - rewrite (nth_error_nth (map snd k) j O (x := k1))
      by (rewrite nth_error_map, Hb; reflexivity).
    eapply HindexBottom; eassumption.
Qed.

Lemma wallAlongZ_distinct i i0 sideBottom desired f f' :
  (forall j, (j < bins)%nat ->
     nth j sideBottom O = (slices captured * bins + i0 * bins + j + 1)%nat) ->
  wallAlongZ v indexTop baseMat i sideBottom desired f = Normal f' ->
  Forall distinctFace f -> Forall distinctFace f'.
Proof.
  clear HindexBottom.
  intros Hside. unfold wallAlongZ. apply (foldM_preserves (Forall distinctFace)).
  intros f0 j f0' Hj E H0. apply in_seq in Hj. inv_binds E. injection E as <-.
  known_indices. rewrite !Hside by lia.
  assert ((i + 1) * bins <= slices captured * bins)%nat
    by (apply Nat.mul_le_mono_r; lia).
  distinct_indices.
Qed.

Lemma leftWall_distinct i0 sideBottomLeft f f' :
  (forall j, (j < bins)%nat ->
     nth j sideBottomLeft O = (slices captured * bins + i0 * bins + j + 1)%nat) ->
  leftWall v indexTop baseMat sideBottomLeft f = Normal f' ->
  Forall distinctFace f -> Forall distinctFace f'.
Proof.
  clear HindexBottom.
  intros Hside E Hf. unfold leftWall in E.
  inv_bind E. pose proof (wallAlongZ_distinct _ _ _ _ _ _ Hside E0 Hf) as Hk.
  inv_binds E. injection E as <-.
  assert (Hb : (bins - 2 < bins /\ bins - 1 < bins)%nat) by (rewrite bins_val; lia).
  known_indices. rewrite !Hside by lia.
  distinct_indices.
Qed.

Lemma rightWall_distinct i0 sideBottomRight f f' :
  (forall j, (j < bins)%nat ->
     nth j sideBottomRight O = (slices captured * bins + i0 * bins + j + 1)%nat) ->
  rightWall captured v indexTop baseMat sideBottomRight f = Normal f' ->
  Forall distinctFace f -> Forall distinctFace f'.
Proof.
  clear HindexBottom.
  intros Hside E Hf. unfold rightWall in E.
  inv_bind E. pose proof (wallAlongZ_distinct _ _ _ _ _ _ Hside E0 Hf) as Hk.
  inv_binds E. injection E as <-.
  assert (Hb : (bins - 2 < bins /\ bins - 1 < bins)%nat) by (rewrite bins_val; lia).
  known_indices. rewrite !Hside by lia.
  assert ((slices captured - 1 + 1) * bins <= slices captured * bins)%nat
    by (apply Nat.mul_le_mono_r; lia).
  distinct_indices.
Qed.

End DistinctFaces.

Lemma indexTopOf_exact captured i j k :
  (j < bins)%nat -> get2 O (indexTopOf captured) i j = Normal k ->
  k = (i * bins + j + 1)%nat /\ (i < slices captured)%nat.
Proof.
  intros Hj E.
  destruct (Nat.lt_ge_cases i (slices captured)) as [Hi | Hi].
  - rewrite (indexTopOf_at captured i j Hi Hj) in E. injection E as <-.
    split; [reflexivity | exact Hi].
  - rewrite get2_none in E by (rewrite length_indexTopOf; exact Hi). discriminate.
Qed.

Lemma indexBottomOf_exact captured i j k :
  (j < bins)%nat -> get2 O (indexBottomOf captured) i j = Normal k ->
  k = (slices captured * bins + i * bins + j + 1)%nat.
Proof.
  intros Hj E.
  destruct (Nat.lt_ge_cases i (slices captured)) as [Hi | Hi].
  - rewrite (indexBottomOf_at captured i j Hi Hj) in E. injection E as <-.
    reflexivity.
  - rewrite get2_none in E by (rewrite length_indexBottomOf; exact Hi). discriminate.
Qed.

Lemma triangulate_distinct captured v indexTop indexBottom yTop baseMat materials m :
  (forall i j k, (j < bins)%nat -> get2 O indexTop i j = Normal k ->
     k = (i * bins + j + 1)%nat /\ (i < slices captured)%nat) ->
  (forall i j k, (j < bins)%nat -> get2 O indexBottom i j = Normal k ->
     k = (slices captured * bins + i * bins + j + 1)%nat) ->
  triangulate captured v indexTop yTop indexBottom materials baseMat = Normal m ->
  Forall distinctFace (faces m).
Proof.
  intros HT HB E. unfold triangulate in E.
  assert (Hb : (0 < bins /\ bins - 1 < bins)%nat) by (rewrite bins_val; lia).
  inv_bind E. inv_bind E. cbv zeta in E.
  match goal with
  | H : topSurface _ _ _ _ _ _ _ = Normal ?st |- _ =>
      pose proof (topSurface_distinct captured v indexTop yTop baseMat _ HT _ _ H
                    (Forall_nil _)) as H0
  end.
  inv_bind E.
  match goal with
  | H : frontSeam _ _ _ _ _ = Normal _ |- _ =>
      pose proof (frontSeam_distinct captured v indexTop baseMat HT _ _ H H0) as H1
  end.
  inv_bind E.
  match goal with
  | H : bottomSurface _ _ _ _ _ = Normal _ |- _ =>
      pose proof (bottomSurface_distinct captured v indexBottom baseMat HB _ _ H H1) as H2
  end.
  inv_bind E.
  match goal with
  | H : backWall _ _ _ _ _ _ = Normal _ |- _ =>
      pose proof (wallAlongX_distinct captured v indexTop indexBottom baseMat HT HB
                    0 _ _ _ (proj1 Hb) H H2) as H3
  end.
  inv_bind E.
  match goal with
  | H : frontWall _ _ _ _ _ _ = Normal _ |- _ =>
      pose proof (wallAlongX_distinct captured v indexTop indexBottom baseMat HT HB
                    (bins - 1) _ _ _ (proj2 Hb) H H3) as H4
  end.
  inv_bind E.
  match goal with
  | H : sideBottoms _ _ = Normal _ |- _ =>
      pose proof (sideBottoms_at captured indexBottom HB _ H) as Hsides
  end.
  inv_bind E.
  match goal with
  | H : leftWall _ _ _ _ _ = Normal _ |- _ =>
      pose proof (leftWall_distinct captured v indexTop baseMat HT _ _ _ _
                    (fun j Hj => proj1 (Hsides j Hj)) H H4) as H5
  end.
  inv_bind E.
  match goal with
  | H : rightWall _ _ _ _ _ _ = Normal _ |- _ =>
      pose proof (rightWall_distinct captured v indexTop baseMat HT _ _ _ _
                    (fun j Hj => proj2 (Hsides j Hj)) H H5) as H6
  end.
  injection E as <-. exact H6.
Qed.

(** X13.  For a history of one slice or more the builder returns a mesh in
    which every face is a triangle on three different vertices of the
    mesh: its three indices are pairwise different and each is between 1
    and the number of vertices, so each names a vertex that was pushed. *)
Theorem faces_on_three_vertices (captured : list Slice)
  (Hs : (1 <= length captured)%nat) :
  exists m,
    buildOBJFromCaptured captured = Normal m /\
    forall fc, In fc (faces m) ->
      distinctFace fc /\ validFace (length (vertices m)) fc /\
      exists p1 p2 p3,
        vertexAt (vertices m) (f1 fc) = Some p1 /\
        vertexAt (vertices m) (f2 fc) = Some p2 /\
        vertexAt (vertices m) (f3 fc) = Some p3.
Proof.
  destruct (buildOBJFromCaptured_returns captured Hs) as (m & Em & _).
  exists m. split; [exact Em |].
  destruct (buildOBJFromCaptured_faces_valid captured m Em) as (_ & Hvalid & Hat).
  assert (Hd : Forall distinctFace (faces m)).
  { rewrite buildOBJFromCaptured_eq in Em.
    apply (triangulate_distinct captured _ _ _ _ _ _ m
             (indexTopOf_exact captured) (indexBottomOf_exact captured) Em). }
  rewrite Forall_forall in Hvalid, Hd.
  intros fc Hin. split; [apply Hd; exact Hin |].
  split; [apply Hvalid; exact Hin | apply Hat; exact Hin].
Qed.

Lemma faces_on_three_vertices_witness :
  exists m,
    buildOBJFromCaptured [repeat 1 pointsPerSlice; repeat 0 pointsPerSlice] = Normal m /\
    forall fc, In fc (faces m) ->
      distinctFace fc /\ validFace (length (vertices m)) fc /\
      exists p1 p2 p3,
        vertexAt (vertices m) (f1 fc) = Some p1 /\
        vertexAt (vertices m) (f2 fc) = Some p2 /\
        vertexAt (vertices m) (f3 fc) = Some p3.
Proof.
  apply (faces_on_three_vertices [repeat 1 pointsPerSlice; repeat 0 pointsPerSlice]).
  cbn [length]. lia.
Defined.

(** ** Materials *)

Lemma matNameEqb_eq a b : matNameEqb a b = true <-> a = b.
Proof.
  destruct a as [[a1 a2] a3], b as [[b1 b2] b3]. unfold matNameEqb.
  rewrite !andb_true_iff, !Z.eqb_eq. split.
  - intros [[-> ->] ->]. reflexivity.
  - intros E. injection E as -> -> ->. repeat split.
Qed.

Lemma matNameEqb_refl a : matNameEqb a a = true.
Proof. apply matNameEqb_eq. reflexivity. Qed.

Lemma materialsGet_In m k x : materialsGet m k = Some x -> In (k, x) m.
Proof.
  induction m as [| [k0 x0] m IH]; cbn [materialsGet]; [discriminate |].
  destruct (matNameEqb k0 k) eqn:E.
  - intros [= <-]. apply matNameEqb_eq in E. subst k0. left. reflexivity.
  - intros H. right. apply IH. exact H.
Qed.

Lemma materialsGet_None m k : materialsGet m k = None -> ~ In k (map fst m).
Proof.
  induction m as [| [k0 x0] m IH]; cbn [materialsGet map fst In]; [tauto |].
  destruct (matNameEqb k0 k) eqn:E; [discriminate |].
  intros H [-> | Hin].
  - rewrite matNameEqb_refl in E. discriminate.
  - exact (IH H Hin).
Qed.

Lemma materialsGet_app m e k x :
  materialsGet m k = Some x -> materialsGet (m ++ e) k = Some x.
Proof.
  induction m as [| [k0 x0] m IH]; cbn [materialsGet app]; [discriminate |].
  destruct (matNameEqb k0 k); [trivial | exact IH].
Qed.

Lemma materialsGet_new m k x :
  materialsGet m k = None -> materialsGet (m ++ [(k, x)]) k = Some x.
Proof.
  induction m as [| [k0 x0] m IH]; cbn [materialsGet app].
  - intros _. rewrite matNameEqb_refl. reflexivity.
  - destruct (matNameEqb k0 k); [discriminate | exact IH].
Qed.

Lemma definedIn_app m e n : definedIn m n -> definedIn (m ++ e) n.
Proof.
  intros (x & E & Hn). exists x. split; [apply materialsGet_app; exact E | exact Hn].
Qed.

(** [Math.round] of a number is within one half of it. *)
Lemma Math_round_near y : IZR (Math_round y) - / 2 <= y < IZR (Math_round y) + / 2.
Proof.
  unfold Math_round. destruct (base_Int_part (y + / 2)) as [H1 H2]. lra.
Qed.

Lemma Math_round_byte y : 0 <= y <= 255 -> (0 <= Math_round y <= 255)%Z.
Proof.
  intros [H0 H1]. destruct (Math_round_near y) as [Ha Hb]. split.
  - assert (H : (-1 < Math_round y)%Z) by (apply lt_IZR; lra). lia.
  - assert (H : (Math_round y < 256)%Z) by (apply lt_IZR; lra). lia.
Qed.

Lemma Math_round_IZR (n : Z) y : IZR n - / 2 <= y < IZR n + / 2 -> Math_round y = n.
Proof.
  intros [H1 H2]. unfold Math_round. symmetry. apply Int_part_spec. lra.
Qed.

Lemma colorKey_keyed col :
  keyedEntry (colorKey col,
              mkMaterial (colorKey col)
                (IZR (fst (fst (colorKey col))) / 255)
                (IZR (snd (fst (colorKey col))) / 255)
                (IZR (snd (colorKey col)) / 255)).
Proof.
  unfold keyedEntry, colorKey. cbn [fst snd name mr mg mb].
  split; [reflexivity |].
  repeat split;
    try (apply Math_round_byte;
         match goal with
         | |- 0 <= Math_max 0 (Math_min 1 ?y) * 255 <= _ =>
             pose proof (clamp01_range y); lra
         end);
    try (apply Math_round_byte;
         match goal with
         | |- context [Math_max 0 (Math_min 1 ?y)] =>
             pose proof (clamp01_range y); lra
         end).
Qed.

(** What one call of [materialNameForColor] does to the Map. *)
Lemma materialNameForColor_spec m col :
  wellKeyed m ->
  snd (materialNameForColor m col) = colorKey col /\
  wellKeyed (fst (materialNameForColor m col)) /\
  definedIn (fst (materialNameForColor m col)) (colorKey col) /\
  (fst (materialNameForColor m col) = m \/
   (materialsGet m (colorKey col) = None /\
    fst (materialNameForColor m col)
    = m ++ [(colorKey col,
             mkMaterial (colorKey col)
               (IZR (fst (fst (colorKey col))) / 255)
               (IZR (snd (fst (colorKey col))) / 255)
               (IZR (snd (colorKey col)) / 255))])).
Proof.
  intros [Hnd Hk]. unfold materialNameForColor. cbv zeta.
  fold (colorKey col). set (key := colorKey col).
  change (Math_round (Math_max 0 (Math_min 1 (cr col)) * 255)) with (fst (fst key)).
  change (Math_round (Math_max 0 (Math_min 1 (cg col)) * 255)) with (snd (fst key)).
  change (Math_round (Math_max 0 (Math_min 1 (cb col)) * 255)) with (snd key).
  unfold materialsHas.
  destruct (materialsGet m key) as [x |] eqn:E; cbn [negb fst snd].
  - rewrite E.
    assert (Hx : name x = key).
    { apply materialsGet_In in E. rewrite Forall_forall in Hk.
      specialize (Hk _ E). unfold keyedEntry in Hk. cbn [fst snd] in Hk.
      destruct key as [[ir ig] ib]. apply Hk. }
    split; [exact Hx |]. split; [split; assumption |].
    split; [exists x; split; assumption | left; reflexivity].
  - rewrite materialsGet_new by exact E. cbn [name].
    split; [reflexivity |].
    split.
    { split.
      - rewrite map_app. cbn [map fst].
        apply NoDup_app; [exact Hnd | apply NoDup_cons; [intros [] | apply NoDup_nil] |].
        intros k Hin [<- | []]. exact (materialsGet_None _ _ E Hin).
      - apply Forall_app. split; [exact Hk |].
        apply Forall_cons; [apply colorKey_keyed | apply Forall_nil]. }
    split.
    { eexists. split; [apply materialsGet_new; exact E | reflexivity]. }
    right. split; reflexivity.
Qed.

Lemma colorKey_baseColor : colorKey baseColor = (179, 179, 179)%Z.
Proof.
  unfold colorKey, baseColor. cbn [cr cg cb].
  rewrite clamp01_id by lra.
  rewrite (Math_round_IZR 179) by lra. reflexivity.
Qed.

Lemma baseKey_val :
  (Math_round (cr baseColor * 255), Math_round (cg baseColor * 255),
   Math_round (cb baseColor * 255)) = (179, 179, 179)%Z.
Proof.
  unfold baseColor. cbn [cr cg cb].
  rewrite (Math_round_IZR 179) by lra. reflexivity.
Qed.

Lemma emitFace_fmat (Q : MatName -> Prop) v f i1 i2 i3 desired matName :
  Q matName -> Forall (fun fc => Q (fmat fc)) f ->
  Forall (fun fc => Q (fmat fc)) (emitFace v f i1 i2 i3 desired matName).
Proof.
  intros Hq Hf.
  destruct (emitFace_app v f i1 i2 i3 desired matName) as (fc & E & [-> | ->]);
    rewrite E; apply Forall_app; (split; [exact Hf |]);
    (apply Forall_cons; [exact Hq | apply Forall_nil]).
Qed.

Section FaceMaterials.

Variable captured : list Slice.
Variable v : list Vec3.
Variables indexTop indexBottom : Table nat.
Variable yTop : Table R.
Variable baseMat : MatName.
Variable flatCell : Table bool.

Lemma topCellFaces_materials m0 st st' i j :
  definedIn m0 baseMat ->
  topCellFaces captured v indexTop yTop baseMat flatCell st i j = Normal st' ->
  materialsInv m0 st -> materialsInv m0 st'.
Proof.
  intros Hbase E (Hwk & (extra & Hext) & Hf). unfold topCellFaces in E.
  assert (Hb : definedIn (topMaterials st) baseMat)
    by (rewrite Hext; apply definedIn_app; exact Hbase).
  inv_bind E. destruct k.
  { injection E as <-. split; [exact Hwk |]. split; [exists extra; exact Hext | exact Hf]. }
  inv_bind E. destruct k; cbn [negb] in E.
  - (* a flat cell *)
    inv_binds E. injection E as <-. cbn [topFaces topMaterials].
    split; [exact Hwk |]. split; [exists extra; exact Hext |].
    apply emitFace_fmat; [exact Hb |]. apply emitFace_fmat; [exact Hb | exact Hf].
  - (* a cell that is not flat *)
    do 8 inv_bind E. cbv zeta in E.
    match type of E with
    | context [materialNameForColor (topMaterials st) ?c1] =>
        destruct (materialNameForColor_spec (topMaterials st) c1 Hwk)
          as (En1 & Hwk1 & Hd1 & Hm1);
        destruct (materialNameForColor (topMaterials st) c1) as [m1 n1]
    end.
    cbn [fst snd] in *.
    match type of E with
    | context [materialNameForColor m1 ?c2] =>
        destruct (materialNameForColor_spec m1 c2 Hwk1)
          as (En2 & Hwk2 & Hd2 & Hm2);
        destruct (materialNameForColor m1 c2) as [m2 n2]
    end.
    cbn [fst snd] in *.
    inv_binds E. injection E as <-. cbn [topFaces topMaterials].
    assert (Hx1 : exists e1, m1 = topMaterials st ++ e1).
    { destruct Hm1 as [-> | [_ ->]]; [exists []; rewrite app_nil_r | eexists]; reflexivity. }
    assert (Hx2 : exists e2, m2 = m1 ++ e2).
    { destruct Hm2 as [-> | [_ ->]]; [exists []; rewrite app_nil_r | eexists]; reflexivity. }
    destruct Hx1 as [e1 Hx1], Hx2 as [e2 Hx2].
    split; [exact Hwk2 |].
    split; [exists (extra ++ e1 ++ e2); rewrite Hx2, Hx1, Hext, <- !app_assoc; reflexivity |].
    apply emitFace_fmat; [rewrite En2; exact Hd2 |].
    apply emitFace_fmat.
    + rewrite En1, Hx2. apply definedIn_app. exact Hd1.
    + rewrite Hx2, Hx1, <- app_assoc.
      eapply Forall_impl; [| exact Hf].
      intros fc Hfc. apply definedIn_app. exact Hfc.
Qed.

Lemma topSurface_materials m0 st st' :
  definedIn m0 baseMat ->
  topSurface captured v indexTop yTop baseMat flatCell st = Normal st' ->
  materialsInv m0 st -> materialsInv m0 st'.
Proof.
  intros Hbase. unfold topSurface.
  apply (foldM_preserves (materialsInv m0)).
  intros s j s' _.
  apply (foldM_preserves (materialsInv m0)).
  intros s0 i s0' _. apply topCellFaces_materials. exact Hbase.
Qed.

Variable Q : MatName -> Prop.
Hypothesis HQ : Q baseMat.

Ltac base_faces :=
  apply emitFace_fmat; [exact HQ |]; apply emitFace_fmat; [exact HQ | assumption].

Lemma frontSeam_fmat f f' :
  frontSeam captured v indexTop baseMat f = Normal f' ->
  Forall (fun fc => Q (fmat fc)) f -> Forall (fun fc => Q (fmat fc)) f'.
Proof.
  unfold frontSeam. apply (foldM_preserves (Forall (fun fc => Q (fmat fc)))).
  intros f0 i f0' _ E H0. inv_binds E. injection E as <-. base_faces.
Qed.

Lemma bottomSurface_fmat f f' :
  bottomSurface captured v indexBottom baseMat f = Normal f' ->
  Forall (fun fc => Q (fmat fc)) f -> Forall (fun fc => Q (fmat fc)) f'.
Proof.
  unfold bottomSurface. apply (foldM_preserves (Forall (fun fc => Q (fmat fc)))).
  intros f0 i f0' _. apply (foldM_preserves (Forall (fun fc => Q (fmat fc)))).
  intros f1 j f1' _ E H1. inv_binds E. injection E as <-. base_faces.
Qed.

Lemma wallAlongX_fmat j desired f f' :
  wallAlongX captured v indexTop indexBottom baseMat j desired f = Normal f' ->
  Forall (fun fc => Q (fmat fc)) f -> Forall (fun fc => Q (fmat fc)) f'.
Proof.
  unfold wallAlongX. apply (foldM_preserves (Forall (fun fc => Q (fmat fc)))).
  intros f0 i f0' _ E H0. inv_binds E. injection E as <-. base_faces.
Qed.

Lemma wallAlongZ_fmat i sideBottom desired f f' :
  wallAlongZ v indexTop baseMat i sideBottom desired f = Normal f' ->
  Forall (fun fc => Q (fmat fc)) f -> Forall (fun fc => Q (fmat fc)) f'.
Proof.
  unfold wallAlongZ. apply (foldM_preserves (Forall (fun fc => Q (fmat fc)))).
  intros f0 j f0' _ E H0. inv_binds E. injection E as <-. base_faces.
Qed.

Lemma leftWall_fmat sideBottomLeft f f' :
  leftWall v indexTop baseMat sideBottomLeft f = Normal f' ->
  Forall (fun fc => Q (fmat fc)) f -> Forall (fun fc => Q (fmat fc)) f'.
Proof.
  intros E Hf. unfold leftWall in E.
  inv_bind E. pose proof (wallAlongZ_fmat _ _ _ _ _ E0 Hf) as Hk.
  inv_binds E. injection E as <-. base_faces.
Qed.

Lemma rightWall_fmat sideBottomRight f f' :
  rightWall captured v indexTop baseMat sideBottomRight f = Normal f' ->
  Forall (fun fc => Q (fmat fc)) f -> Forall (fun fc => Q (fmat fc)) f'.
Proof.
  intros E Hf. unfold rightWall in E.
  inv_bind E. pose proof (wallAlongZ_fmat _ _ _ _ _ E0 Hf) as Hk.
  inv_binds E. injection E as <-. base_faces.
Qed.

End FaceMaterials.

Lemma triangulate_materials captured v indexTop indexBottom yTop baseMat materials m :
  wellKeyed materials -> definedIn materials baseMat ->
  materialsGet materials (179, 179, 179)%Z <> None ->
  triangulate captured v indexTop yTop indexBottom materials baseMat = Normal m ->
  wellKeyed (meshMaterials m) /\
  (exists extra, meshMaterials m = materials ++ extra) /\
  Forall (fun fc => definedIn (meshMaterials m) (fmat fc)) (faces m).
Proof.
  intros Hwk Hbase Hkey E. unfold triangulate in E.
  inv_bind E. inv_bind E. cbv zeta in E.
  match goal with
  | H : topSurface _ _ _ _ _ _ _ = Normal ?st |- _ =>
      destruct (topSurface_materials captured v indexTop yTop baseMat _ materials
                  _ _ Hbase H) as (Hwk' & (extra & Hext) & H0);
        [split; [exact Hwk |]; split; [exists []; symmetry; apply app_nil_r |];
         apply Forall_nil |];
      set (ms := topMaterials st) in *
  end.
  assert (Hb : definedIn ms baseMat)
    by (rewrite Hext; apply definedIn_app; exact Hbase).
  inv_bind E.
  match goal with
  | H : frontSeam _ _ _ _ _ = Normal _ |- _ =>
      pose proof (frontSeam_fmat captured v indexTop baseMat _ Hb _ _ H H0) as H1
  end.
  inv_bind E.
  match goal with
  | H : bottomSurface _ _ _ _ _ = Normal _ |- _ =>
      pose proof (bottomSurface_fmat captured v indexBottom baseMat _ Hb _ _ H H1) as H2
  end.
  inv_bind E.
  match goal with
  | H : backWall _ _ _ _ _ _ = Normal _ |- _ =>
      pose proof (wallAlongX_fmat captured v indexTop indexBottom baseMat _ Hb
                    _ _ _ _ H H2) as H3
  end.
  inv_bind E.
  match goal with
  | H : frontWall _ _ _ _ _ _ = Normal _ |- _ =>
      pose proof (wallAlongX_fmat captured v indexTop indexBottom baseMat _ Hb
                    _ _ _ _ H H3) as H4
  end.
  inv_bind E. inv_bind E.
  match goal with
  | H : leftWall _ _ _ _ _ = Normal _ |- _ =>
      pose proof (leftWall_fmat v indexTop baseMat _ Hb _ _ _ H H4) as H5
  end.
  inv_bind E.
  match goal with
  | H : rightWall _ _ _ _ _ _ = Normal _ |- _ =>
      pose proof (rightWall_fmat captured v indexTop baseMat _ Hb _ _ _ H H5) as H6
  end.
  rewrite baseKey_val in E.
  assert (Hhas : materialsHas ms (179, 179, 179)%Z = true).
  { unfold materialsHas.
    destruct (materialsGet materials (179, 179, 179)%Z) as [x |] eqn:Ex;
      [| contradiction].
    rewrite Hext, (materialsGet_app _ _ _ _ Ex). reflexivity. }
  rewrite Hhas in E. cbn [negb] in E.
  injection E as <-. cbn [meshMaterials faces].
  split; [exact Hwk' |]. split; [exists extra; exact Hext | exact H6].
Qed.

Lemma wellKeyed_nil : wellKeyed [].
Proof. split; [apply NoDup_nil | apply Forall_nil]. Qed.

Lemma materialNameForColor_base :
  materialNameForColor [] baseColor
  = ([((179, 179, 179)%Z,
       mkMaterial (179, 179, 179)%Z (179 / 255) (179 / 255) (179 / 255))],
     (179, 179, 179)%Z).
Proof.
  destruct (materialNameForColor_spec [] baseColor wellKeyed_nil)
    as (En & _ & Hd & Hm).
  rewrite colorKey_baseColor in *. cbn [fst snd app] in Hm.
  destruct (materialNameForColor [] baseColor) as [m n]. cbn [fst snd] in *.
  subst n. f_equal.
  destruct Hm as [-> | [_ ->]]; [| reflexivity].
  destruct Hd as (x & Ex & _). discriminate.
Qed.

(** X14.  The materials of the mesh.  For a history of one slice or more
    the mesh the builder returns has a material defined, under its own
    name, for every face; the materials have pairwise different keys, each
    is named after its key and has its key's three bytes over 255 as
    colour; the first one is the base material, of key 179_179_179 and so of
    colour 179/255 in each channel (the later step that would define it with
    [baseColor]'s 0.7 finds it present and adds nothing). *)
Theorem materials_cover_faces (captured : list Slice)
  (Hs : (1 <= length captured)%nat) :
  exists m,
    buildOBJFromCaptured captured = Normal m /\
    wellKeyed (meshMaterials m) /\
    (exists rest,
       meshMaterials m
       = ((179, 179, 179)%Z,
          mkMaterial (179, 179, 179)%Z (179 / 255) (179 / 255) (179 / 255)) :: rest) /\
    forall fc, In fc (faces m) -> definedIn (meshMaterials m) (fmat fc).
Proof.
  destruct (buildOBJFromCaptured_returns captured Hs) as (m & Em & _).
  exists m. split; [exact Em |].
  rewrite buildOBJFromCaptured_eq, materialNameForColor_base in Em.
  cbn [fst snd] in Em.
  apply triangulate_materials in Em.
  - destruct Em as (Hwk & (extra & Hext) & Hf).
    split; [exact Hwk |]. split; [exists extra; exact Hext |].
    rewrite Forall_forall in Hf. exact Hf.
  - pose proof (materialNameForColor_spec [] baseColor wellKeyed_nil) as (_ & Hwk & _).
    rewrite materialNameForColor_base in Hwk. exact Hwk.
  - eexists. split; [cbn; reflexivity | reflexivity].
  - cbn. discriminate.
Qed.

Lemma materials_cover_faces_witness :
  exists m,
    buildOBJFromCaptured [repeat 1 pointsPerSlice; repeat 0 pointsPerSlice] = Normal m /\
    wellKeyed (meshMaterials m) /\
    (exists rest,
       meshMaterials m
       = ((179, 179, 179)%Z,
          mkMaterial (179, 179, 179)%Z (179 / 255) (179 / 255) (179 / 255)) :: rest) /\
    forall fc, In fc (faces m) -> definedIn (meshMaterials m) (fmat fc).
Proof.
  apply (materials_cover_faces [repeat 1 pointsPerSlice; repeat 0 pointsPerSlice]).
  cbn [length]. lia.
Defined.

Lemma round_over_255 y (n : Z) :
  Math_round (y * 255) = n -> Rabs (IZR n / 255 - y) <= 1 / 510.
Proof.
  intros <-. destruct (Math_round_near (y * 255)) as [H1 H2].
  apply Rabs_le. lra.
Qed.

(** X15.  One call of [materialNameForColor] on a Map that is well keyed:
    the name returned is the colour's key, the Map stays well keyed, the
    material now stored under that name is named so and its colour is the
    colour asked for, clamped to [0, 1], to within 1/510 in each channel
    (the error of the rounding to a byte); and asking again for the same
    colour returns the same name and leaves the Map as it is. *)
Theorem material_quantisation (m : Materials) (col : Color) (Hm : wellKeyed m) :
  let m' := fst (materialNameForColor m col) in
  let n := snd (materialNameForColor m col) in
  n = colorKey col /\ wellKeyed m' /\
  (exists x,
     materialsGet m' n = Some x /\ name x = n /\
     Rabs (mr x - Math_max 0 (Math_min 1 (cr col))) <= 1 / 510 /\
     Rabs (mg x - Math_max 0 (Math_min 1 (cg col))) <= 1 / 510 /\
     Rabs (mb x - Math_max 0 (Math_min 1 (cb col))) <= 1 / 510) /\
  materialNameForColor m' col = (m', n).
Proof.
  cbv zeta.
  destruct (materialNameForColor_spec m col Hm) as (En & Hwk & Hd & _).
  set (m' := fst (materialNameForColor m col)) in *.
  rewrite En. split; [reflexivity |]. split; [exact Hwk |].
  destruct Hd as (x & Ex & Hx).
  split.
  - exists x. split; [exact Ex |]. split; [exact Hx |].
    pose proof (materialsGet_In _ _ _ Ex) as Hin.
    destruct Hwk as [_ Hk]. rewrite Forall_forall in Hk. specialize (Hk _ Hin).
    unfold keyedEntry in Hk. cbn [fst snd] in Hk.
    unfold colorKey in Hk. destruct Hk as (_ & _ & _ & _ & -> & -> & ->).
    repeat split; apply round_over_255; reflexivity.
  - destruct (materialNameForColor_spec m' col Hwk) as (En' & _ & _ & Hm').
    destruct (materialNameForColor m' col) as [m2 n2]. cbn [fst snd] in *.
    subst n2. f_equal.
    destruct Hm' as [-> | [Hnone _]]; [reflexivity |].
    rewrite Ex in Hnone. discriminate.
Qed.

Lemma material_quantisation_witness :
  snd (materialNameForColor [] (mkColor 0.5 2 (-1))) = colorKey (mkColor 0.5 2 (-1)) /\
  wellKeyed (fst (materialNameForColor [] (mkColor 0.5 2 (-1)))).
Proof.
  split.
  - apply (material_quantisation [] (mkColor 0.5 2 (-1))). apply wellKeyed_nil.
  - apply (material_quantisation [] (mkColor 0.5 2 (-1))). apply wellKeyed_nil.
Defined.

(** ** The end of the playback *)

(** A loop that sets component [o] of the vertices [b], ..., [b + n - 1]. *)
Lemma channelLoop_spec (o : nat) (g : nat -> R) (b : nat) (pos : list R) (n : nat) :
  (o < 3)%nat ->
  let pos' := fold_left (fun pos x => setCh o pos (b + x) (g x)) (seq 0 n) pos in
  length pos' = length pos /\
  (forall o' v, (o' < 3)%nat -> o' <> o -> getCh o' pos' v = getCh o' pos v) /\
  (forall x, (x < n)%nat -> ((b + x) * 3 + o < length pos)%nat ->
     getCh o pos' (b + x) = g x) /\
  (forall v, (v < b \/ b + n <= v)%nat -> getCh o pos' v = getCh o pos v).
Proof.
  intros Ho. induction n as [| n IH].
  - cbn [seq fold_left]. repeat split; intros; lia.
  - rewrite fold_left_seq_S. cbv zeta in IH.
    set (p1 := fold_left _ (seq 0 n) pos) in *.
    destruct IH as (Hl & Hoth & Hy & Hrest).
    split; [rewrite setCh_length; exact Hl |].
    split; [intros o' v Ho' Hne; rewrite getCh_setCh_other by lia; apply Hoth; assumption |].
    split.
    + intros x Hx Hin. destruct (Nat.eq_dec x n) as [-> | Hne].
      * apply getCh_setCh_same. lia.
      * rewrite getCh_setCh_other by lia. apply Hy; lia.
    + intros v Hv. rewrite getCh_setCh_other by lia. apply Hrest. lia.
Qed.

(** Two nested loops over a grid of [rows] rows of [L] vertices: row [z]
    fills component [o] of the vertices [z * L], ..., [z * L + L - 1]. *)
Lemma gridLoop_spec (o : nat) (h : nat -> nat -> R) (L : nat) (plane : list R)
  (rows : nat) :
  (o < 3)%nat ->
  let pos := fold_left (fun pos z =>
                          fold_left (fun pos x => setCh o pos (z * L + x) (h x z))
                                    (seq 0 L) pos)
                       (seq 0 rows) plane in
  length pos = length plane /\
  (forall o' v, (o' < 3)%nat -> o' <> o -> getCh o' pos v = getCh o' plane v) /\
  (forall z x, (z < rows)%nat -> (x < L)%nat ->
     ((z * L + x) * 3 + o < length plane)%nat ->
     getCh o pos (z * L + x) = h x z) /\
  (forall v, (rows * L <= v)%nat -> getCh o pos v = getCh o plane v).
Proof.
  intros Ho. induction rows as [| rows IH].
  - cbn [seq fold_left]. repeat split; intros; lia.
  - rewrite fold_left_seq_S. cbv zeta in IH.
    set (p1 := fold_left _ (seq 0 rows) plane) in *.
    destruct IH as (Hl & Hoth & Hy & Hrest).
    destruct (channelLoop_spec o (fun x => h x rows) (rows * L) p1 L Ho)
      as (Hl' & Hoth' & Hy' & Hrest').
    cbv zeta in Hl', Hoth', Hy', Hrest'.
    split; [rewrite Hl'; exact Hl |].
    split.
    { intros o' v Ho' Hne. rewrite Hoth' by assumption. apply Hoth; assumption. }
    split.
    + intros z x Hz Hx Hin. destruct (Nat.eq_dec z rows) as [-> | Hne].
      * apply Hy'; [exact Hx | rewrite Hl; exact Hin].
      * rewrite Hrest' by (left; nia). apply Hy; [lia | exact Hx | exact Hin].
    + intros v Hv. rewrite Hrest' by (right; lia). apply Hrest. lia.
Qed.

Lemma finalizeModelGeometry_short plane st :
  (length (capturedSlices st) < 2)%nat -> finalizeModelGeometry plane st = st.
Proof.
  intros H. unfold finalizeModelGeometry. cbv zeta.
  apply Nat.ltb_lt in H. rewrite H. reflexivity.
Qed.

Lemma finalizeModelGeometry_spec plane st :
  (2 <= length (capturedSlices st))%nat ->
  length plane = (pointsPerSlice * length (capturedSlices st) * 3)%nat ->
  exists pos,
    finalizeModelGeometry plane st
    = mkState (positionAttr st) (colors st) (FinalGeometry pos) (capturedSlices st)
              (isCapturing st) (hasEnded st) /\
    length pos = length plane /\
    (forall v, getCh 0 pos v = getCh 0 plane v /\ getCh 2 pos v = getCh 2 plane v) /\
    (forall z x, (z < pointsPerSlice)%nat -> (x < length (capturedSlices st))%nat ->
       getCh 1 pos (z * length (capturedSlices st) + x)
       = sliceAt (nth x (capturedSlices st) []) z * depth * heightScale).
Proof.
  intros HL Hplane. unfold finalizeModelGeometry. cbv zeta.
  assert (E : (length (capturedSlices st) <? 2)%nat = false) by (apply Nat.ltb_ge; exact HL).
  rewrite E.
  destruct (gridLoop_spec 1
              (fun x z => sliceAt (nth x (capturedSlices st) []) z * depth * heightScale)
              (length (capturedSlices st)) plane pointsPerSlice ltac:(lia))
    as (Hl & Hxz & Hy & _).
  cbv zeta in Hl, Hxz, Hy.
  eexists. split; [reflexivity |].
  split; [exact Hl |].
  split; [intros v; split; apply Hxz; lia |].
  intros z x Hz Hx. apply Hy; [exact Hz | exact Hx |].
  rewrite Hplane. generalize dependent pointsPerSlice. intros. nia.
Qed.

(** X16.  The end of the playback.  The [ended] handler sets [hasEnded],
    clears [isCapturing], and leaves the history and the live buffer as they
    are.  With fewer than 2 slices captured the displayed geometry stays;
    with [L >= 2] slices it is replaced by the new plane with the height of
    vertex [z * L + x] set to [capturedSlices[x][z] * depth * heightScale],
    the x and z of the plane kept.  From then on a frame of [animate] does
    nothing, and a tick of [updateSurfaceFromFrequencies] would write the
    live buffer and not the geometry displayed. *)
Theorem ended_shows_history (plane : list R) (st : State)
  (Hplane : length plane = (pointsPerSlice * length (capturedSlices st) * 3)%nat) :
  let st' := endedHandler plane st in
  hasEnded st' = true /\ isCapturing st' = false /\
  capturedSlices st' = capturedSlices st /\
  bufferOf st' = bufferOf st /\
  ((length (capturedSlices st) < 2)%nat -> geometry st' = geometry st) /\
  ((2 <= length (capturedSlices st))%nat ->
   exists pos,
     geometry st' = FinalGeometry pos /\
     length pos = length plane /\
     (forall v, getCh 0 pos v = getCh 0 plane v /\ getCh 2 pos v = getCh 2 plane v) /\
     (forall z x, (z < pointsPerSlice)%nat -> (x < length (capturedSlices st))%nat ->
        getCh 1 pos (z * length (capturedSlices st) + x)
        = sliceAt (nth x (capturedSlices st) []) z * depth * heightScale)) /\
  (forall paused freqData, animate paused freqData st' = st') /\
  (forall freqData,
     geometry (updateSurfaceFromFrequencies st' freqData) = geometry st').
Proof.
  cbv zeta. unfold endedHandler.
  set (st0 := mkState (positionAttr st) (colors st) (geometry st) (capturedSlices st)
                      false true).
  assert (Hfin : hasEnded (finalizeModelGeometry plane st0) = true /\
                 isCapturing (finalizeModelGeometry plane st0) = false /\
                 capturedSlices (finalizeModelGeometry plane st0) = capturedSlices st /\
                 bufferOf (finalizeModelGeometry plane st0) = bufferOf st).
  { unfold finalizeModelGeometry. cbv zeta.
    destruct (length (capturedSlices st0) <? 2)%nat; repeat split. }
  destruct Hfin as (He & Hi & Hc & Hb).
  split; [exact He |]. split; [exact Hi |]. split; [exact Hc |]. split; [exact Hb |].
  split.
  { intros Hlt. rewrite finalizeModelGeometry_short by exact Hlt. reflexivity. }
  split.
  { intros HL.
    destruct (finalizeModelGeometry_spec plane st0 HL Hplane)
      as (pos & E & Hl & Hxz & Hy).
    exists pos. rewrite E. cbn [geometry].
    split; [reflexivity |]. split; [exact Hl |]. split; [exact Hxz | exact Hy]. }
  split.
  - intros paused fd. unfold animate. rewrite He.
    rewrite andb_false_r. reflexivity.
  - intros fd. apply update_flags.
Qed.

Lemma ended_shows_history_witness :
  hasEnded
    (endedHandler (repeat 0 (pointsPerSlice * 2 * 3))
       (mkState [] [] InitialGeometry [repeat 1 pointsPerSlice; repeat 0 pointsPerSlice]
                true false)) = true.
Proof.
  apply (ended_shows_history (repeat 0 (pointsPerSlice * 2 * 3))
           (mkState [] [] InitialGeometry [repeat 1 pointsPerSlice; repeat 0 pointsPerSlice]
                    true false)).
  apply repeat_length.
Defined.

(** ** Reset and export after the end of the playback *)

Lemma final_dims rows L (pos : list R) :
  (0 < rows)%nat -> length pos = (rows * L * 3)%nat -> (length pos / 3 / rows)%nat = L.
Proof.
  intros Hr ->. rewrite Nat.div_mul by discriminate.
  rewrite Nat.mul_comm. apply Nat.div_mul. lia.
Qed.

(** X17.  Reset after the end of a playback of [L >= 2] slices flattens
    the vertices of the displayed model whose number is below
    [positionAttr.count], the vertex count of the initial plane, and no
    others: vertex [z * L + x] goes to height 0 when
    [z * L + x < pointsPerSlice * numSlices] and keeps its height otherwise.
    An export that follows samples [L] slices from that geometry, and
    its slices are 0 wherever the reset reached. *)
Theorem reset_after_end (plane : list R) (st : State)
  (Hplane : length plane = (pointsPerSlice * length (capturedSlices st) * 3)%nat)
  (Hsized : sized pointsPerSlice numSlices (bufferOf st))
  (HL : (2 <= length (capturedSlices st))%nat) :
  let L := length (capturedSlices st) in
  let st1 := resetClick (endedHandler plane st) in
  let st2 := fst (exportClick st1) in
  capturedSlices st1 = [] /\
  (forall z x, (z < pointsPerSlice)%nat -> (x < L)%nat ->
     getCh 1 (geometryPosition st1) (z * L + x)
     = if (z * L + x <? pointsPerSlice * numSlices)%nat then 0
       else sliceAt (nth x (capturedSlices st) []) z * depth * heightScale) /\
  length (capturedSlices st2) = L /\
  (forall z x, (z < pointsPerSlice)%nat -> (x < L)%nat ->
     (z * L + x < pointsPerSlice * numSlices)%nat ->
     sliceAt (nth x (capturedSlices st2) []) z = 0).
Proof.
  cbv zeta. set (L := length (capturedSlices st)) in *.
  set (ste := endedHandler plane st).
  assert (Hend : exists pos,
             geometry ste = FinalGeometry pos /\ length pos = length plane /\
             positionAttr ste = positionAttr st /\
             forall z x, (z < pointsPerSlice)%nat -> (x < L)%nat ->
               getCh 1 pos (z * L + x)
               = sliceAt (nth x (capturedSlices st) []) z * depth * heightScale).
  { unfold ste, endedHandler.
    destruct (finalizeModelGeometry_spec plane
                (mkState (positionAttr st) (colors st) (geometry st) (capturedSlices st)
                         false true) HL Hplane) as (pos & E & Hl & _ & Hy).
    exists pos. rewrite E. cbn [geometry positionAttr].
    split; [reflexivity |]. split; [exact Hl |]. split; [reflexivity | exact Hy]. }
  destruct Hend as (pos & Hg & Hl & Hpa & Hy).
  assert (Hgp : geometryPosition ste = pos)
    by (unfold geometryPosition; rewrite Hg; reflexivity).
  destruct (resetClick_spec ste) as (Hc & _ & _ & Lp & _ & _ & Hzero & _ & Hkeep).
  rewrite Hgp, Hpa in *.
  assert (Hcount : (length (positionAttr st) / 3 = pointsPerSlice * numSlices)%nat).
  { destruct Hsized as [Hsp _]. cbn [bufferOf fst] in Hsp.
    rewrite Hsp. apply Nat.div_mul. discriminate. }
  rewrite Hcount in *.
  assert (Hin : forall z x, (z < pointsPerSlice)%nat -> (x < L)%nat ->
                  ((z * L + x) * 3 + 2 < length pos)%nat).
  { intros z x Hz Hx. rewrite Hl, Hplane. fold L.
    generalize dependent pointsPerSlice. intros. nia. }
  assert (Hheight : forall z x, (z < pointsPerSlice)%nat -> (x < L)%nat ->
            getCh 1 (geometryPosition (resetClick ste)) (z * L + x)
            = if (z * L + x <? pointsPerSlice * numSlices)%nat then 0
              else sliceAt (nth x (capturedSlices st) []) z * depth * heightScale).
  { intros z x Hz Hx.
    destruct (Nat.ltb_spec (z * L + x) (pointsPerSlice * numSlices)) as [Hlt | Hge].
    - apply Hzero; [exact Hlt | apply Hin; assumption].
    - rewrite (proj1 (Hkeep _ Hge)). apply Hy; assumption. }
  split; [exact Hc |]. split; [exact Hheight |].
  assert (Hexp : capturedSlices (fst (exportClick (resetClick ste)))
                 = capturedSlices (synthesizeCapturedFromSurface (resetClick ste))).
  { unfold exportClick. rewrite Hc. reflexivity. }
  rewrite Hexp, synthesize_capturedSlices.
  assert (Hdims : Nat.max 2 (length (geometryPosition (resetClick ste)) / 3
                             / pointsPerSlice) = L).
  { rewrite Lp, (final_dims pointsPerSlice L pos pointsPerSlice_pos)
      by (rewrite Hl; exact Hplane).
    apply Nat.max_r. exact HL. }
  rewrite Hdims.
  split; [rewrite length_map, length_seq; reflexivity |].
  intros z x Hz Hx Hlt.
  unfold Slice. rewrite (nth_map_seq _ L x []) by exact Hx.
  unfold sliceAt. rewrite (nth_map_seq _ pointsPerSlice z 0) by exact Hz.
  rewrite Hheight by assumption.
  apply Nat.ltb_lt in Hlt. rewrite Hlt.
  unfold Rdiv. rewrite Rmult_0_l. apply clamp01_id. lra.
Qed.

Lemma reset_after_end_witness :
  capturedSlices
    (resetClick
       (endedHandler (repeat 0 (pointsPerSlice * 2 * 3))
          (mkState (repeat 0 (pointsPerSlice * numSlices * 3))
                   (repeat 0 (pointsPerSlice * numSlices * 3))
                   InitialGeometry [repeat 1 pointsPerSlice; repeat 0 pointsPerSlice]
                   true false))) = [].
Proof.
  apply (reset_after_end (repeat 0 (pointsPerSlice * 2 * 3))
           (mkState (repeat 0 (pointsPerSlice * numSlices * 3))
                    (repeat 0 (pointsPerSlice * numSlices * 3))
                    InitialGeometry [repeat 1 pointsPerSlice; repeat 0 pointsPerSlice]
                    true false)).
  - apply repeat_length.
  - split; apply repeat_length.
  - cbn [capturedSlices length]. lia.
Defined.

(** ** The number of faces *)

Lemma emitFace_length v f i1 i2 i3 desired matName :
  length (emitFace v f i1 i2 i3 desired matName) = S (length f).
Proof.
  destruct (emitFace_app v f i1 i2 i3 desired matName) as (fc & -> & _).
  rewrite length_app. cbn [length]. lia.
Qed.

(** A loop that returns, each turn of which adds [c] to a measure. *)
Lemma foldM_count {St A} (mu : St -> nat) (c : nat)
  (body : St -> A -> Completion St) l :
  (forall st a st', In a l -> body st a = Normal st' -> mu st' = (mu st + c)%nat) ->
  forall st st', foldM body l st = Normal st' ->
    mu st' = (mu st + c * length l)%nat.
Proof.
  induction l as [| a l IH]; intros Hbody st st' E.
  - cbn [foldM] in E. injection E as <-. cbn [length]. lia.
  - rewrite foldM_cons in E. apply bind_normal_inv in E.
    destruct E as (st1 & E1 & E).
    rewrite (IH (fun s a0 s' Hin => Hbody s a0 s' (or_intror Hin)) st1 st' E).
    rewrite (Hbody st a st1 (or_introl eq_refl) E1). cbn [length]. lia.
Qed.

(** The same for a measure that each turn raises by at most [c]. *)
Lemma foldM_count_le {St A} (mu : St -> nat) (c : nat)
  (body : St -> A -> Completion St) l :
  (forall st a st', In a l -> body st a = Normal st' ->
     (mu st <= mu st' <= mu st + c)%nat) ->
  forall st st', foldM body l st = Normal st' ->
    (mu st <= mu st' <= mu st + c * length l)%nat.
Proof.
  induction l as [| a l IH]; intros Hbody st st' E.
  - cbn [foldM] in E. injection E as <-. cbn [length]. lia.
  - rewrite foldM_cons in E. apply bind_normal_inv in E.
    destruct E as (st1 & E1 & E).
    pose proof (IH (fun s a0 s' Hin => Hbody s a0 s' (or_intror Hin)) st1 st' E).
    pose proof (Hbody st a st1 (or_introl eq_refl) E1). cbn [length]. lia.
Qed.

Section FaceCount.

Variable captured : list Slice.
Variable v : list Vec3.
Variables indexTop indexBottom : Table nat.
Variable yTop : Table R.
Variable baseMat : MatName.
Variable flatCell : Table bool.

Lemma topCellFaces_count st st' i j :
  topCellFaces captured v indexTop yTop baseMat flatCell st i j = Normal st' ->
  (length (topFaces st) <= length (topFaces st') <= length (topFaces st) + 2)%nat.
Proof.
  intros E. unfold topCellFaces in E.
  inv_bind E. destruct k.
  { injection E as <-. lia. }
  inv_bind E. destruct k; cbn [negb] in E.
  - inv_binds E. injection E as <-. cbn [topFaces].
    rewrite !emitFace_length. lia.
  - do 8 inv_bind E. cbv zeta in E.
    repeat match type of E with
           | context [materialNameForColor ?a ?b] =>
               destruct (materialNameForColor a b)
           end.
    inv_binds E. injection E as <-. cbn [topFaces].
    rewrite !emitFace_length. lia.
Qed.

Lemma topSurface_count st st' :
  topSurface captured v indexTop yTop baseMat flatCell st = Normal st' ->
  (length (topFaces st) <= length (topFaces st')
   <= length (topFaces st) + 2 * (slices captured - 1) * (bins - 1))%nat.
Proof.
  intros E. unfold topSurface in E.
  apply (foldM_count_le (fun s => length (topFaces s)) (2 * (slices captured - 1))) in E.
  - rewrite length_seq in E. lia.
  - intros s j s' _ Ej.
    apply (foldM_count_le (fun s => length (topFaces s)) 2) in Ej.
    + rewrite length_seq in Ej. lia.
    + intros s0 i s0' _. apply topCellFaces_count.
Qed.

Lemma frontSeam_count f f' :
  frontSeam captured v indexTop baseMat f = Normal f' ->
  length f' = (length f + 2 * (slices captured - 1))%nat.
Proof.
  intros E. unfold frontSeam in E.
  apply (foldM_count (@length Face) 2) in E.
  - rewrite length_seq in E. exact E.
  - intros f0 i f0' _ E0. inv_binds E0. injection E0 as <-.
    rewrite !emitFace_length. lia.
Qed.

Lemma bottomSurface_count f f' :
  bottomSurface captured v indexBottom baseMat f = Normal f' ->
  length f' = (length f + 2 * (bins - 1) * (slices captured - 1))%nat.
Proof.
  intros E. unfold bottomSurface in E.
  apply (foldM_count (@length Face) (2 * (bins - 1))) in E.
  - rewrite length_seq in E. exact E.
  - intros f0 i f0' _ E0.
    apply (foldM_count (@length Face) 2) in E0.
    + rewrite length_seq in E0. exact E0.
    + intros f1 j f1' _ E1. inv_binds E1. injection E1 as <-.
      rewrite !emitFace_length. lia.
Qed.

Lemma wallAlongX_count j desired f f' :
  wallAlongX captured v indexTop indexBottom baseMat j desired f = Normal f' ->
  length f' = (length f + 2 * (slices captured - 1))%nat.
Proof.
  intros E. unfold wallAlongX in E.
  apply (foldM_count (@length Face) 2) in E.
  - rewrite length_seq in E. exact E.
  - intros f0 i f0' _ E0. inv_binds E0. injection E0 as <-.
    rewrite !emitFace_length. lia.
Qed.

Lemma wallAlongZ_count i sideBottom desired f f' :
  wallAlongZ v indexTop baseMat i sideBottom desired f = Normal f' ->
  length f' = (length f + 2 * (bins - 1))%nat.
Proof.
  intros E. unfold wallAlongZ in E.
  apply (foldM_count (@length Face) 2) in E.
  - rewrite length_seq in E. exact E.
  - intros f0 j f0' _ E0. inv_binds E0. injection E0 as <-.
    rewrite !emitFace_length. lia.
Qed.

Lemma leftWall_count sideBottomLeft f f' :
  leftWall v indexTop baseMat sideBottomLeft f = Normal f' ->
  length f' = (length f + 2 * bins)%nat.
Proof.
  intros E. unfold leftWall in E.
  inv_bind E. apply wallAlongZ_count in E0.
  inv_binds E. injection E as <-.
  rewrite !emitFace_length, E0. rewrite bins_val. lia.
Qed.

Lemma rightWall_count sideBottomRight f f' :
  rightWall captured v indexTop baseMat sideBottomRight f = Normal f' ->
  length f' = (length f + 2 * bins)%nat.
Proof.
  intros E. unfold rightWall in E.
  inv_bind E. apply wallAlongZ_count in E0.
  inv_binds E. injection E as <-.
  rewrite !emitFace_length, E0. rewrite bins_val. lia.
Qed.

End FaceCount.

Lemma triangulate_count captured v indexTop indexBottom yTop baseMat materials m :
  triangulate captured v indexTop yTop indexBottom materials baseMat = Normal m ->
  exists top,
    length (faces m)
    = (top + 2 * (slices captured - 1) * (bins + 2) + 4 * bins)%nat /\
    (top <= 2 * (slices captured - 1) * (bins - 1))%nat.
Proof.
  intros E. unfold triangulate in E.
  inv_bind E. inv_bind E. cbv zeta in E.
  match goal with
  | H : topSurface _ _ _ _ _ _ _ = Normal ?st |- _ =>
      apply topSurface_count in H; cbn [topFaces length] in H;
      exists (length (topFaces st))
  end.
  inv_bind E.
  match goal with
  | H : frontSeam _ _ _ _ _ = Normal _ |- _ => apply frontSeam_count in H
  end.
  inv_bind E.
  match goal with
  | H : bottomSurface _ _ _ _ _ = Normal _ |- _ => apply bottomSurface_count in H
  end.
  inv_bind E.
  match goal with
  | H : backWall _ _ _ _ _ _ = Normal _ |- _ => apply wallAlongX_count in H
  end.
  inv_bind E.
  match goal with
  | H : frontWall _ _ _ _ _ _ = Normal _ |- _ => apply wallAlongX_count in H
  end.
  inv_bind E. inv_bind E.
  match goal with
  | H : leftWall _ _ _ _ _ = Normal _ |- _ => apply leftWall_count in H
  end.
  inv_bind E.
  match goal with
  | H : rightWall _ _ _ _ _ _ = Normal _ |- _ => apply rightWall_count in H
  end.
  injection E as <-. cbn [faces].
  split; [| lia].
  rewrite bins_val in *. lia.
Qed.

(** X18.  The number of faces.  For a history of [slices >= 1] slices the
    mesh has [2 * (slices - 1) * (bins + 2) + 4 * bins] faces besides those
    of the top surface: the seam, the bottom, the back and front walls and
    the two side walls of [2 * bins] triangles each.  The top surface adds
    at most two triangles for each of its [(slices - 1) * (bins - 1)] cells.
    A history of one slice gives the [4 * bins] triangles of the two side
    walls and nothing else. *)
Theorem face_count (captured : list Slice) (Hs : (1 <= length captured)%nat) :
  exists m top,
    buildOBJFromCaptured captured = Normal m /\
    length (faces m)
    = (top + 2 * (slices captured - 1) * (bins + 2) + 4 * bins)%nat /\
    (top <= 2 * (slices captured - 1) * (bins - 1))%nat /\
    (slices captured = 1%nat -> length (faces m) = (4 * bins)%nat).
Proof.
  destruct (buildOBJFromCaptured_returns captured Hs) as (m & Em & _).
  pose proof Em as E. rewrite buildOBJFromCaptured_eq in E.
  apply triangulate_count in E. destruct E as (top & Hlen & Htop).
  exists m, top. split; [exact Em |]. split; [exact Hlen |].
  split; [exact Htop |].
  intros H1. rewrite H1 in *. lia.
Qed.

Lemma face_count_witness :
  exists m top,
    buildOBJFromCaptured [repeat 1%R pointsPerSlice; repeat 0%R pointsPerSlice] = Normal m /\
    length (faces m)
    = (top + 2 * (slices [repeat 1%R pointsPerSlice; repeat 0%R pointsPerSlice] - 1)
             * (bins + 2) + 4 * bins)%nat /\
    (top <= 2 * (slices [repeat 1%R pointsPerSlice; repeat 0%R pointsPerSlice] - 1)
            * (bins - 1))%nat /\
    (slices [repeat 1%R pointsPerSlice; repeat 0%R pointsPerSlice] = 1%nat ->
     length (faces m) = (4 * bins)%nat).
Proof.
  apply (face_count [repeat 1%R pointsPerSlice; repeat 0%R pointsPerSlice]).
  cbn [length]. lia.
Defined.

(** ** Tables after a store *)

Lemma nth_error_upd_same {A} (l : list A) i x :
  (i < length l)%nat -> nth_error (upd l i x) i = Some x.
Proof.
  revert i. induction l as [| h t IH]; intros [| i] H; cbn in *; try lia.
  - reflexivity.
  - apply IH. lia.
Qed.

Lemma nth_error_upd_other {A} (l : list A) i j x :
  i <> j -> nth_error (upd l i x) j = nth_error l j.
Proof.
  revert i j. induction l as [| h t IH]; intros [| i] [| j] H; cbn; try reflexivity.
  - contradiction.
  - apply IH. lia.
Qed.

Lemma nth_arrSet {A} (d : A) l j x b :
  nth b (arrSet d l j x) d = if (b =? j)%nat then x else nth b l d.
Proof.
  unfold arrSet. destruct (Nat.ltb_spec j (length l)) as [Hj | Hj].
  - destruct (Nat.eqb_spec b j) as [-> | Hne].
    + apply nth_upd_same. exact Hj.
    + apply nth_upd_other. lia.
  - destruct (Nat.eqb_spec b j) as [-> | Hne].
    + rewrite app_nth2 by lia. rewrite app_nth2 by (rewrite repeat_length; lia).
      rewrite repeat_length. replace (j - length l - (j - length l))%nat with 0%nat by lia.
      reflexivity.
    + destruct (Nat.lt_ge_cases b (length l)) as [Hb | Hb].
      * apply app_nth1. exact Hb.
      * rewrite (nth_overflow l) by exact Hb. rewrite app_nth2 by exact Hb.
        destruct (Nat.lt_ge_cases (b - length l) (j - length l)) as [Hr | Hr].
        -- rewrite app_nth1 by (rewrite repeat_length; exact Hr). apply nth_repeat.
        -- rewrite app_nth2 by (rewrite repeat_length; exact Hr).
           rewrite repeat_length. apply nth_overflow. cbn [length]. lia.
Qed.

(** Reading a table after the store [t[i][j] = x]. *)
Lemma get2_set2 {A} (d : A) (t t' : Table A) i j x a b :
  set2 d t i j x = Normal t' ->
  get2 d t' a b = if (a =? i)%nat && (b =? j)%nat then Normal x else get2 d t a b.
Proof.
  unfold set2, row. destruct (nth_error t i) as [r |] eqn:E; [| discriminate].
  cbn [bind]. intros [= <-].
  assert (Hi : (i < length t)%nat) by (apply nth_error_Some; rewrite E; discriminate).
  unfold get2, row. destruct (Nat.eqb_spec a i) as [-> | Hne]; cbn [andb].
  - rewrite nth_error_upd_same by exact Hi. rewrite E. cbn [bind].
    rewrite nth_arrSet. destruct (b =? j)%nat; reflexivity.
  - rewrite nth_error_upd_other by lia. reflexivity.
Qed.

Lemma get2_repeat {A} (d x : A) n m i j :
  (i < n)%nat -> (j < m)%nat -> get2 d (repeat (repeat x m) n) i j = Normal x.
Proof.
  intros Hi Hj. unfold get2, row. rewrite nth_error_repeat by exact Hi.
  cbn [bind]. rewrite nth_repeat_lt by exact Hj. reflexivity.
Qed.

Lemma mapM_const {A B} (body : A -> Completion B) (c : B) l :
  (forall a, In a l -> body a = Normal c) ->
  mapM body l = Normal (repeat c (length l)).
Proof.
  induction l as [| a l IH]; intros H; [reflexivity |].
  rewrite mapM_cons, (H a (or_introl eq_refl)). cbn [bind].
  rewrite IH by (intros a0 Hin; apply H; right; exact Hin). reflexivity.
Qed.

Lemma foldM_id {St A} (body : St -> A -> Completion St) l st :
  (forall a, In a l -> body st a = Normal st) -> foldM body l st = Normal st.
Proof.
  induction l as [| a l IH]; intros H; [reflexivity |].
  rewrite foldM_cons, (H a (or_introl eq_refl)). cbn [bind].
  apply IH. intros a0 Hin. apply H. right. exact Hin.
Qed.

(** A loop with an invariant that knows the turns already done. *)
Lemma foldM_prefix {St A} (Inv : list A -> St -> Prop)
  (body : St -> A -> Completion St) l :
  (forall done a st, In a l -> Inv done st ->
     exists st', body st a = Normal st' /\ Inv (done ++ [a]) st') ->
  forall st, Inv [] st -> exists st', foldM body l st = Normal st' /\ Inv l st'.
Proof.
  intros Hbody.
  assert (H : forall rest done st,
             (forall a, In a rest -> In a l) -> Inv done st ->
             exists st', foldM body rest st = Normal st' /\ Inv (done ++ rest) st').
  { induction rest as [| a rest IH]; intros done st Hsub Hst.
    - exists st. rewrite app_nil_r. split; [reflexivity | exact Hst].
    - destruct (Hbody done a st (Hsub a (or_introl eq_refl)) Hst) as (st1 & E1 & H1).
      rewrite foldM_cons, E1. cbn [bind].
      destruct (IH (done ++ [a]) st1) as (st' & E & H').
      + intros a0 Hin. apply Hsub. right. exact Hin.
      + exact H1.
      + exists st'. split; [exact E |]. rewrite <- app_assoc in H'. exact H'. }
  intros st Hst. apply (H l [] st); [trivial | exact Hst].
Qed.

Lemma last_seq a n d : last (seq a n) d = if (n =? 0)%nat then d else (a + n - 1)%nat.
Proof.
  destruct n as [| n]; [reflexivity |].
  rewrite seq_S, last_last. cbn [Nat.eqb]. lia.
Qed.

(** ** Growing a rectangle of flat cells *)

Lemma last_cons_indep {A} (a : A) l d d' : last (a :: l) d = last (a :: l) d'.
Proof.
  revert a. induction l as [| b l IH]; intros a; [reflexivity |].
  change (last (b :: l) d = last (b :: l) d'). apply IH.
Qed.

Lemma last_cons {A} (a : A) l d : last (a :: l) d = last l a.
Proof.
  destruct l as [| b l]; [reflexivity |].
  change (last (b :: l) d = last (b :: l) a). apply last_cons_indep.
Qed.

Lemma growW_all flatCell vis j : forall cands iW,
  (forall k, In k cands ->
     get2 false flatCell k j = Normal true /\ get2 false vis k j = Normal false) ->
  growW flatCell vis j cands iW = Normal (last cands iW).
Proof.
  induction cands as [| k rest IH]; intros iW H; [reflexivity |].
  cbn [growW]. destruct (H k (or_introl eq_refl)) as [-> ->]. cbn [bind negb].
  rewrite IH by (intros k0 Hin; apply H; right; exact Hin).
  rewrite last_cons. reflexivity.
Qed.

Lemma columnGrows_all flatCell vis jn : forall ks,
  (forall k, In k ks ->
     get2 false flatCell k jn = Normal true /\ get2 false vis k jn = Normal false) ->
  columnGrows flatCell vis jn ks = Normal true.
Proof.
  induction ks as [| k rest IH]; intros H; [reflexivity |].
  cbn [columnGrows]. destruct (H k (or_introl eq_refl)) as [-> ->]. cbn [bind negb].
  apply IH. intros k0 Hin. apply H. right. exact Hin.
Qed.

Lemma growH_all flatCell vis i iW : forall cands jH,
  (forall jn k, In jn cands -> In k (seq i (iW + 1 - i)) ->
     get2 false flatCell k jn = Normal true /\ get2 false vis k jn = Normal false) ->
  growH flatCell vis i iW cands jH = Normal (last cands jH).
Proof.
  induction cands as [| jn rest IH]; intros jH H; [reflexivity |].
  cbn [growH].
  rewrite columnGrows_all by (intros k Hk; apply H; [left; reflexivity | exact Hk]).
  cbn [bind].
  rewrite IH by (intros jn0 k Hin Hk; apply H; [right; exact Hin | exact Hk]).
  rewrite last_cons. reflexivity.
Qed.

(** After [markVisited] every cell of the rectangle reads [true]. *)
Lemma markVisited_all vis i iW j jH n :
  length vis = n -> (iW < n)%nat ->
  exists vis',
    markVisited vis i iW j jH = Normal vis' /\ length vis' = n /\
    forall a b, (i <= a <= iW)%nat -> (j <= b <= jH)%nat ->
      get2 false vis' a b = Normal true.
Proof.
  intros Hlen HiW. unfold markVisited.
  destruct (foldM_prefix
              (fun done (t : Table bool) =>
                 length t = n /\
                 forall a b, In a (seq i (iW + 1 - i)) -> In b done ->
                   get2 false t a b = Normal true)
              (fun vis jj =>
                 foldM (fun vis ii => set2 false vis ii jj true)
                       (seq i (iW + 1 - i)) vis)
              (seq j (jH + 1 - j))) with (st := vis) as (vis' & E & Hl & Hall).
  - intros doneJ jj t _ [Hl Hdone].
    destruct (foldM_prefix
                (fun done (t' : Table bool) =>
                   length t' = n /\
                   (forall a b, get2 false t a b = Normal true ->
                      get2 false t' a b = Normal true) /\
                   forall a, In a done -> get2 false t' a jj = Normal true)
                (fun vis ii => set2 false vis ii jj true)
                (seq i (iW + 1 - i))) with (st := t) as (t' & E & Hl' & Hmono & Hrow).
    + intros doneI ii t0 Hii (Hl0 & Hmono0 & Hrow0). apply in_seq in Hii.
      destruct (set2_ok false t0 ii jj true) as (t1 & E1 & Hl1); [lia |].
      exists t1. split; [exact E1 |]. split; [lia |].
      split.
      * intros a b Hab. rewrite (get2_set2 _ _ _ _ _ _ a b E1).
        destruct ((a =? ii)%nat && (b =? jj)%nat); [reflexivity |].
        apply Hmono0. exact Hab.
      * intros a Ha. rewrite (get2_set2 _ _ _ _ _ _ a jj E1).
        destruct ((a =? ii)%nat && (jj =? jj)%nat) eqn:Eab; [reflexivity |].
        apply in_app_or in Ha. destruct Ha as [Ha | [<- | []]].
        -- apply Hrow0. exact Ha.
        -- rewrite !Nat.eqb_refl in Eab. discriminate.
    + split; [exact Hl |]. split; [trivial | intros a []].
    + exists t'. split; [exact E |]. split; [exact Hl' |].
      intros a b Ha Hb. apply in_app_or in Hb. destruct Hb as [Hb | [<- | []]].
      * apply Hmono. apply Hdone; assumption.
      * apply Hrow. exact Ha.
  - split; [exact Hlen | intros a b _ []].
  - exists vis'. split; [exact E |]. split; [exact Hl |].
    intros a b Ha Hb. apply Hall; apply in_seq; lia.
Qed.

Lemma seq_cons a n : (0 < n)%nat -> seq a n = a :: seq (S a) (n - 1).
Proof.
  destruct n as [| n]; [lia |]. intros _.
  replace (S n - 1)%nat with n by lia. reflexivity.
Qed.

(** ** The top surface of a grid that is flat everywhere *)

Section FlatTop.

Variable captured : list Slice.
Variable v : list Vec3.
Variable indexTop : Table nat.
Variable yTop : Table R.
Variable baseMat : MatName.

Hypothesis Hslices : (2 <= slices captured)%nat.
Hypothesis HindexTop : forall i j,
  (i < slices captured)%nat -> (j < bins)%nat ->
  get2 O indexTop i j = Normal (i * bins + j + 1)%nat.

Lemma topCellFaces_visited flatCell st i j :
  get2 false (visited st) i j = Normal true ->
  topCellFaces captured v indexTop yTop baseMat flatCell st i j = Normal st.
Proof.
  clear Hslices HindexTop.
  intros E. unfold topCellFaces. rewrite E. reflexivity.
Qed.

(** The first cell takes the whole grid as its rectangle. *)
Lemma topCellFaces_first f0 materials :
  exists vis1,
    topCellFaces captured v indexTop yTop baseMat
      (repeat (repeat true (bins - 1)) (slices captured - 1))
      (mkTopState (repeat (repeat false (bins - 1)) (slices captured - 1)) f0 materials)
      0 0
    = Normal (mkTopState vis1
                (emitFace v
                   (emitFace v f0 1 ((slices captured - 1) * bins + 1)
                             (slices captured * bins) OUT_TOP baseMat)
                   1 (slices captured * bins) bins OUT_TOP baseMat)
                materials) /\
    forall a b, (a < slices captured - 1)%nat -> (b < bins - 1)%nat ->
      get2 false vis1 a b = Normal true.
Proof.
  pose proof bins_val as Hb.
  set (flat := repeat (repeat true (bins - 1)) (slices captured - 1)).
  set (vis0 := repeat (repeat false (bins - 1)) (slices captured - 1)).
  assert (Hcell : forall a b, (a < slices captured - 1)%nat -> (b < bins - 1)%nat ->
            get2 false flat a b = Normal true /\ get2 false vis0 a b = Normal false).
  { intros a b Ha Hb'. split; apply get2_repeat; assumption. }
  assert (EW : growW flat vis0 0 (seq (0 + 1) (slices captured - 1 - (0 + 1))) 0
               = Normal (slices captured - 2)%nat).
  { rewrite growW_all.
    - rewrite last_seq. destruct (Nat.eqb_spec (slices captured - 1 - (0 + 1)) 0);
        f_equal; lia.
    - intros k Hk. apply in_seq in Hk. apply Hcell; lia. }
  assert (EH : growH flat vis0 0 (slices captured - 2)
                 (seq (0 + 1) (bins - 1 - (0 + 1))) 0 = Normal (bins - 2)%nat).
  { rewrite growH_all.
    - rewrite last_seq. destruct (Nat.eqb_spec (bins - 1 - (0 + 1)) 0);
        f_equal; lia.
    - intros jn k Hjn Hk. apply in_seq in Hjn. apply in_seq in Hk. apply Hcell; lia. }
  destruct (markVisited_all vis0 0 (slices captured - 2) 0 (bins - 2)
              (slices captured - 1)) as (vis1 & EM & _ & Hall).
  { apply repeat_length. }
  { lia. }
  exists vis1. split.
  - unfold topCellFaces. cbn [visited topFaces topMaterials].
    fold vis0. fold flat.
    rewrite (proj2 (Hcell 0%nat 0%nat ltac:(lia) ltac:(lia))). cbn [bind].
    rewrite (proj1 (Hcell 0%nat 0%nat ltac:(lia) ltac:(lia))). cbn [bind negb].
    rewrite EW. cbn [bind]. rewrite EH. cbn [bind].
    rewrite !HindexTop by lia. cbn [bind].
    rewrite EM. cbn [bind].
    replace (0 * bins + 0 + 1)%nat with 1%nat by lia.
    replace ((slices captured - 2 + 1) * bins + 0 + 1)%nat
      with ((slices captured - 1) * bins + 1)%nat by lia.
    replace ((slices captured - 2 + 1) * bins + (bins - 2 + 1) + 1)%nat
      with (slices captured * bins)%nat by lia.
    replace (0 * bins + (bins - 2 + 1) + 1)%nat with bins by lia.
    reflexivity.
  - intros a b Ha Hb'. apply Hall; lia.
Qed.

Lemma topSurface_flat materials :
  exists vis1,
    topSurface captured v indexTop yTop baseMat
      (repeat (repeat true (bins - 1)) (slices captured - 1))
      (mkTopState (repeat (repeat false (bins - 1)) (slices captured - 1)) [] materials)
    = Normal (mkTopState vis1
                (emitFace v
                   (emitFace v [] 1 ((slices captured - 1) * bins + 1)
                             (slices captured * bins) OUT_TOP baseMat)
                   1 (slices captured * bins) bins OUT_TOP baseMat)
                materials).
Proof.
  pose proof bins_val as Hb.
  destruct (topCellFaces_first [] materials) as (vis1 & E1 & Hall).
  exists vis1. unfold topSurface.
  rewrite (seq_cons 0 (bins - 1)) by lia. rewrite foldM_cons.
  rewrite (seq_cons 0 (slices captured - 1)) at 1 by lia. rewrite foldM_cons.
  rewrite E1. cbn [bind].
  rewrite foldM_id.
  2:{ intros i Hi. apply in_seq in Hi. apply topCellFaces_visited.
      cbn [visited]. apply Hall; lia. }
  cbn [bind]. apply foldM_id.
  intros j Hj. apply in_seq in Hj. apply foldM_id.
  intros i Hi. apply in_seq in Hi. apply topCellFaces_visited.
  cbn [visited]. apply Hall; lia.
Qed.

End FlatTop.

(** ** A quiet capture *)

Lemma topVertexArgs_quiet x sl j :
  quietSlice sl -> fst (topVertexArgs x sl j) = mkVec3 x 0 (topRowZ j).
Proof.
  intros Hq. unfold topVertexArgs. cbv zeta. cbn [fst].
  destruct (Nat.ltb_spec j activeRowsCount) as [Hj | Hj].
  - rewrite ltb_true by (apply Hq; exact Hj). reflexivity.
  - rewrite ltb_true; [reflexivity |].
    pose proof flatEps_pos. lra.
Qed.

Lemma eqb_refl x : eqb x x = true.
Proof. unfold eqb. destruct (Req_dec_T x x); [reflexivity | contradiction]. Qed.

Section Quiet.

Variable captured : list Slice.
Hypothesis Hquiet : Forall quietSlice captured.

Lemma quiet_nth i sl : nth_error captured i = Some sl -> quietSlice sl.
Proof.
  intros E. rewrite Forall_forall in Hquiet. apply Hquiet.
  apply nth_error_In with i. exact E.
Qed.

Lemma yTopOf_quiet i j :
  (i < slices captured)%nat -> (j < bins)%nat ->
  get2 0 (yTopOf captured) i j = Normal 0.
Proof.
  intros Hi Hj. destruct (nth_error_captured captured i Hi) as [sl Hsl].
  rewrite (yTopOf_at captured i j sl Hsl Hj).
  unfold topVertex. cbn [fst snd].
  rewrite topVertexArgs_quiet by (apply (quiet_nth i); exact Hsl). reflexivity.
Qed.

Lemma vertexAt_quiet i j :
  (i < slices captured)%nat -> (j < bins)%nat ->
  vertexAt (verticesOf captured) (i * bins + j + 1)
  = Some (mkVec3 (x0 captured + dx * INR i) 0 (topRowZ j)).
Proof.
  intros Hi Hj. destruct (nth_error_captured captured i Hi) as [sl Hsl].
  rewrite (vertexAt_top captured i j sl Hsl Hj).
  unfold topVertex. cbn [fst snd].
  rewrite topVertexArgs_quiet by (apply (quiet_nth i); exact Hsl). reflexivity.
Qed.

Lemma flatCells_quiet :
  flatCells captured (yTopOf captured)
  = Normal (repeat (repeat true (bins - 1)) (slices captured - 1)).
Proof.
  unfold flatCells.
  rewrite (mapM_const _ (repeat true (bins - 1))).
  - rewrite length_seq. reflexivity.
  - intros i Hi. apply in_seq in Hi.
    rewrite (mapM_const _ true).
    + rewrite length_seq. reflexivity.
    + intros j Hj. apply in_seq in Hj.
      rewrite !yTopOf_quiet by lia. cbn [bind].
      rewrite eqb_refl. reflexivity.
Qed.

End Quiet.

(** ** The faces after the top surface *)

Lemma extendsIn_refl mat f : extendsIn mat f f.
Proof. exists []. split; [rewrite app_nil_r; reflexivity | apply Forall_nil]. Qed.

Lemma extendsIn_trans mat f g h :
  extendsIn mat f g -> extendsIn mat g h -> extendsIn mat f h.
Proof.
  intros (x & -> & Hx) (y & -> & Hy). exists (x ++ y).
  split; [rewrite app_assoc; reflexivity | apply Forall_app; split; assumption].
Qed.

Lemma extendsIn_emitFace v f0 f i1 i2 i3 desired mat :
  extendsIn mat f0 f -> extendsIn mat f0 (emitFace v f i1 i2 i3 desired mat).
Proof.
  intros H. apply (extendsIn_trans mat f0 f); [exact H |].
  destruct (emitFace_app v f i1 i2 i3 desired mat) as (fc & -> & Hfc).
  exists [fc]. split; [reflexivity |].
  apply Forall_cons; [| apply Forall_nil].
  destruct Hfc as [-> | ->]; reflexivity.
Qed.

(** A loop of [emitFace] calls that returns has only appended faces. *)
Lemma foldM_extendsIn {A} mat (body : list Face -> A -> Completion (list Face)) l :
  (forall f a f', body f a = Normal f' -> extendsIn mat f f') ->
  forall f f', foldM body l f = Normal f' -> extendsIn mat f f'.
Proof.
  intros Hbody f f' E.
  apply (foldM_preserves (extendsIn mat f) body l) with (st := f);
    [| exact E | apply extendsIn_refl].
  intros f0 a f0' _ E0 H0.
  apply (extendsIn_trans mat f f0); [exact H0 | apply (Hbody _ _ _ E0)].
Qed.

Ltac two_faces E :=
  inv_binds E; injection E as <-;
  apply extendsIn_emitFace, extendsIn_emitFace, extendsIn_refl.

Lemma frontSeam_extends captured v indexTop baseMat f f' :
  frontSeam captured v indexTop baseMat f = Normal f' -> extendsIn baseMat f f'.
Proof. apply foldM_extendsIn. intros f0 i f0' E. two_faces E. Qed.

Lemma bottomSurface_extends captured v indexBottom baseMat f f' :
  bottomSurface captured v indexBottom baseMat f = Normal f' -> extendsIn baseMat f f'.
Proof.
  apply foldM_extendsIn. intros f0 i f0'. apply foldM_extendsIn.
  intros f1 j f1' E. two_faces E.
Qed.

Lemma wallAlongX_extends captured v indexTop indexBottom baseMat j desired f f' :
  wallAlongX captured v indexTop indexBottom baseMat j desired f = Normal f' ->
  extendsIn baseMat f f'.
Proof. apply foldM_extendsIn. intros f0 i f0' E. two_faces E. Qed.

Lemma wallAlongZ_extends v indexTop baseMat i sideBottom desired f f' :
  wallAlongZ v indexTop baseMat i sideBottom desired f = Normal f' ->
  extendsIn baseMat f f'.
Proof. apply foldM_extendsIn. intros f0 j f0' E. two_faces E. Qed.

Lemma leftWall_extends v indexTop baseMat sideBottomLeft f f' :
  leftWall v indexTop baseMat sideBottomLeft f = Normal f' -> extendsIn baseMat f f'.
Proof.
  intros E. unfold leftWall in E. inv_bind E.
  apply wallAlongZ_extends in E0.
  inv_binds E. injection E as <-.
  apply extendsIn_emitFace, extendsIn_emitFace. exact E0.
Qed.

Lemma rightWall_extends captured v indexTop baseMat sideBottomRight f f' :
  rightWall captured v indexTop baseMat sideBottomRight f = Normal f' ->
  extendsIn baseMat f f'.
Proof.
  intros E. unfold rightWall in E. inv_bind E.
  apply wallAlongZ_extends in E0.
  inv_binds E. injection E as <-.
  apply extendsIn_emitFace, extendsIn_emitFace. exact E0.
Qed.

(** What [triangulate] returns, from what its top-surface loop returned:
    the faces of the top come first, the other phases add a fixed number
    of faces, all of the base material. *)
Lemma triangulate_after_top captured v indexTop indexBottom yTop baseMat materials
  fl st m :
  flatCells captured yTop = Normal fl ->
  topSurface captured v indexTop yTop baseMat fl
    (mkTopState (repeat (repeat false (bins - 1)) (slices captured - 1)) [] materials)
  = Normal st ->
  materialsHas (topMaterials st) (179, 179, 179)%Z = true ->
  triangulate captured v indexTop yTop indexBottom materials baseMat = Normal m ->
  exists rest,
    faces m = topFaces st ++ rest /\
    length rest = (2 * (slices captured - 1) * (bins + 2) + 4 * bins)%nat /\
    Forall (fun fc => fmat fc = baseMat) rest /\
    meshMaterials m = topMaterials st /\
    vertices m = v.
Proof.
  intros Efl Etop Hhas E. unfold triangulate in E.
  rewrite Efl in E. cbn [bind] in E. rewrite Etop in E. cbn [bind] in E.
  rewrite baseKey_val, Hhas in E. cbn [negb] in E.
  inv_bind E. pose proof E0 as C1. apply frontSeam_count in C1.
  apply frontSeam_extends in E0.
  inv_bind E. pose proof E1 as C2. apply bottomSurface_count in C2.
  apply bottomSurface_extends in E1.
  inv_bind E. unfold backWall in E2.
  pose proof E2 as C3. apply wallAlongX_count in C3.
  apply wallAlongX_extends in E2.
  inv_bind E. unfold frontWall in E3.
  pose proof E3 as C4. apply wallAlongX_count in C4.
  apply wallAlongX_extends in E3.
  inv_bind E. inv_bind E.
  pose proof E5 as C5. apply leftWall_count in C5.
  apply leftWall_extends in E5.
  inv_bind E.
  pose proof E6 as C6. apply rightWall_count in C6.
  apply rightWall_extends in E6.
  injection E as <-. cbn [faces meshMaterials vertices].
  assert (X : extendsIn baseMat (topFaces st) k5).
  { apply (extendsIn_trans _ _ k4); [| exact E6].
    apply (extendsIn_trans _ _ k2); [| exact E5].
    apply (extendsIn_trans _ _ k1); [| exact E3].
    apply (extendsIn_trans _ _ k0); [| exact E2].
    apply (extendsIn_trans _ _ k); [exact E0 | exact E1]. }
  destruct X as (rest & -> & Hrest). exists rest.
  split; [reflexivity |].
  split; [rewrite length_app in C6; rewrite bins_val in *; lia |].
  split; [exact Hrest |]. split; reflexivity.
Qed.

Lemma emitFace_swapped v f i1 i2 i3 desired matName dot :
  faceDot v i1 i2 i3 desired = Some dot -> dot < 0 ->
  emitFace v f i1 i2 i3 desired matName = f ++ [mkFace matName i1 i3 i2].
Proof.
  intros E Hneg. unfold emitFace. rewrite E.
  rewrite leb_false by lra. reflexivity.
Qed.

Lemma dx_pos : 0 < dx.
Proof.
  unfold dx, width. apply Rdiv_lt_0_compat; [lra |].
  assert (H : INR 1 < INR numSlices) by (apply lt_INR; unfold numSlices; lia).
  cbn [INR] in H. lra.
Qed.

Lemma topRowZ_first : topRowZ 0 = z0.
Proof.
  rewrite topRowZ_zRowPosition, zRowPosition_first. unfold zMin, z0. reflexivity.
Qed.

Lemma topRowZ_last : topRowZ (bins - 1) = z0 + depth.
Proof.
  rewrite topRowZ_zRowPosition, zRowPosition_collapsed
    by (rewrite bins_val, activeRows_val; lia).
  unfold zMax, z0, depth. lra.
Qed.

(** X19.  A quiet capture exports as a box.  When every height of a
    history of two or more slices falls under [flatEps], every top vertex
    is at height 0, every cell of the top is flat, and the first cell's
    rectangle grows over the whole grid: the top surface is the two
    triangles on the four corner vertices of the grid, both in the base
    material and both emitted with their last two indices swapped.  The
    other phases add [2 * (slices - 1) * (bins + 2) + 4 * bins] faces of the
    base material, and the base material is the only material. *)
Theorem quiet_capture_is_a_box (captured : list Slice)
  (Hs : (2 <= length captured)%nat) (Hquiet : Forall quietSlice captured) :
  exists m rest,
    buildOBJFromCaptured captured = Normal m /\
    (forall i j, (i < slices captured)%nat -> (j < bins)%nat ->
       vertexAt (vertices m) (i * bins + j + 1)
       = Some (mkVec3 (x0 captured + dx * INR i) 0 (topRowZ j))) /\
    faces m
    = mkFace (179, 179, 179)%Z 1 (slices captured * bins)
             ((slices captured - 1) * bins + 1)
      :: mkFace (179, 179, 179)%Z 1 bins (slices captured * bins)
      :: rest /\
    length rest = (2 * (slices captured - 1) * (bins + 2) + 4 * bins)%nat /\
    Forall (fun fc => fmat fc = (179, 179, 179)%Z) rest /\
    meshMaterials m
    = [((179, 179, 179)%Z,
        mkMaterial (179, 179, 179)%Z (179 / 255) (179 / 255) (179 / 255))].
Proof.
  pose proof bins_val as Hb.
  assert (Hs' : (2 <= slices captured)%nat) by exact Hs.
  destruct (buildOBJFromCaptured_returns captured) as (m & Em & _); [lia |].
  pose proof Em as E.
  rewrite buildOBJFromCaptured_eq, materialNameForColor_base in E. cbn [fst snd] in E.
  destruct (topSurface_flat captured (verticesOf captured) (indexTopOf captured)
              (yTopOf captured) (179, 179, 179)%Z Hs' (indexTopOf_at captured)
              [((179, 179, 179)%Z,
                mkMaterial (179, 179, 179)%Z (179 / 255) (179 / 255) (179 / 255))])
    as (vis1 & Etop).
  destruct (triangulate_after_top _ _ _ _ _ _ _ _ _ _
              (flatCells_quiet captured Hquiet) Etop eq_refl E)
    as (rest & Hf & Hlen & Hbase & Hm & Hv).
  cbn [topFaces topMaterials] in Hf, Hm.
  exists m, rest. split; [exact Em |].
  split; [intros i j Hi Hj; rewrite Hv; apply vertexAt_quiet; assumption |].
  split; [| split; [exact Hlen | split; [exact Hbase | exact Hm]]].
  rewrite Hf.
  (* the four corners of the grid *)
  assert (V1 : vertexAt (verticesOf captured) 1
               = Some (mkVec3 (x0 captured + dx * INR 0) 0 (topRowZ 0))).
  { replace 1%nat with (0 * bins + 0 + 1)%nat by lia.
    apply vertexAt_quiet; [exact Hquiet | lia | lia]. }
  assert (V2 : vertexAt (verticesOf captured) ((slices captured - 1) * bins + 1)
               = Some (mkVec3 (x0 captured + dx * INR (slices captured - 1)) 0
                              (topRowZ 0))).
  { replace ((slices captured - 1) * bins + 1)%nat
      with ((slices captured - 1) * bins + 0 + 1)%nat by lia.
    apply vertexAt_quiet; [exact Hquiet | lia | lia]. }
  assert (V3 : vertexAt (verticesOf captured) (slices captured * bins)
               = Some (mkVec3 (x0 captured + dx * INR (slices captured - 1)) 0
                              (topRowZ (bins - 1)))).
  { replace (slices captured * bins)%nat
      with ((slices captured - 1) * bins + (bins - 1) + 1)%nat by lia.
    apply vertexAt_quiet; [exact Hquiet | lia | lia]. }
  assert (V4 : vertexAt (verticesOf captured) bins
               = Some (mkVec3 (x0 captured + dx * INR 0) 0 (topRowZ (bins - 1)))).
  { replace bins with (0 * bins + (bins - 1) + 1)%nat at 1 by lia.
    apply vertexAt_quiet; [exact Hquiet | lia | lia]. }
  rewrite topRowZ_first in V1, V2. rewrite topRowZ_last in V3, V4.
  assert (HW : 0 < dx * INR (slices captured - 1)).
  { apply Rmult_lt_0_compat; [apply dx_pos |].
    apply (lt_INR 0). lia. }
  cbn [INR] in V1, V4.
  set (W := dx * INR (slices captured - 1)) in *.
  assert (HD : 0 < depth) by (unfold depth; lra).
  rewrite (emitFace_swapped _ [] 1 _ _ OUT_TOP _ (- (W * depth))).
  2:{ unfold faceDot. rewrite V1, V2, V3.
      unfold dot3, faceNormal, OUT_TOP. cbn [vX vY vZ]. f_equal. unfold W. ring. }
  2:{ nra. }
  rewrite (emitFace_swapped _ _ 1 _ _ OUT_TOP _ (- (W * depth))).
  2:{ unfold faceDot. rewrite V1, V3, V4.
      unfold dot3, faceNormal, OUT_TOP. cbn [vX vY vZ]. f_equal. unfold W. ring. }
  2:{ nra. }
  reflexivity.
Qed.

Lemma quiet_capture_is_a_box_witness :
  exists m rest,
    buildOBJFromCaptured [repeat 0%R pointsPerSlice; repeat 0%R pointsPerSlice]
    = Normal m /\
    (forall i j,
       (i < slices [repeat 0%R pointsPerSlice; repeat 0%R pointsPerSlice])%nat ->
       (j < bins)%nat ->
       vertexAt (vertices m) (i * bins + j + 1)
       = Some (mkVec3 (x0 [repeat 0%R pointsPerSlice; repeat 0%R pointsPerSlice]
                       + dx * INR i) 0 (topRowZ j))) /\
    faces m
    = mkFace (179, 179, 179)%Z 1
             (slices [repeat 0%R pointsPerSlice; repeat 0%R pointsPerSlice] * bins)
             ((slices [repeat 0%R pointsPerSlice; repeat 0%R pointsPerSlice] - 1) * bins
              + 1)
      :: mkFace (179, 179, 179)%Z 1 bins
                (slices [repeat 0%R pointsPerSlice; repeat 0%R pointsPerSlice] * bins)
      :: rest /\
    length rest
    = (2 * (slices [repeat 0%R pointsPerSlice; repeat 0%R pointsPerSlice] - 1)
       * (bins + 2) + 4 * bins)%nat /\
    Forall (fun fc => fmat fc = (179, 179, 179)%Z) rest /\
    meshMaterials m
    = [((179, 179, 179)%Z,
        mkMaterial (179, 179, 179)%Z (179 / 255) (179 / 255) (179 / 255))].
Proof.
  apply (quiet_capture_is_a_box
           [repeat 0%R pointsPerSlice; repeat 0%R pointsPerSlice]).
  - cbn [length]. lia.
  - assert (Hq : quietSlice (repeat 0 pointsPerSlice)).
    { intros j _. unfold sliceAt.
      destruct (nth_in_or_default j (repeat 0 pointsPerSlice) 0) as [Hin | ->].
      - apply repeat_spec in Hin. rewrite Hin.
        unfold flatEps, depth, heightScale. lra.
      - unfold flatEps, depth, heightScale. lra. }
    apply Forall_cons; [exact Hq | apply Forall_cons; [exact Hq | apply Forall_nil]].
Defined.

(** ** The frequency ticks *)

Lemma Math_round_mono x y : x <= y -> (Math_round x <= Math_round y)%Z.
Proof.
  intros Hxy. destruct (Math_round_near x) as [Hx _], (Math_round_near y) as [_ Hy].
  assert (H : (Math_round x < Math_round y + 1)%Z).
  { apply lt_IZR. rewrite plus_IZR. lra. }
  lia.
Qed.

Lemma INR_freqBinCount : INR freqBinCount = 512.
Proof. unfold freqBinCount. rewrite INR_IZR_INZ. reflexivity. Qed.

Lemma INR_sliceStride : INR sliceStride = 4.
Proof. rewrite sliceStride_val. rewrite INR_IZR_INZ. reflexivity. Qed.

Lemma freqTickRow_some ny hz r :
  freqTickRow ny hz = Some r ->
  0 < hz <= ny /\ (0 <= r < Z.of_nat activeRows)%Z /\
  r = Math_round (hz / ny * INR freqBinCount / INR sliceStride).
Proof.
  unfold freqTickRow. cbv zeta.
  unfold leb, ltb.
  destruct (Rle_dec hz 0) as [H0 | H0]; cbn [orb]; [discriminate |].
  destruct (Rlt_dec ny hz) as [H1 | H1]; [discriminate |].
  set (row := Math_round _).
  destruct (Z.ltb_spec row 0) as [Hn | Hn]; cbn [orb]; [discriminate |].
  destruct (Z.leb_spec (Z.of_nat activeRows) row) as [Ha | Ha]; [discriminate |].
  intros [= <-]. split; [lra |]. split; [lia | reflexivity].
Qed.

(** X20.  The frequency ticks.  A frequency that gets a tick lies in
    (0, nyquistHz]; its row is an active row, and it is the row whose
    sampled bin, [srcIndex row = 4 * row], is within 2 bins of the
    frequency's own bin [hz / nyquistHz * freqBinCount]: the tick stands
    at the row that shows that frequency.  The tick's z is that row's
    entry of [zRowPositions], between [zMin] and [zMax], and ticks of
    higher frequencies stand at rows and at z that are not lower. *)
Theorem frequency_tick_placement (nyquistHz hz : R) (row : Z)
  (Hny : 0 < nyquistHz) (Htick : freqTickRow nyquistHz hz = Some row) :
  0 < hz <= nyquistHz /\
  (0 <= row < Z.of_nat activeRows)%Z /\
  Rabs (INR (srcIndex (Z.to_nat row)) - hz / nyquistHz * INR freqBinCount) <= 2 /\
  freqTickZ nyquistHz hz = Some (nth (Z.to_nat row) zRowPositions 0) /\
  zMin <= nth (Z.to_nat row) zRowPositions 0 <= zMax /\
  (forall hz' row',
     hz <= hz' -> freqTickRow nyquistHz hz' = Some row' ->
     (row <= row')%Z /\
     nth (Z.to_nat row) zRowPositions 0 <= nth (Z.to_nat row') zRowPositions 0).
Proof.
  destruct (freqTickRow_some _ _ _ Htick) as (Hhz & Hrow & Er).
  pose proof activeRows_lt_pointsPerSlice as Hp.
  split; [exact Hhz |]. split; [exact Hrow |].
  split.
  { assert (Hsrc : srcIndex (Z.to_nat row) = (4 * Z.to_nat row)%nat).
    { unfold srcIndex. rewrite sliceStride_val. unfold freqBinCount.
      rewrite activeRows_val in Hrow. lia. }
    rewrite Hsrc, mult_INR, INR_IZR_INZ, INR_IZR_INZ, Z2Nat.id by lia.
    change (IZR (Z.of_nat 4)) with 4.
    destruct (Math_round_near (hz / nyquistHz * INR freqBinCount / INR sliceStride))
      as [H1 H2].
    rewrite <- Er, INR_sliceStride in H1, H2.
    apply Rabs_le. lra. }
  split.
  { unfold freqTickZ. rewrite Htick. reflexivity. }
  split; [apply zRowPositions_range; lia |].
  intros hz' row' Hle Htick'.
  destruct (freqTickRow_some _ _ _ Htick') as (Hhz' & Hrow' & Er').
  assert (Hrr : (row <= row')%Z).
  { rewrite Er, Er'. apply Math_round_mono.
    rewrite INR_freqBinCount, INR_sliceStride.
    assert (Hq : hz / nyquistHz <= hz' / nyquistHz).
    { unfold Rdiv. apply Rmult_le_compat_r; [| exact Hle].
      apply Rlt_le, Rinv_0_lt_compat. exact Hny. }
    lra. }
  split; [exact Hrr |].
  destruct (Z.eq_dec row row') as [<- | Hne]; [lra |].
  left. apply zRowPositions_increasing; lia.
Qed.

Lemma frequency_tick_placement_witness :
  freqTickZ 24000 1500 = Some (nth (Z.to_nat 8) zRowPositions 0).
Proof.
  apply (frequency_tick_placement 24000 1500 8).
  - lra.
  - unfold freqTickRow. cbv zeta.
    rewrite leb_false, ltb_false by lra. cbn [orb].
    rewrite INR_freqBinCount, INR_sliceStride.
    rewrite (Math_round_IZR 8) by lra.
    rewrite activeRows_val. reflexivity.
Defined.

(** ** Invariants of the script *)

Lemma fold_left_inv {A B} (Inv : A -> Prop) (f : A -> B -> A) l :
  (forall a b, Inv a -> Inv (f a b)) -> forall a, Inv a -> Inv (fold_left f l a).
Proof.
  intros Hf. induction l as [| b l IH]; intros a Ha; [exact Ha |].
  cbn [fold_left]. apply IH, Hf, Ha.
Qed.

(** A tick writes heights and colours only: x and z of every vertex of
    the live buffer stay. *)
Lemma shiftAndAppend_frame rows rowSize sl pc o v :
  (o < 3)%nat -> o <> 1%nat ->
  getCh o (fst (shiftAndAppend rows rowSize sl pc)) v = getCh o (fst pc) v.
Proof.
  intros Ho Hne. unfold shiftAndAppend.
  apply (fold_left_inv (fun pc' => getCh o (fst pc') v = getCh o (fst pc) v));
    [| reflexivity].
  intros pc1 z H1. unfold rowStep. cbv zeta.
  assert (H2 : getCh o (fst (fold_left (shiftStep (z * rowSize))
                                       (seq 0 (rowSize - 1)) pc1)) v
               = getCh o (fst pc) v).
  { apply (fold_left_inv (fun pc' => getCh o (fst pc') v = getCh o (fst pc) v));
      [| exact H1].
    intros [p cl] x Hp. unfold shiftStep. cbn [fst] in *.
    rewrite getCh_setCh_other by lia. exact Hp. }
  destruct (fold_left _ (seq 0 (rowSize - 1)) pc1) as [p cl]. cbn [fst] in *.
  rewrite getCh_setCh_other by lia. exact H2.
Qed.

Lemma update_frame st freqData o v :
  (o < 3)%nat -> o <> 1%nat ->
  getCh o (positionAttr (updateSurfaceFromFrequencies st freqData)) v
  = getCh o (positionAttr st) v.
Proof.
  intros Ho Hne.
  pose proof (shiftAndAppend_frame pointsPerSlice numSlices (normalizeSlice freqData)
                (positionAttr st, colors st) o v Ho Hne) as H.
  unfold updateSurfaceFromFrequencies.
  destruct (shiftAndAppend pointsPerSlice numSlices (normalizeSlice freqData)
              (positionAttr st, colors st)) as [p cl].
  exact H.
Qed.

Lemma update_sized st freqData :
  sized pointsPerSlice numSlices (bufferOf st) ->
  sized pointsPerSlice numSlices (bufferOf (updateSurfaceFromFrequencies st freqData)).
Proof.
  intros Hs. rewrite update_buffer.
  apply (shiftAndAppend_spec pointsPerSlice numSlices numSlices_pos). exact Hs.
Qed.

(** The initial plane after the loop over the rows. *)
Lemma applyRowPositions_spec plane :
  length plane = (pointsPerSlice * numSlices * 3)%nat ->
  length (applyRowPositions plane) = length plane /\
  (forall v, getCh 0 (applyRowPositions plane) v = getCh 0 plane v) /\
  (forall z x, (z < pointsPerSlice)%nat -> (x < numSlices)%nat ->
     getCh 2 (applyRowPositions plane) (z * numSlices + x) = rd zRowPositions z).
Proof.
  intros Hlen. unfold applyRowPositions. cbv zeta.
  pose proof (gridLoop_spec 2 (fun _ z => rd zRowPositions z) numSlices plane
                pointsPerSlice ltac:(lia)) as H.
  cbv beta zeta in H. destruct H as (Hl & Hoth & Hz & _).
  split; [exact Hl |]. split; [intros v; apply Hoth; lia |].
  intros z x Hz' Hx. rewrite Hz; [reflexivity | exact Hz' | exact Hx |].
  rewrite Hlen.
  assert (H : ((z + 1) * numSlices <= pointsPerSlice * numSlices)%nat)
    by (apply Nat.mul_le_mono_r; lia).
  lia.
Qed.

Lemma resetVisualization_initial st :
  geometry st = InitialGeometry ->
  geometry (resetVisualization st) = InitialGeometry /\
  capturedSlices (resetVisualization st) = capturedSlices st /\
  length (positionAttr (resetVisualization st)) = length (positionAttr st) /\
  length (colors (resetVisualization st)) = length (colors st) /\
  (forall o v, (o < 3)%nat -> o <> 1%nat ->
     getCh o (positionAttr (resetVisualization st)) v = getCh o (positionAttr st) v).
Proof.
  intros Hg.
  destruct (resetVisualization_eq st) as (Ep & Ec & _ & _).
  cbv zeta in Ep, Ec.
  destruct (resetLoop_spec 0.15 0.15 0.15 (geometryPosition st) (colors st)
              (length (positionAttr st) / 3)) as (Lp & Lc & Hxz & _).
  cbv zeta in Lp, Lc, Hxz.
  assert (Hg' : geometry (resetVisualization st) = InitialGeometry).
  { unfold resetVisualization. destruct (fold_left _ _ _) as [p cl].
    rewrite Hg. reflexivity. }
  assert (Hpa : positionAttr (resetVisualization st)
                = geometryPosition (resetVisualization st)).
  { unfold geometryPosition. rewrite Hg'. reflexivity. }
  assert (Hpa0 : positionAttr st = geometryPosition st).
  { unfold geometryPosition. rewrite Hg. reflexivity. }
  split; [exact Hg' |].
  split; [apply resetVisualization_capturedSlices |].
  rewrite <- Hpa0 in Ep, Ec, Lp, Lc, Hxz. rewrite Hpa, Ep, Ec.
  split; [exact Lp |]. split; [exact Lc |].
  intros o v Ho Hne.
  destruct (Hxz v) as [H0 H2].
  destruct o as [| [| [| o]]]; [exact H0 | contradiction | exact H2 | lia].
Qed.

Lemma resetVisualization_final st p :
  geometry st = FinalGeometry p ->
  positionAttr (resetVisualization st) = positionAttr st /\
  capturedSlices (resetVisualization st) = capturedSlices st /\
  length (colors (resetVisualization st)) = length (colors st) /\
  exists p', geometry (resetVisualization st) = FinalGeometry p' /\
             length p' = length p.
Proof.
  intros Hg.
  destruct (resetVisualization_eq st) as (Ep & Ec & _ & _).
  cbv zeta in Ep, Ec.
  destruct (resetLoop_spec 0.15 0.15 0.15 (geometryPosition st) (colors st)
              (length (positionAttr st) / 3)) as (Lp & Lc & _).
  cbv zeta in Lp, Lc.
  split.
  { unfold resetVisualization. destruct (fold_left _ _ _) as [p1 cl].
    rewrite Hg. reflexivity. }
  split; [apply resetVisualization_capturedSlices |].
  split; [rewrite Ec; exact Lc |].
  exists (geometryPosition (resetVisualization st)).
  split.
  - unfold geometryPosition, resetVisualization.
    destruct (fold_left _ _ _) as [p1 cl]. rewrite Hg. reflexivity.
  - rewrite Ep, Lp. unfold geometryPosition. rewrite Hg. reflexivity.
Qed.

Lemma scriptInv_initial plane0 :
  length plane0 = (pointsPerSlice * numSlices * 3)%nat ->
  scriptInv plane0 (initialState plane0).
Proof.
  intros Hlen. unfold initialState.
  set (st0 := mkState (applyRowPositions plane0) (repeat 0 (length plane0 / 3 * 3))
                      InitialGeometry [] false false).
  destruct (resetVisualization_initial st0 eq_refl) as (Hg & Hc & Lp & Lc & Hfr).
  destruct (applyRowPositions_spec plane0 Hlen) as (La & Hx & Hz).
  split.
  { split; cbn [bufferOf fst snd].
    - rewrite Lp. unfold st0. cbn [positionAttr]. rewrite La. exact Hlen.
    - rewrite Lc. unfold st0. cbn [colors]. rewrite repeat_length, Hlen.
      rewrite Nat.div_mul by discriminate. reflexivity. }
  split.
  { intros v. rewrite Hfr by lia. unfold st0. cbn [positionAttr]. apply Hx. }
  split.
  { intros z x Hz' Hx'. rewrite Hfr by lia. unfold st0. cbn [positionAttr].
    apply Hz; assumption. }
  split.
  { rewrite Hc. apply Forall_nil. }
  rewrite Hg. exact I.
Qed.

Lemma scriptInv_step plane0 st e :
  scriptInv plane0 st -> admissible st e -> scriptInv plane0 (handle st e).
Proof.
  intros (Hs & Hx & Hz & Hu & Hgeo) Hadm.
  destruct e as [paused fd | b | | plane |]; cbn [handle admissible] in *.
  - (* a frame *)
    unfold animate. destruct (negb paused && negb (hasEnded st)).
    2:{ repeat split; try assumption; apply Hs. }
    split; [apply update_sized; exact Hs |].
    split; [intros v; rewrite update_frame by lia; apply Hx |].
    split; [intros z x Hz' Hx'; rewrite update_frame by lia; apply Hz; assumption |].
    split.
    + rewrite update_capturedSlices. destruct (isCapturing st); [| exact Hu].
      apply Forall_app. split; [exact Hu |].
      apply Forall_cons; [apply normalizeSlice_unit; exact Hadm | apply Forall_nil].
    + rewrite (proj2 (proj2 (update_flags st fd))). exact Hgeo.
  - (* the capturing flag *)
    split; [exact Hs |]. split; [exact Hx |]. split; [exact Hz |].
    split; [exact Hu | exact Hgeo].
  - (* reset *)
    unfold resetClick.
    set (st0 := mkState (positionAttr st) (colors st) (geometry st) [] false false).
    destruct (geometry st) as [| p] eqn:Eg.
    + destruct (resetVisualization_initial st0 eq_refl) as (Hg & Hc & Lp & Lc & Hfr).
      destruct Hs as [Hsp Hsc]. cbn [bufferOf fst snd] in Hsp, Hsc.
      split; [split; cbn [bufferOf fst snd]; [rewrite Lp | rewrite Lc]; assumption |].
      split; [intros v; rewrite Hfr by lia; apply Hx |].
      split; [intros z x Hz' Hx'; rewrite Hfr by lia; apply Hz; assumption |].
      split; [rewrite Hc; apply Forall_nil |].
      rewrite Hg. exact I.
    + destruct (resetVisualization_final st0 p eq_refl) as (Hpa & Hc & Lc & p' & Hg & Lp').
      destruct Hs as [Hsp Hsc]. cbn [bufferOf fst snd] in Hsp, Hsc.
      split; [split; cbn [bufferOf fst snd]; [rewrite Hpa | rewrite Lc]; assumption |].
      split; [intros v; rewrite Hpa; apply Hx |].
      split; [intros z x Hz' Hx'; rewrite Hpa; apply Hz; assumption |].
      split; [rewrite Hc; apply Forall_nil |].
      rewrite Hg, Lp'. exact Hgeo.
  - (* the end of the playback *)
    unfold endedHandler.
    set (st0 := mkState (positionAttr st) (colors st) (geometry st) (capturedSlices st)
                        false true).
    destruct (Nat.lt_ge_cases (length (capturedSlices st)) 2) as [Hlt | Hge].
    + rewrite finalizeModelGeometry_short by exact Hlt.
      split; [exact Hs |]. split; [exact Hx |]. split; [exact Hz |].
      split; [exact Hu | exact Hgeo].
    + destruct (finalizeModelGeometry_spec plane st0 Hge Hadm) as (pos & E & Hl & _).
      rewrite E.
      split; [exact Hs |]. split; [exact Hx |]. split; [exact Hz |].
      split; [exact Hu |].
      cbn [geometry]. rewrite Hl, Hadm.
      rewrite Nat.div_mul by discriminate.
      rewrite (Nat.mul_comm 2). apply Nat.mul_le_mono_l. exact Hge.
  - (* export *)
    unfold exportClick. cbn [fst].
    destruct (length (capturedSlices st) <? 2)%nat.
    + split; [exact Hs |]. split; [exact Hx |]. split; [exact Hz |].
      split; [apply synthesize_unit | exact Hgeo].
    + split; [exact Hs |]. split; [exact Hx |]. split; [exact Hz |].
      split; [exact Hu | exact Hgeo].
Qed.

(** X21.  Every state the script can reach, from the initial plane of
    [pointsPerSlice * numSlices] vertices, with bytes from the analyser and
    planes of the size asked for from THREE: the live buffer keeps its
    size; no tick, reset, end of playback or export moves a vertex of the
    live buffer in x or z, so its row [z] stays at [zRowPositions[z]]; the
    history holds unit slices; and the displayed geometry has the vertices
    of two slices or more, so that an export reads inside it and hands the
    builder unit slices. *)
Theorem reachable_states_keep_shape (plane0 : list R) (st : State)
  (Hplane : length plane0 = (pointsPerSlice * numSlices * 3)%nat)
  (Hreach : reachable plane0 st) :
  sized pointsPerSlice numSlices (bufferOf st) /\
  (forall v, getCh 0 (positionAttr st) v = getCh 0 plane0 v) /\
  (forall z x, (z < pointsPerSlice)%nat -> (x < numSlices)%nat ->
     getCh 2 (positionAttr st) (z * numSlices + x) = nth z zRowPositions 0) /\
  Forall unitSlice (capturedSlices st) /\
  (2 * pointsPerSlice <= length (geometryPosition st) / 3)%nat /\
  Forall unitSlice (capturedSlices (fst (exportClick st))).
Proof.
  assert (Hinv : scriptInv plane0 st).
  { induction Hreach as [| st e _ IH Hadm].
    - apply scriptInv_initial. exact Hplane.
    - apply scriptInv_step; assumption. }
  destruct Hinv as (Hs & Hx & Hz & Hu & Hgeo).
  split; [exact Hs |]. split; [exact Hx |].
  split.
  { intros z x Hz' Hx'. unfold rd in Hz. apply Hz; assumption. }
  split; [exact Hu |].
  split.
  - unfold geometryPosition. destruct (geometry st) as [| p]; [| exact Hgeo].
    destruct Hs as [Hsp _]. cbn [bufferOf fst] in Hsp. rewrite Hsp.
    rewrite Nat.div_mul by discriminate.
    rewrite (Nat.mul_comm 2). apply Nat.mul_le_mono_l. exact numSlices_ge_2.
  - unfold exportClick. cbn [fst].
    destruct (length (capturedSlices st) <? 2)%nat; [apply synthesize_unit | exact Hu].
Qed.

Lemma reachable_states_keep_shape_witness :
  sized pointsPerSlice numSlices
        (bufferOf (handle (initialState (repeat 0 (pointsPerSlice * numSlices * 3)))
                          ResetClick)).
Proof.
  apply (reachable_states_keep_shape (repeat 0 (pointsPerSlice * numSlices * 3))
           (handle (initialState (repeat 0 (pointsPerSlice * numSlices * 3))) ResetClick)).
  - apply repeat_length.
  - apply reach_step; [apply reach_init | exact I].
Defined.

(** ** Cells that are not flat keep their own triangles *)

Lemma growW_sound flatCell vis j : forall n iW r,
  growW flatCell vis j (seq (iW + 1) n) iW = Normal r ->
  (iW <= r)%nat /\
  forall c, (iW < c <= r)%nat -> get2 false flatCell c j = Normal true.
Proof.
  induction n as [| n IH]; intros iW r E.
  - cbn [seq growW] in E. injection E as <-. split; [lia | intros; lia].
  - cbn [seq growW] in E. inv_bind E. destruct k.
    + inv_bind E. destruct k; cbn [negb] in E.
      * injection E as <-. split; [lia | intros; lia].
      * replace (S (iW + 1)) with (iW + 1 + 1)%nat in E by lia.
        apply IH in E. destruct E as [Hle Hall]. split; [lia |].
        intros c Hc. destruct (Nat.eq_dec c (iW + 1)) as [-> | Hne];
          [exact E0 | apply Hall; lia].
    + injection E as <-. split; [lia | intros; lia].
Qed.

Lemma columnGrows_sound flatCell vis jn : forall ks,
  columnGrows flatCell vis jn ks = Normal true ->
  forall c, In c ks -> get2 false flatCell c jn = Normal true.
Proof.
  induction ks as [| k0 rest IH]; intros E c Hc; [destruct Hc |].
  cbn [columnGrows] in E. inv_bind E. destruct k; cbn [negb] in E; [| discriminate].
  inv_bind E. destruct k; [discriminate |].
  destruct Hc as [<- | Hc]; [exact E0 | apply IH; assumption].
Qed.

Lemma growH_sound flatCell vis i iW : forall n jH r,
  growH flatCell vis i iW (seq (jH + 1) n) jH = Normal r ->
  (jH <= r)%nat /\
  forall jn c, (jH < jn <= r)%nat -> In c (seq i (iW + 1 - i)) ->
    get2 false flatCell c jn = Normal true.
Proof.
  induction n as [| n IH]; intros jH r E.
  - cbn [seq growH] in E. injection E as <-. split; [lia | intros; lia].
  - cbn [seq growH] in E. inv_bind E. destruct k.
    + replace (S (jH + 1)) with (jH + 1 + 1)%nat in E by lia.
      apply IH in E. destruct E as [Hle Hall]. split; [lia |].
      intros jn c Hjn Hc. destruct (Nat.eq_dec jn (jH + 1)) as [-> | Hne].
      * apply (columnGrows_sound _ _ _ _ E0). exact Hc.
      * apply Hall; [lia | exact Hc].
    + injection E as <-. split; [lia | intros; lia].
Qed.

(** [markVisited] sets the cells of the rectangle and no others. *)
Lemma markVisited_spec vis i iW j jH n :
  length vis = n -> (iW < n)%nat ->
  exists vis',
    markVisited vis i iW j jH = Normal vis' /\ length vis' = n /\
    (forall a b, (i <= a <= iW)%nat -> (j <= b <= jH)%nat ->
       get2 false vis' a b = Normal true) /\
    (forall a b, get2 false vis a b = Normal true ->
       get2 false vis' a b = Normal true) /\
    (forall a b, get2 false vis' a b = Normal true ->
       ((i <= a <= iW)%nat /\ (j <= b <= jH)%nat) \/
       get2 false vis a b = Normal true).
Proof.
  intros Hlen HiW. unfold markVisited.
  destruct (foldM_prefix
              (fun done (t : Table bool) =>
                 length t = n /\
                 (forall a b, In a (seq i (iW + 1 - i)) -> In b done ->
                    get2 false t a b = Normal true) /\
                 (forall a b, get2 false vis a b = Normal true ->
                    get2 false t a b = Normal true) /\
                 (forall a b, get2 false t a b = Normal true ->
                    (In a (seq i (iW + 1 - i)) /\ In b done) \/
                    get2 false vis a b = Normal true))
              (fun vis jj =>
                 foldM (fun vis ii => set2 false vis ii jj true)
                       (seq i (iW + 1 - i)) vis)
              (seq j (jH + 1 - j))) with (st := vis)
    as (vis' & E & Hl & Hall & Hmono & Honly).
  - intros doneJ jj t _ (Hl & Hdone & Hmono & Honly).
    destruct (foldM_prefix
                (fun done (t' : Table bool) =>
                   length t' = n /\
                   (forall a b, get2 false t a b = Normal true ->
                      get2 false t' a b = Normal true) /\
                   (forall a, In a done -> get2 false t' a jj = Normal true) /\
                   (forall a b, get2 false t' a b = Normal true ->
                      (In a done /\ b = jj) \/ get2 false t a b = Normal true))
                (fun vis ii => set2 false vis ii jj true)
                (seq i (iW + 1 - i))) with (st := t)
      as (t' & E & Hl' & Hmono' & Hrow & Honly').
    + intros doneI ii t0 Hii (Hl0 & Hmono0 & Hrow0 & Honly0). apply in_seq in Hii.
      destruct (set2_ok false t0 ii jj true) as (t1 & E1 & Hl1); [lia |].
      exists t1. split; [exact E1 |]. split; [lia |].
      split.
      { intros a b Hab. rewrite (get2_set2 _ _ _ _ _ _ a b E1).
        destruct ((a =? ii)%nat && (b =? jj)%nat); [reflexivity |].
        apply Hmono0. exact Hab. }
      split.
      { intros a Ha. rewrite (get2_set2 _ _ _ _ _ _ a jj E1).
        destruct ((a =? ii)%nat && (jj =? jj)%nat) eqn:Eab; [reflexivity |].
        apply in_app_or in Ha. destruct Ha as [Ha | [<- | []]].
        - apply Hrow0. exact Ha.
        - rewrite !Nat.eqb_refl in Eab. discriminate. }
      intros a b Hab. rewrite (get2_set2 _ _ _ _ _ _ a b E1) in Hab.
      destruct (Nat.eqb_spec a ii) as [-> | Hne]; cbn [andb] in Hab.
      * destruct (Nat.eqb_spec b jj) as [Hbj | Hne'].
        -- left. split; [apply in_or_app; right; left; reflexivity | exact Hbj].
        -- destruct (Honly0 _ _ Hab) as [[Hin ->] | Ht]; [| right; exact Ht].
           contradiction.
      * destruct (Honly0 _ _ Hab) as [[Hin ->] | Ht]; [| right; exact Ht].
        left. split; [apply in_or_app; left; exact Hin | reflexivity].
    + split; [exact Hl |]. split; [trivial |].
      split; [intros a [] | intros a b Hab; right; exact Hab].
    + exists t'. split; [exact E |]. split; [exact Hl' |].
      split.
      { intros a b Ha Hb. apply in_app_or in Hb. destruct Hb as [Hb | [<- | []]].
        - apply Hmono'. apply Hdone; assumption.
        - apply Hrow. exact Ha. }
      split.
      { intros a b Hab. apply Hmono', Hmono, Hab. }
      intros a b Hab. destruct (Honly' _ _ Hab) as [[Hin ->] | Ht].
      * left. split; [exact Hin | apply in_or_app; right; left; reflexivity].
      * destruct (Honly _ _ Ht) as [[Hin Hb] | Hv]; [| right; exact Hv].
        left. split; [exact Hin | apply in_or_app; left; exact Hb].
  - split; [exact Hlen |]. split; [intros a b _ [] |].
    split; [trivial | intros a b Hab; right; exact Hab].
  - exists vis'. split; [exact E |]. split; [exact Hl |].
    split; [intros a b Ha Hb; apply Hall; apply in_seq; lia |].
    split; [exact Hmono |].
    intros a b Hab. destruct (Honly _ _ Hab) as [[Ha Hb] | Hv]; [| right; exact Hv].
    apply in_seq in Ha. apply in_seq in Hb. left. lia.
Qed.

Lemma hasTriangle_extends mat a b c f f' :
  extends f f' -> hasTriangle mat a b c f -> hasTriangle mat a b c f'.
Proof.
  intros [extra ->] [H | H]; [left | right]; apply in_or_app; left; exact H.
Qed.

Lemma hasTriangle_emitFace v f a b c desired mat :
  hasTriangle mat a b c (emitFace v f a b c desired mat).
Proof.
  destruct (emitFace_cases v f a b c desired mat) as [-> | ->]; [left | right];
    apply in_or_app; right; left; reflexivity.
Qed.

Lemma cellTriangles_extends indexTop yTop i j f f' :
  extends f f' -> cellTriangles indexTop yTop i j f -> cellTriangles indexTop yTop i j f'.
Proof.
  intros Hext (a & b & c & d & y00 & y10 & y11 & y01 & Ha & Hb & Hc & Hd
               & H00 & H10 & H11 & H01 & T1 & T2).
  exists a, b, c, d, y00, y10, y11, y01.
  repeat (split; [assumption |]).
  split; eapply hasTriangle_extends; eassumption.
Qed.

Section Detail.

Variable captured : list Slice.
Variable v : list Vec3.
Variable indexTop : Table nat.
Variable yTop : Table R.
Variable baseMat : MatName.
Variable flatCell : Table bool.

Hypothesis HindexTop : length indexTop = slices captured.
Hypothesis HyTop : length yTop = slices captured.
Hypothesis HflatCell : length flatCell = (slices captured - 1)%nat.

Lemma topCellFaces_detail (P : nat -> nat -> Prop) st i j :
  (i < slices captured - 1)%nat -> (j < bins - 1)%nat ->
  detailInv captured indexTop yTop flatCell P st ->
  exists st',
    topCellFaces captured v indexTop yTop baseMat flatCell st i j = Normal st' /\
    detailInv captured indexTop yTop flatCell
              (fun a b => P a b \/ (a = i /\ b = j)) st'.
Proof.
  intros Hi Hj (Htop & Hwk & Hvis & HP).
  destruct (topCellFaces_ok captured v indexTop yTop baseMat flatCell
              HindexTop HyTop HflatCell [] st i j Hi Htop) as (st' & E & Htop').
  exists st'. split; [exact E |]. split; [exact Htop' |].
  destruct Htop as [Hlen _].
  unfold topCellFaces in E. inv_bind E. destruct k.
  { (* already visited *)
    injection E as <-. split; [exact Hwk |]. split; [exact Hvis |].
    intros a b [Hab | [-> ->]]; [apply HP; exact Hab | exact E0]. }
  inv_bind E. destruct k; cbn [negb] in E.
  - (* a flat cell *)
    inv_bind E. rename k into iW. inv_bind E. rename k into jH.
    match goal with
    | H : growW _ _ _ _ _ = Normal iW |- _ =>
        pose proof (growW_sound _ _ _ _ _ _ H) as [HiW Hrow];
        assert (HiW' : (iW < slices captured - 1)%nat)
          by (destruct (growW_bound _ _ _ _ _ _ H) as [-> | Hin];
              [exact Hi | apply in_seq in Hin; lia])
    end.
    match goal with
    | H : growH _ _ _ _ _ _ = Normal jH |- _ =>
        pose proof (growH_sound _ _ _ _ _ _ _ H) as [HjH Hcols]
    end.
    do 4 inv_bind E. inv_bind E. injection E as <-.
    cbn [visited topFaces topMaterials].
    destruct (markVisited_spec (visited st) i iW j jH _ Hlen HiW')
      as (vis2 & EM & _ & Hrect & Hmono & Honly).
    match goal with
    | H : markVisited _ _ _ _ _ = Normal ?vis1 |- _ =>
        rewrite EM in H; injection H as <-
    end.
    split; [exact Hwk |].
    split.
    + intros a b Hab. destruct (Honly _ _ Hab) as [[Ha Hb] | Hold].
      * left. destruct (Nat.eq_dec b j) as [-> | Hbj].
        -- destruct (Nat.eq_dec a i) as [-> | Hai]; [assumption | apply Hrow; lia].
        -- apply Hcols; [lia | apply in_seq; lia].
      * destruct (Hvis _ _ Hold) as [Hfl | Hcell]; [left; exact Hfl | right].
        eapply cellTriangles_extends; [| exact Hcell].
        apply extends_emitFace2, extends_emitFace.
    + intros a b [Hab | [-> ->]]; [apply Hmono, HP, Hab | apply Hrect; lia].
  - (* a cell that is not flat *)
    do 8 inv_bind E. cbv zeta in E.
    match type of E with
    | context [materialNameForColor (topMaterials st) ?c1] =>
        destruct (materialNameForColor_spec (topMaterials st) c1 Hwk)
          as (En1 & Hwk1 & _ & _);
        destruct (materialNameForColor (topMaterials st) c1) as [m1 n1]
    end.
    cbn [fst snd] in *.
    match type of E with
    | context [materialNameForColor m1 ?c2] =>
        destruct (materialNameForColor_spec m1 c2 Hwk1)
          as (En2 & Hwk2 & _ & _);
        destruct (materialNameForColor m1 c2) as [m2 n2]
    end.
    cbn [fst snd] in *.
    inv_bind E. injection E as <-. cbn [visited topFaces topMaterials].
    match goal with
    | H : set2 false (visited st) i j true = Normal ?vis1 |- _ =>
        pose proof (fun a b => get2_set2 _ _ _ _ _ _ a b H) as Hset
    end.
    split; [exact Hwk2 |].
    split.
    + intros a b Hab. rewrite Hset in Hab.
      destruct (Nat.eqb_spec a i) as [-> | Hai]; cbn [andb] in Hab.
      * destruct (Nat.eqb_spec b j) as [Hbj | Hbj].
        -- right. subst b n1 n2.
           do 8 eexists.
           repeat (split; [eassumption |]).
           split.
           ++ eapply hasTriangle_extends; [apply extends_emitFace |].
              apply hasTriangle_emitFace.
           ++ apply hasTriangle_emitFace.
        -- destruct (Hvis _ _ Hab) as [Hfl | Hcell]; [left; exact Hfl | right].
           eapply cellTriangles_extends; [| exact Hcell].
           apply extends_emitFace2, extends_emitFace.
      * destruct (Hvis _ _ Hab) as [Hfl | Hcell]; [left; exact Hfl | right].
        eapply cellTriangles_extends; [| exact Hcell].
        apply extends_emitFace2, extends_emitFace.
    + intros a b Hab. rewrite Hset.
      destruct ((a =? i)%nat && (b =? j)%nat) eqn:Eab; [reflexivity |].
      destruct Hab as [Hab | [-> ->]]; [apply HP; exact Hab |].
      rewrite !Nat.eqb_refl in Eab. discriminate.
Qed.

End Detail.

Lemma detailInv_weaken captured indexTop yTop flatCell (P P' : nat -> nat -> Prop) st :
  (forall a b, P' a b -> P a b) ->
  detailInv captured indexTop yTop flatCell P st ->
  detailInv captured indexTop yTop flatCell P' st.
Proof.
  intros HPP (Htop & Hwk & Hvis & HP).
  split; [exact Htop |]. split; [exact Hwk |]. split; [exact Hvis |].
  intros a b Hab. apply HP, HPP, Hab.
Qed.

(** The loop over the top cells returns with every cell visited, and so
    with every cell flat or on its own two triangles. *)
Lemma topSurface_detail captured v indexTop yTop baseMat flatCell st :
  length indexTop = slices captured ->
  length yTop = slices captured ->
  length flatCell = (slices captured - 1)%nat ->
  detailInv captured indexTop yTop flatCell (fun _ _ => False) st ->
  exists st',
    topSurface captured v indexTop yTop baseMat flatCell st = Normal st' /\
    detailInv captured indexTop yTop flatCell
              (fun a b => (a < slices captured - 1)%nat /\ (b < bins - 1)%nat) st'.
Proof.
  intros HT HY HF Hst. unfold topSurface.
  destruct (foldM_prefix
              (fun doneJ s =>
                 detailInv captured indexTop yTop flatCell
                           (fun a b => In b doneJ /\ (a < slices captured - 1)%nat) s)
              (fun st j =>
                 foldM (fun st i =>
                          topCellFaces captured v indexTop yTop baseMat flatCell st i j)
                       (seq 0 (slices captured - 1)) st)
              (seq 0 (bins - 1))) with (st := st) as (st' & E & Hinv).
  - intros doneJ j s Hj Hs. apply in_seq in Hj.
    destruct (foldM_prefix
                (fun doneI s' =>
                   detailInv captured indexTop yTop flatCell
                             (fun a b => (In b doneJ /\ (a < slices captured - 1)%nat)
                                         \/ (In a doneI /\ b = j)) s')
                (fun st i =>
                   topCellFaces captured v indexTop yTop baseMat flatCell st i j)
                (seq 0 (slices captured - 1))) with (st := s) as (s' & E & Hinv).
    + intros doneI i s0 Hi Hs0. apply in_seq in Hi.
      destruct (topCellFaces_detail captured v indexTop yTop baseMat flatCell
                  HT HY HF _ s0 i j ltac:(lia) ltac:(lia) Hs0) as (s1 & E1 & H1).
      exists s1. split; [exact E1 |].
      eapply detailInv_weaken; [| exact H1].
      intros a b [[Hb Ha] | [Ha ->]].
      * left. left. split; assumption.
      * apply in_app_or in Ha. destruct Ha as [Ha | [<- | []]].
        -- left. right. split; [exact Ha | reflexivity].
        -- right. split; reflexivity.
    + eapply detailInv_weaken; [| exact Hs].
      intros a b [H | [[] _]]. exact H.
    + exists s'. split; [exact E |].
      eapply detailInv_weaken; [| exact Hinv].
      intros a b [Hb Ha].
      apply in_app_or in Hb. destruct Hb as [Hb | [<- | []]].
      * left. split; assumption.
      * right. split; [apply in_seq; lia | reflexivity].
  - eapply detailInv_weaken; [| exact Hst].
    intros a b [[] _].
  - exists st'. split; [exact E |].
    eapply detailInv_weaken; [| exact Hinv].
    intros a b [Ha Hb]. split; [apply in_seq; lia | exact Ha].
Qed.

Lemma flatCells_at captured yTop fl i j :
  flatCells captured yTop = Normal fl ->
  (i < slices captured - 1)%nat -> (j < bins - 1)%nat ->
  exists y00 y10 y01 y11,
    get2 0 yTop i j = Normal y00 /\
    get2 0 yTop (i + 1) j = Normal y10 /\
    get2 0 yTop i (j + 1) = Normal y01 /\
    get2 0 yTop (i + 1) (j + 1) = Normal y11 /\
    get2 false fl i j = Normal (eqb y00 0 && eqb y10 0 && eqb y01 0 && eqb y11 0).
Proof.
  intros E Hi Hj. unfold flatCells in E.
  destruct (mapM_nth _ _ fl E i i) as (r & Er & Hr).
  { rewrite (nth_error_nth' (seq 0 (slices captured - 1)) 0%nat)
      by (rewrite length_seq; exact Hi).
    rewrite seq_nth by exact Hi. reflexivity. }
  destruct (mapM_nth _ _ r Er j j) as (b & Eb & Hb).
  { rewrite (nth_error_nth' (seq 0 (bins - 1)) 0%nat) by (rewrite length_seq; exact Hj).
    rewrite seq_nth by exact Hj. reflexivity. }
  inv_binds Eb. injection Eb as <-.
  do 4 eexists. repeat (split; [eassumption |]).
  rewrite (get2_row false fl i j r Hr). f_equal.
  apply nth_error_nth. exact Hb.
Qed.

Lemma eqb_0_false y : y <> 0 -> eqb y 0 = false.
Proof. intros H. unfold eqb. destruct (Req_dec_T y 0); [contradiction | reflexivity]. Qed.

Lemma visited0_false n m a b :
  get2 false (repeat (repeat false m) n) a b <> Normal true.
Proof.
  unfold get2, row. destruct (nth_error (repeat (repeat false m) n) a) as [r |] eqn:E;
    cbn [bind]; [| discriminate].
  apply nth_error_In, repeat_spec in E. subst r.
  destruct (nth_in_or_default b (repeat false m) false) as [Hin | ->]; [| discriminate].
  apply repeat_spec in Hin. rewrite Hin. discriminate.
Qed.

Lemma jBoundary_val : jBoundary = (bins - 2)%nat.
Proof. unfold jBoundary. rewrite bins_val, activeRowsCount_val. reflexivity. Qed.

Lemma hasTriangle_app_l mat a b c f g :
  hasTriangle mat a b c f -> hasTriangle mat a b c (f ++ g).
Proof. intros [H | H]; [left | right]; apply in_or_app; left; exact H. Qed.

Lemma hasTriangle_app_r mat a b c f g :
  hasTriangle mat a b c g -> hasTriangle mat a b c (f ++ g).
Proof. intros [H | H]; [left | right]; apply in_or_app; right; exact H. Qed.

Lemma emitFace_appended v f seam a b c desired mat :
  exists fc,
    emitFace v (f ++ seam) a b c desired mat = f ++ (seam ++ [fc]) /\
    hasTriangle mat a b c [fc].
Proof.
  destruct (emitFace_cases v (f ++ seam) a b c desired mat) as [-> | ->];
    eexists; (split; [rewrite <- app_assoc; reflexivity |]);
    [left | right]; left; reflexivity.
Qed.

(** The faces the seam loop appends: for every slice but the last, two
    triangles of the base material on the corners of the boundary cell. *)
Lemma frontSeam_has captured v indexTop baseMat f f' :
  (forall i j, (i < slices captured)%nat -> (j < bins)%nat ->
     get2 O indexTop i j = Normal (i * bins + j + 1)%nat) ->
  frontSeam captured v indexTop baseMat f = Normal f' ->
  exists seam,
    f' = f ++ seam /\
    forall i, (i < slices captured - 1)%nat ->
      hasTriangle baseMat (i * bins + (bins - 2) + 1) ((i + 1) * bins + (bins - 2) + 1)
                  ((i + 1) * bins + (bins - 2 + 1) + 1) seam /\
      hasTriangle baseMat (i * bins + (bins - 2) + 1)
                  ((i + 1) * bins + (bins - 2 + 1) + 1)
                  (i * bins + (bins - 2 + 1) + 1) seam.
Proof.
  intros HT E. unfold frontSeam in E. rewrite jBoundary_val in E.
  pose proof bins_val as Hb.
  destruct (foldM_prefix
              (fun done g =>
                 exists seam,
                   g = f ++ seam /\
                   forall i, In i done ->
                     hasTriangle baseMat (i * bins + (bins - 2) + 1)
                                 ((i + 1) * bins + (bins - 2) + 1)
                                 ((i + 1) * bins + (bins - 2 + 1) + 1) seam /\
                     hasTriangle baseMat (i * bins + (bins - 2) + 1)
                                 ((i + 1) * bins + (bins - 2 + 1) + 1)
                                 (i * bins + (bins - 2 + 1) + 1) seam)
              (fun f i =>
                 a0 <- get2 O indexTop i (bins - 2) ;;
                 a1 <- get2 O indexTop (i + 1) (bins - 2) ;;
                 b0 <- get2 O indexTop i (bins - 2 + 1) ;;
                 b1 <- get2 O indexTop (i + 1) (bins - 2 + 1) ;;
                 let f := emitFace v f a0 a1 b1 OUT_FRONT baseMat in
                 Normal (emitFace v f a0 b1 b0 OUT_FRONT baseMat))
              (seq 0 (slices captured - 1))) with (st := f) as (g & Eg & seam & -> & Hseam).
  - intros done i g Hi (seam & -> & Hdone). apply in_seq in Hi.
    rewrite !HT by lia. cbn [bind]. cbv zeta.
    destruct (emitFace_appended v f seam (i * bins + (bins - 2) + 1)
                ((i + 1) * bins + (bins - 2) + 1)
                ((i + 1) * bins + (bins - 2 + 1) + 1) OUT_FRONT baseMat)
      as (fc1 & -> & T1).
    destruct (emitFace_appended v f (seam ++ [fc1]) (i * bins + (bins - 2) + 1)
                ((i + 1) * bins + (bins - 2 + 1) + 1)
                (i * bins + (bins - 2 + 1) + 1) OUT_FRONT baseMat)
      as (fc2 & -> & T2).
    eexists. split; [reflexivity |].
    exists ((seam ++ [fc1]) ++ [fc2]). split; [reflexivity |].
    intros i' Hi'. apply in_app_or in Hi'. destruct Hi' as [Hold | [<- | []]].
    + destruct (Hdone _ Hold) as [H1 H2].
      split; apply hasTriangle_app_l, hasTriangle_app_l; assumption.
    + split.
      * apply hasTriangle_app_l, hasTriangle_app_r. exact T1.
      * apply hasTriangle_app_r. exact T2.
  - exists []. split; [symmetry; apply app_nil_r | intros i []].
  - cbv zeta in E, Eg. rewrite Eg in E. injection E as <-.
    exists seam. split; [reflexivity |].
    intros i Hi. apply Hseam. apply in_seq. lia.
Qed.

(** The faces of [triangulate]: those of the top loop, then those of the
    seam loop, then the rest. *)
Lemma triangulate_top_seam captured v indexTop indexBottom yTop baseMat materials
  fl st m :
  flatCells captured yTop = Normal fl ->
  topSurface captured v indexTop yTop baseMat fl
    (mkTopState (repeat (repeat false (bins - 1)) (slices captured - 1)) [] materials)
  = Normal st ->
  triangulate captured v indexTop yTop indexBottom materials baseMat = Normal m ->
  exists fs rest,
    frontSeam captured v indexTop baseMat (topFaces st) = Normal fs /\
    faces m = fs ++ rest.
Proof.
  intros Efl Etop E. unfold triangulate in E.
  rewrite Efl in E. cbn [bind] in E. rewrite Etop in E. cbn [bind] in E.
  cbv zeta in E.
  inv_bind E. exists k.
  inv_bind E. apply bottomSurface_extends in E1.
  inv_bind E. unfold backWall in E2. apply wallAlongX_extends in E2.
  inv_bind E. unfold frontWall in E3. apply wallAlongX_extends in E3.
  inv_bind E. inv_bind E. apply leftWall_extends in E5.
  inv_bind E. apply rightWall_extends in E6.
  injection E as <-. cbn [faces].
  assert (X : extendsIn baseMat k k5).
  { apply (extendsIn_trans _ _ k4); [| exact E6].
    apply (extendsIn_trans _ _ k2); [| exact E5].
    apply (extendsIn_trans _ _ k1); [| exact E3].
    apply (extendsIn_trans _ _ k0); [exact E1 | exact E2]. }
  destruct X as (rest & -> & _). exists rest. split; [exact E0 | reflexivity].
Qed.

(** The top cells and the seam of the mesh the builder returns. *)
Lemma build_top_and_seam captured :
  (2 <= slices captured)%nat ->
  exists m fl top seam rest,
    buildOBJFromCaptured captured = Normal m /\
    flatCells captured (yTopOf captured) = Normal fl /\
    faces m = top ++ seam ++ rest /\
    (forall i j, (i < slices captured - 1)%nat -> (j < bins - 1)%nat ->
       get2 false fl i j = Normal true \/
       cellTriangles (indexTopOf captured) (yTopOf captured) i j top) /\
    (forall i, (i < slices captured - 1)%nat ->
       hasTriangle (179, 179, 179)%Z
                   (i * bins + (bins - 2) + 1) ((i + 1) * bins + (bins - 2) + 1)
                   ((i + 1) * bins + (bins - 2 + 1) + 1) seam /\
       hasTriangle (179, 179, 179)%Z
                   (i * bins + (bins - 2) + 1) ((i + 1) * bins + (bins - 2 + 1) + 1)
                   (i * bins + (bins - 2 + 1) + 1) seam).
Proof.
  intros Hs.
  destruct (buildOBJFromCaptured_returns captured) as (m & Em & _);
    [unfold slices in Hs; lia |].
  pose proof Em as E.
  rewrite buildOBJFromCaptured_eq, materialNameForColor_base in E. cbn [fst snd] in E.
  set (m0 := [((179, 179, 179)%Z,
               mkMaterial (179, 179, 179)%Z (179 / 255) (179 / 255) (179 / 255))]) in *.
  assert (Hwk0 : wellKeyed m0).
  { pose proof (materialNameForColor_spec [] baseColor wellKeyed_nil) as (_ & Hwk & _).
    rewrite materialNameForColor_base in Hwk. exact Hwk. }
  destruct (flatCells_ok captured (yTopOf captured) (length_yTopOf captured))
    as (fl & Efl & Hfl).
  destruct (topSurface_detail captured (verticesOf captured) (indexTopOf captured)
              (yTopOf captured) (179, 179, 179)%Z fl
              (mkTopState (repeat (repeat false (bins - 1)) (slices captured - 1)) [] m0)
              (length_indexTopOf captured) (length_yTopOf captured) Hfl)
    as (st & Etop & (_ & _ & Hvis & Hall)).
  { split; [split; [apply repeat_length | apply extends_refl] |].
    split; [exact Hwk0 |].
    split; [| intros a b []].
    intros a b Hab. exfalso. exact (visited0_false _ _ _ _ Hab). }
  destruct (triangulate_top_seam _ _ _ _ _ _ _ _ _ _ Efl Etop E)
    as (fs & rest & Eseam & Hf).
  destruct (frontSeam_has _ _ _ _ _ _ (indexTopOf_at captured) Eseam)
    as (seam & -> & Hseam).
  exists m, fl, (topFaces st), seam, rest.
  split; [exact Em |]. split; [exact Efl |].
  split; [rewrite Hf, <- app_assoc; reflexivity |].
  split; [| exact Hseam].
  intros i j Hi Hj. apply Hvis, Hall. split; assumption.
Qed.

(** A cell with a corner off the ground is not flat, so what the loop
    keeps for it is its two triangles. *)
Lemma cell_not_flat captured fl i j y00 y10 y11 y01 :
  flatCells captured (yTopOf captured) = Normal fl ->
  (i < slices captured - 1)%nat -> (j < bins - 1)%nat ->
  get2 0 (yTopOf captured) i j = Normal y00 ->
  get2 0 (yTopOf captured) (i + 1) j = Normal y10 ->
  get2 0 (yTopOf captured) (i + 1) (j + 1) = Normal y11 ->
  get2 0 (yTopOf captured) i (j + 1) = Normal y01 ->
  y00 <> 0 \/ y10 <> 0 \/ y11 <> 0 \/ y01 <> 0 ->
  forall top,
    get2 false fl i j = Normal true \/
    cellTriangles (indexTopOf captured) (yTopOf captured) i j top ->
    hasTriangle
      (colorKey (referenceColorRamp
                   (Math_max 0 (Math_min 1 ((y00 + y10 + y11)
                                            / (3 * (depth * heightScale)))))))
      (i * bins + j + 1) ((i + 1) * bins + j + 1) ((i + 1) * bins + (j + 1) + 1) top /\
    hasTriangle
      (colorKey (referenceColorRamp
                   (Math_max 0 (Math_min 1 ((y00 + y11 + y01)
                                            / (3 * (depth * heightScale)))))))
      (i * bins + j + 1) ((i + 1) * bins + (j + 1) + 1) (i * bins + (j + 1) + 1) top.
Proof.
  intros Efl Hi Hj H00 H10 H11 H01 Hnz top Hcell.
  destruct (flatCells_at captured (yTopOf captured) fl i j Efl Hi Hj)
    as (z00 & z10 & z01 & z11 & G00 & G10 & G01 & G11 & Gfl).
  rewrite H00 in G00. rewrite H10 in G10. rewrite H01 in G01. rewrite H11 in G11.
  injection G00 as <-. injection G10 as <-. injection G01 as <-. injection G11 as <-.
  assert (Hnot : get2 false fl i j = Normal false).
  { rewrite Gfl. f_equal.
    destruct Hnz as [H | [H | [H | H]]]; rewrite (eqb_0_false _ H);
      rewrite ?andb_false_r, ?andb_false_l; reflexivity. }
  destruct Hcell as [Hflat | Hcell].
  { rewrite Hnot in Hflat. discriminate. }
  destruct Hcell as (a & b & c & d & w00 & w10 & w11 & w01 & Ha & Hb & Hc & Hd
                     & W00 & W10 & W11 & W01 & T1 & T2).
  pose proof bins_val as Hbv.
  rewrite indexTopOf_at in Ha, Hb, Hc, Hd by lia.
  injection Ha as <-. injection Hb as <-. injection Hc as <-. injection Hd as <-.
  rewrite H00 in W00. rewrite H10 in W10. rewrite H11 in W11. rewrite H01 in W01.
  injection W00 as <-. injection W10 as <-. injection W11 as <-. injection W01 as <-.
  split; assumption.
Qed.

(** X22.  The merge loses no detail.  In a history of two slices or more,
    a cell of the top grid with a corner that is not at height 0 is never
    taken into a merged rectangle: the mesh has the cell's own two
    triangles, on the cell's four corner vertices, each in the material of
    the colour of the mean height of its three corners (written in the
    order given or with the last two indices swapped). *)
Theorem non_flat_cells_keep_their_triangles (captured : list Slice) (i j : nat)
  (y00 y10 y11 y01 : R)
  (Hi : (i + 1 < length captured)%nat) (Hj : (j + 1 < bins)%nat)
  (H00 : get2 0 (yTopOf captured) i j = Normal y00)
  (H10 : get2 0 (yTopOf captured) (i + 1) j = Normal y10)
  (H11 : get2 0 (yTopOf captured) (i + 1) (j + 1) = Normal y11)
  (H01 : get2 0 (yTopOf captured) i (j + 1) = Normal y01)
  (Hnz : y00 <> 0 \/ y10 <> 0 \/ y11 <> 0 \/ y01 <> 0) :
  exists m,
    buildOBJFromCaptured captured = Normal m /\
    hasTriangle
      (colorKey (referenceColorRamp
                   (Math_max 0 (Math_min 1 ((y00 + y10 + y11)
                                            / (3 * (depth * heightScale)))))))
      (i * bins + j + 1) ((i + 1) * bins + j + 1) ((i + 1) * bins + (j + 1) + 1)
      (faces m) /\
    hasTriangle
      (colorKey (referenceColorRamp
                   (Math_max 0 (Math_min 1 ((y00 + y11 + y01)
                                            / (3 * (depth * heightScale)))))))
      (i * bins + j + 1) ((i + 1) * bins + (j + 1) + 1) (i * bins + (j + 1) + 1)
      (faces m).
Proof.
  assert (Hs : (i + 1 < slices captured)%nat) by exact Hi.
  destruct (build_top_and_seam captured ltac:(lia))
    as (m & fl & top & seam & rest & Em & Efl & Hf & Hcells & _).
  exists m. split; [exact Em |].
  destruct (cell_not_flat captured fl i j y00 y10 y11 y01 Efl ltac:(lia) ltac:(lia)
              H00 H10 H11 H01 Hnz top (Hcells i j ltac:(lia) ltac:(lia)))
    as [T1 T2].
  rewrite Hf. split; apply hasTriangle_app_l; assumption.
Qed.

Lemma yTopOf_loud captured i j sl :
  nth_error captured i = Some sl -> (j < activeRowsCount)%nat ->
  flatEps <= sliceAt sl j * depth * heightScale ->
  get2 0 (yTopOf captured) i j = Normal (sliceAt sl j * depth * heightScale).
Proof.
  intros Hsl Hj Hloud.
  rewrite (yTopOf_at captured i j sl Hsl)
    by (unfold bins; lia).
  unfold topVertex, topVertexArgs. cbv zeta. cbn [fst snd vY].
  apply Nat.ltb_lt in Hj. rewrite Hj.
  rewrite ltb_false by lra. reflexivity.
Qed.

Lemma sliceAt_repeat x j : (j < pointsPerSlice)%nat -> sliceAt (repeat x pointsPerSlice) j = x.
Proof. intros Hj. unfold sliceAt. apply nth_repeat_lt. exact Hj. Qed.

Lemma non_flat_cells_keep_their_triangles_witness :
  exists m,
    buildOBJFromCaptured [repeat 1%R pointsPerSlice; repeat 1%R pointsPerSlice]
    = Normal m /\
    hasTriangle
      (colorKey (referenceColorRamp
                   (Math_max 0 (Math_min 1 ((1 * depth * heightScale
                                             + 1 * depth * heightScale
                                             + 1 * depth * heightScale)
                                            / (3 * (depth * heightScale)))))))
      (0 * bins + 0 + 1) ((0 + 1) * bins + 0 + 1) ((0 + 1) * bins + (0 + 1) + 1)
      (faces m) /\
    hasTriangle
      (colorKey (referenceColorRamp
                   (Math_max 0 (Math_min 1 ((1 * depth * heightScale
                                             + 1 * depth * heightScale
                                             + 1 * depth * heightScale)
                                            / (3 * (depth * heightScale)))))))
      (0 * bins + 0 + 1) ((0 + 1) * bins + (0 + 1) + 1) (0 * bins + (0 + 1) + 1)
      (faces m).
Proof.
  assert (Hy : forall i j, (i < 2)%nat -> (j < 2)%nat ->
            get2 0 (yTopOf [repeat 1 pointsPerSlice; repeat 1 pointsPerSlice]) i j
            = Normal (1 * depth * heightScale)).
  { intros i j Hi Hj.
    assert (Hj' : (j < pointsPerSlice)%nat) by (unfold pointsPerSlice; lia).
    rewrite (yTopOf_loud _ i j (repeat 1 pointsPerSlice)).
    - rewrite sliceAt_repeat by exact Hj'. reflexivity.
    - destruct i as [| [| i]]; [reflexivity | reflexivity | lia].
    - rewrite activeRowsCount_val. lia.
    - rewrite sliceAt_repeat by exact Hj'.
      unfold flatEps, depth, heightScale. lra. }
  apply (non_flat_cells_keep_their_triangles
           [repeat 1 pointsPerSlice; repeat 1 pointsPerSlice] 0 0
           (1 * depth * heightScale) (1 * depth * heightScale)
           (1 * depth * heightScale) (1 * depth * heightScale)).
  - cbn [length]. lia.
  - rewrite bins_val. lia.
  - apply Hy; lia.
  - apply Hy; lia.
  - apply Hy; lia.
  - apply Hy; lia.
  - left. unfold depth, heightScale. lra.
Defined.

Lemma yTopOf_boundary captured i :
  (i < slices captured)%nat ->
  get2 0 (yTopOf captured) i (bins - 2 + 1) = Normal 0.
Proof.
  intros Hi. destruct (nth_error_captured captured i Hi) as [sl Hsl].
  replace (bins - 2 + 1)%nat with activeRowsCount
    by (rewrite bins_val, activeRowsCount_val; reflexivity).
  rewrite (yTopOf_at captured i activeRowsCount sl Hsl activeRowsCount_lt_bins).
  unfold topVertex. cbn [fst snd].
  rewrite topVertexArgs_boundary. reflexivity.
Qed.

(** X24.  The seam repeats the boundary cells.  The seam loop runs over
    the cells between grid rows [bins - 2] and [bins - 1], the last column
    of cells of the top loop.  So where such a cell is not flat, each of
    its two triangles is in the face list twice, on the same three
    vertices: once from the top loop, in the material of its colour, and
    once from the seam loop, in the base material. *)
Theorem seam_repeats_boundary_cells (captured : list Slice) (i : nat) (y00 y10 : R)
  (Hi : (i + 1 < length captured)%nat)
  (H00 : get2 0 (yTopOf captured) i (bins - 2) = Normal y00)
  (H10 : get2 0 (yTopOf captured) (i + 1) (bins - 2) = Normal y10)
  (Hnz : y00 <> 0 \/ y10 <> 0) :
  exists m top seam rest,
    buildOBJFromCaptured captured = Normal m /\
    faces m = top ++ seam ++ rest /\
    hasTriangle
      (colorKey (referenceColorRamp
                   (Math_max 0 (Math_min 1 ((y00 + y10 + 0)
                                            / (3 * (depth * heightScale)))))))
      (i * bins + (bins - 2) + 1) ((i + 1) * bins + (bins - 2) + 1)
      ((i + 1) * bins + (bins - 2 + 1) + 1) top /\
    hasTriangle (179, 179, 179)%Z
      (i * bins + (bins - 2) + 1) ((i + 1) * bins + (bins - 2) + 1)
      ((i + 1) * bins + (bins - 2 + 1) + 1) seam /\
    hasTriangle
      (colorKey (referenceColorRamp
                   (Math_max 0 (Math_min 1 ((y00 + 0 + 0)
                                            / (3 * (depth * heightScale)))))))
      (i * bins + (bins - 2) + 1) ((i + 1) * bins + (bins - 2 + 1) + 1)
      (i * bins + (bins - 2 + 1) + 1) top /\
    hasTriangle (179, 179, 179)%Z
      (i * bins + (bins - 2) + 1) ((i + 1) * bins + (bins - 2 + 1) + 1)
      (i * bins + (bins - 2 + 1) + 1) seam.
Proof.
  assert (Hs : (i + 1 < slices captured)%nat) by exact Hi.
  pose proof bins_val as Hb.
  destruct (build_top_and_seam captured ltac:(lia))
    as (m & fl & top & seam & rest & Em & Efl & Hf & Hcells & Hseam).
  exists m, top, seam, rest. split; [exact Em |]. split; [exact Hf |].
  destruct (cell_not_flat captured fl i (bins - 2) y00 y10 0 0 Efl
              ltac:(lia) ltac:(lia) H00 H10
              (yTopOf_boundary captured (i + 1) ltac:(lia))
              (yTopOf_boundary captured i ltac:(lia))
              ltac:(tauto) top (Hcells i (bins - 2)%nat ltac:(lia) ltac:(lia)))
    as [T1 T2].
  destruct (Hseam i ltac:(lia)) as [S1 S2].
  split; [exact T1 |]. split; [exact S1 |]. split; [exact T2 | exact S2].
Qed.

Lemma seam_repeats_boundary_cells_witness :
  exists m top seam rest,
    buildOBJFromCaptured [repeat 1%R pointsPerSlice; repeat 1%R pointsPerSlice]
    = Normal m /\
    faces m = top ++ seam ++ rest /\
    hasTriangle
      (colorKey (referenceColorRamp
                   (Math_max 0 (Math_min 1 ((1 * depth * heightScale
                                             + 1 * depth * heightScale + 0)
                                            / (3 * (depth * heightScale)))))))
      (0 * bins + (bins - 2) + 1) ((0 + 1) * bins + (bins - 2) + 1)
      ((0 + 1) * bins + (bins - 2 + 1) + 1) top /\
    hasTriangle (179, 179, 179)%Z
      (0 * bins + (bins - 2) + 1) ((0 + 1) * bins + (bins - 2) + 1)
      ((0 + 1) * bins + (bins - 2 + 1) + 1) seam /\
    hasTriangle
      (colorKey (referenceColorRamp
                   (Math_max 0 (Math_min 1 ((1 * depth * heightScale + 0 + 0)
                                            / (3 * (depth * heightScale)))))))
      (0 * bins + (bins - 2) + 1) ((0 + 1) * bins + (bins - 2 + 1) + 1)
      (0 * bins + (bins - 2 + 1) + 1) top /\
    hasTriangle (179, 179, 179)%Z
      (0 * bins + (bins - 2) + 1) ((0 + 1) * bins + (bins - 2 + 1) + 1)
      (0 * bins + (bins - 2 + 1) + 1) seam.
Proof.
  assert (Hy : forall i, (i < 2)%nat ->
            get2 0 (yTopOf [repeat 1 pointsPerSlice; repeat 1 pointsPerSlice])
                 i (bins - 2)
            = Normal (1 * depth * heightScale)).
  { intros i Hi. pose proof bins_val as Hb.
    assert (Hj' : (bins - 2 < pointsPerSlice)%nat) by (unfold pointsPerSlice; lia).
    rewrite (yTopOf_loud _ i (bins - 2) (repeat 1 pointsPerSlice)).
    - rewrite sliceAt_repeat by exact Hj'. reflexivity.
    - destruct i as [| [| i]]; [reflexivity | reflexivity | lia].
    - rewrite activeRowsCount_val. lia.
    - rewrite sliceAt_repeat by exact Hj'.
      unfold flatEps, depth, heightScale. lra. }
  apply (seam_repeats_boundary_cells
           [repeat 1 pointsPerSlice; repeat 1 pointsPerSlice] 0
           (1 * depth * heightScale) (1 * depth * heightScale)).
  - cbn [length]. lia.
  - apply Hy. lia.
  - apply Hy. lia.
  - left. unfold depth, heightScale. lra.
Defined.
